(** * The Axon content-addressed blob store (synapse/axon.py)

    A shallow embedding of the blob engine, the upload manager, the
    hash-lock registry, the sequence index, the metrics and the URL fetcher
    of [synapse/axon.py], with the properties of its specification.

    Layout: byte strings and the integer codecs of Python; SHA-256 as
    [hashlib] computes it; the LMDB slab as an ordered key-value table; the
    state of an [Axon] cell and its methods in an exception-and-state
    monad; then the lemmas and the theorems. *)

From Stdlib Require Import ZArith List Strings.Byte Strings.String Lia Sorted.
From stdpp Require Import base list gmap strings sorting pretty.

Open Scope Z_scope.

(** ** Byte strings *)

(** A Python [bytes] object. *)
Abbreviation bytes := (list byte).

Definition byte_val (b : byte) : Z := Z.of_N (Byte.to_N b).

Definition byte_of (z : Z) : byte :=
  match Byte.of_N (Z.to_N z) with
  | Some b => b
  | None => x00
  end.

(** [len(byts)] *)
Definition len (b : bytes) : Z := Z.of_nat (length b).

#[global] Instance byte_eq_dec : EqDecision byte := Byte.byte_eq_dec.

#[global] Program Instance byte_countable : Countable byte :=
  inj_countable Byte.to_N Byte.of_N _.
Next Obligation. intros x. apply Byte.of_to_N. Qed.

(** Big-endian digits of [n] on [k] bytes (the low [k] bytes of [n]). *)
Fixpoint be_bytes (k : nat) (n : Z) : bytes :=
  match k with
  | O => []
  | S k' => be_bytes k' (n / 256) ++ [byte_of (n mod 256)]
  end.

(** [n.to_bytes(k, 'big')]: Python raises [OverflowError] ([None] here) when
    [n] is negative or does not fit in [k] bytes. *)
Definition to_bytes (n : Z) (k : nat) : option bytes :=
  if (0 <=? n) && (n <? 256 ^ Z.of_nat k) then Some (be_bytes k n) else None.

(** [int.from_bytes(byts, 'big')] *)
Definition from_bytes (b : bytes) : Z :=
  fold_left (fun acc x => acc * 256 + byte_val x) b 0.

(** [not byts] on a value that is [None] or a [bytes] object: Python's truth
    test, false exactly for [None] and for the empty byte string. *)
Definition falsy (o : option bytes) : bool :=
  match o with
  | None => true
  | Some [] => true
  | Some (_ :: _) => false
  end.

(** Lexicographic comparison of byte strings, a proper prefix first: the
    key order of an LMDB table ([memcmp] order). *)
Fixpoint bytes_cmp (a b : bytes) : comparison :=
  match a, b with
  | [], [] => Eq
  | [], _ :: _ => Lt
  | _ :: _, [] => Gt
  | x :: a', y :: b' =>
      match Z.compare (byte_val x) (byte_val y) with
      | Eq => bytes_cmp a' b'
      | c => c
      end
  end.

Definition bytes_lt (a b : bytes) : Prop := bytes_cmp a b = Lt.

(** Modelled from the spec: [s_common.ehex] ([synapse.common]) is not
    under src/; "lowercase hex strings". *)
Definition hex_digit (d : Z) : Ascii.ascii :=
  Ascii.ascii_of_N (Z.to_N (if d <? 10 then 48 + d else 87 + d)).

Fixpoint ehex (b : bytes) : string :=
  match b with
  | [] => EmptyString
  | x :: b' =>
      String (hex_digit (byte_val x / 16))
        (String (hex_digit (byte_val x mod 16)) (ehex b'))
  end.

(** Modelled from the spec: [s_common.uhex] ([synapse.common], a wrapper of
    [binascii.unhexlify]) is not under src/; the bytes of a hexadecimal
    text of either case, [None] where Python raises (odd length, a character
    that is no hex digit). *)
Definition hex_val (c : Ascii.ascii) : option Z :=
  let n := Z.of_N (Ascii.N_of_ascii c) in
  if (48 <=? n) && (n <=? 57) then Some (n - 48)
  else if (97 <=? n) && (n <=? 102) then Some (n - 87)
  else if (65 <=? n) && (n <=? 70) then Some (n - 55)
  else None.

Fixpoint uhex (t : string) : option bytes :=
  match t with
  | EmptyString => Some []
  | String _ EmptyString => None
  | String c1 (String c2 rest) =>
      match hex_val c1, hex_val c2, uhex rest with
      | Some a, Some b, Some r => Some (byte_of (16 * a + b) :: r)
      | _, _, _ => None
      end
  end.

(** ** SHA-256 ([hashlib.sha256], FIPS 180-4)

    Words are 32-bit integers held in [Z]; every addition wraps modulo
    [2^32]. The round constants are derived as the standard defines them,
    from the cube roots and the square roots of the first primes. *)
Module SHA256.

Definition w32 (x : Z) : Z := x mod 2 ^ 32.
Definition add32 (x y : Z) : Z := w32 (x + y).
Definition rotr (n x : Z) : Z :=
  Z.lor (Z.shiftr x n) (w32 (Z.shiftl x (32 - n))).
Definition not32 (x : Z) : Z := Z.lxor x (2 ^ 32 - 1).

Definition Ch (x y z : Z) : Z := Z.lxor (Z.land x y) (Z.land (not32 x) z).
Definition Maj (x y z : Z) : Z :=
  Z.lxor (Z.lxor (Z.land x y) (Z.land x z)) (Z.land y z).
Definition Sigma0 (x : Z) : Z := Z.lxor (Z.lxor (rotr 2 x) (rotr 13 x)) (rotr 22 x).
Definition Sigma1 (x : Z) : Z := Z.lxor (Z.lxor (rotr 6 x) (rotr 11 x)) (rotr 25 x).
Definition sigma0 (x : Z) : Z := Z.lxor (Z.lxor (rotr 7 x) (rotr 18 x)) (Z.shiftr x 3).
Definition sigma1 (x : Z) : Z := Z.lxor (Z.lxor (rotr 17 x) (rotr 19 x)) (Z.shiftr x 10).

(** The first [n] primes, by trial division. *)
Fixpoint primes_from (fuel : nat) (n : nat) (c : Z) (acc : list Z) : list Z :=
  match fuel, n with
  | O, _ | _, O => rev acc
  | S fuel', S n' =>
      if forallb (fun p => negb (c mod p =? 0)) acc
      then primes_from fuel' n' (c + 1) (c :: acc)
      else primes_from fuel' n (c + 1) acc
  end.

Definition primes (n : nat) : list Z := primes_from 400 n 2 [].

(** Integer cube root of [n] below [2^bits]. *)
Fixpoint icbrt (bits : nat) (n r : Z) : Z :=
  match bits with
  | O => r
  | S b =>
      let r' := r + 2 ^ Z.of_nat b in
      icbrt b n (if r' * r' * r' <=? n then r' else r)
  end.

(** The first 32 bits of the fractional part of the cube root of the
    first 64 primes. *)
Definition K : list Z :=
  Eval vm_compute in map (fun p => w32 (icbrt 36 (p * 2 ^ 96) 0)) (primes 64).

(** The first 32 bits of the fractional part of the square root of the
    first 8 primes. *)
Definition H0 : list Z :=
  Eval vm_compute in map (fun p => w32 (Z.sqrt (p * 2 ^ 64))) (primes 8).

(** Padding: a one bit, zeros up to 56 modulo 64, the bit length on 8 bytes. *)
Definition pad (m : bytes) : bytes :=
  let l := len m in
  m ++ [x80] ++ repeat x00 (Z.to_nat ((55 - l) mod 64)) ++ be_bytes 8 (8 * l).

Definition word_of (b0 b1 b2 b3 : byte) : Z :=
  ((byte_val b0 * 256 + byte_val b1) * 256 + byte_val b2) * 256 + byte_val b3.

(** The 32-bit big-endian words of a byte string. *)
Fixpoint words (b : bytes) : list Z :=
  match b with
  | b0 :: b1 :: b2 :: b3 :: rest => word_of b0 b1 b2 b3 :: words rest
  | _ => []
  end.

(** The message schedule, most recent word first: [ws] holds
    [W(t-1), W(t-2), ...]. *)
Fixpoint schedule (n : nat) (ws : list Z) : list Z :=
  match n with
  | O => ws
  | S n' =>
      let w := add32 (add32 (sigma1 (nth 1 ws 0)) (nth 6 ws 0))
                     (add32 (sigma0 (nth 14 ws 0)) (nth 15 ws 0)) in
      schedule n' (w :: ws)
  end.

Record regs := Regs { ra : Z; rb : Z; rc : Z; rd : Z; re : Z; rf : Z; rg : Z; rh : Z }.

Definition round (s : regs) (kw : Z * Z) : regs :=
  let t1 := add32 (add32 (add32 (rh s) (Sigma1 (re s)))
                         (add32 (Ch (re s) (rf s) (rg s)) (fst kw))) (snd kw) in
  let t2 := add32 (Sigma0 (ra s)) (Maj (ra s) (rb s) (rc s)) in
  Regs (add32 t1 t2) (ra s) (rb s) (rc s) (add32 (rd s) t1) (re s) (rf s) (rg s).

Definition compress (h : regs) (block : list Z) : regs :=
  let w := rev (schedule 48 (rev block)) in
  let s := fold_left round (combine K w) h in
  Regs (add32 (ra h) (ra s)) (add32 (rb h) (rb s)) (add32 (rc h) (rc s))
       (add32 (rd h) (rd s)) (add32 (re h) (re s)) (add32 (rf h) (rf s))
       (add32 (rg h) (rg s)) (add32 (rh h) (rh s)).

Fixpoint blocks (fuel : nat) (ws : list Z) (h : regs) : regs :=
  match fuel, ws with
  | O, _ | _, [] => h
  | S fuel', _ => blocks fuel' (skipn 16 ws) (compress h (firstn 16 ws))
  end.

Definition init : regs :=
  Regs (nth 0 H0 0) (nth 1 H0 0) (nth 2 H0 0) (nth 3 H0 0)
       (nth 4 H0 0) (nth 5 H0 0) (nth 6 H0 0) (nth 7 H0 0).

(** [hashlib.sha256(m).digest()] *)
Definition digest (m : bytes) : bytes :=
  let ws := words (pad m) in
  let h := blocks (length ws) ws init in
  be_bytes 4 (ra h) ++ be_bytes 4 (rb h) ++ be_bytes 4 (rc h) ++ be_bytes 4 (rd h) ++
  be_bytes 4 (re h) ++ be_bytes 4 (rf h) ++ be_bytes 4 (rg h) ++ be_bytes 4 (rh h).

End SHA256.

(** ** The key-value tables *)

(** Modelled from the spec: the LMDB slab ([synapse.lib.lmdbslab.Slab]) is
    not under src/. A named table of a slab maps byte-string keys to
    byte-string values, one value per key, and is scanned in ascending key
    order ("keys thus sort lexicographically in reconstruction order"). It is
    held as the list of its entries in that order. *)
Abbreviation db := (list (bytes * bytes)).

(** Modelled from the spec: [Slab.get(key, db=db)], the value of the key
    or [None]. *)
Fixpoint db_get (k : bytes) (d : db) : option bytes :=
  match d with
  | [] => None
  | (k', v) :: d' => if bool_decide (k = k') then Some v else db_get k d'
  end.

(** Modelled from the spec: [Slab.has(key, db=db)]. *)
Definition db_has (k : bytes) (d : db) : bool := bool_decide (is_Some (db_get k d)).

(** Modelled from the spec: [Slab.put(key, val, db=db)]; the entry is set
    at the place of its key, over the value the key had. *)
Fixpoint db_put (k v : bytes) (d : db) : db :=
  match d with
  | [] => [(k, v)]
  | (k', v') :: d' =>
      match bytes_cmp k k' with
      | Lt => (k, v) :: d
      | Eq => (k, v) :: d'
      | Gt => (k', v') :: db_put k v d'
      end
  end.

(** Modelled from the spec: [Slab.delete(key, db=db)]; the entry of the
    key is dropped (a table has one entry per key). *)
Definition db_delete (k : bytes) (d : db) : db := filter (fun kv => kv.1 ≠ k) d.

(** Modelled from the spec: [Slab.pop(key, db=db)], "pop size-index
    entry"; the value of the key, or [None], and the table without the
    key. *)
Definition db_pop (k : bytes) (d : db) : option bytes * db := (db_get k d, db_delete k d).

(** Modelled from the spec: [Slab.scanByPref(pref, db=db)], "scans the
    chunk table for keys whose prefix equals digest in ascending order". *)
Definition scanByPref (pref : bytes) (d : db) : list (bytes * bytes) :=
  filter (fun kv => pref `prefix_of` kv.1) d.

(** Modelled from the spec: [Slab.scanKeysByPref(pref, db=db)], the keys
    of that scan. *)
Definition scanKeysByPref (pref : bytes) (d : db) : list bytes := (scanByPref pref d).*1.

(** The representation invariant of a table: keys strictly ascending. *)
Definition key_lt (a b : bytes * bytes) : Prop := bytes_lt a.1 b.1.

Definition db_ok (d : db) : Prop := StronglySorted key_lt d.

(** The number of entries of a table and the sum of its values read as
    big-endian sizes. *)
Definition db_count (d : db) : Z := Z.of_nat (length d).

Definition db_total (d : db) : Z := foldr (fun kv acc => from_bytes kv.2 + acc) 0 d.

(** ** Exceptions and results *)

Inductive exc : Type :=
| HitLimit (mesg : string)            (* s_exc.HitLimit(mesg=mesg) *)
| NoSuchFile (mesg sha256 : string)   (* s_exc.NoSuchFile(mesg=..., sha256=...) *)
| IsFini                              (* s_exc.IsFini() *)
| OverflowError                       (* int.to_bytes out of range *)
| CancelledError                      (* asyncio.CancelledError *)
| OtherExc (err errmsg : string).     (* any other exception, by class name and text *)

(** The outcome of a coroutine: a value, an exception, or a wait on a
    hash-lock that is held (nothing resumes it in a run of one coroutine). *)
Inductive result (A : Type) : Type :=
| Ok (a : A)
| Raise (e : exc)
| Wait.
Arguments Ok {A} a.
Arguments Raise {A} e.
Arguments Wait {A}.

(** A byte generator: the chunks it yields, then a normal end or an
    exception. *)
Inductive genr : Type :=
| GReturn
| GRaise (e : exc)
| GYield (byts : bytes) (rest : genr).

(** The generator that yields the chunks of [l] and returns. *)
Fixpoint genr_of (l : list bytes) : genr :=
  match l with
  | [] => GReturn
  | b :: l' => GYield b (genr_of l')
  end.

(** The generator that yields the chunks of [l] and then raises [e]. *)
Fixpoint genr_raising (l : list bytes) (e : exc) : genr :=
  match l with
  | [] => GRaise e
  | b :: l' => GYield b (genr_raising l' e)
  end.

(** ** The Axon cell *)
Module axon.

(** Modelled from the spec: [s_const.mebibyte] ([synapse.lib.const]) is not
    under src/; "C = 16 MiB". *)
Definition mebibyte : Z := 1024 * 1024.

Definition CHUNK_SIZE : Z := 16 * mebibyte.

(** [self.axonmetrics]: the hive dictionary, whose two keys [__anit__]
    sets by [setdefault]. *)
Record Metrics : Type := mkMetrics {
  size_bytes : Z;   (* 'size:bytes' *)
  file_count : Z;   (* 'file:count' *)
}.

(** An entry of [self.hashlocks]: the list [[refcount, asyncio.Lock()]],
    the lock by whether it is held. *)
Abbreviation lockitem := (Z * bool)%type.

(** The state of an [Axon]. *)
Record Axon : Type := mkAxon {
  sizes : db;                           (* axonslab, table 'sizes' *)
  blobs : db;                           (* blobslab, table 'blobs' *)
  axonseqn : list (bytes * Z);          (* SlabSeqn 'axonseqn' *)
  axonhist : list (Z * (bytes * Z));    (* Hist 'history' *)
  axonmetrics : Metrics;
  hashlocks : gmap bytes lockitem;
  maxbytes : option Z;                  (* conf 'max:bytes' *)
  maxcount : option Z;                  (* conf 'max:count' *)
}.

Definition set_sizes (f : db → db) (s : Axon) : Axon :=
  mkAxon (f (sizes s)) (blobs s) (axonseqn s) (axonhist s) (axonmetrics s)
         (hashlocks s) (maxbytes s) (maxcount s).
Definition set_blobs (f : db → db) (s : Axon) : Axon :=
  mkAxon (sizes s) (f (blobs s)) (axonseqn s) (axonhist s) (axonmetrics s)
         (hashlocks s) (maxbytes s) (maxcount s).
Definition set_axonseqn (f : list (bytes * Z) → list (bytes * Z)) (s : Axon) : Axon :=
  mkAxon (sizes s) (blobs s) (f (axonseqn s)) (axonhist s) (axonmetrics s)
         (hashlocks s) (maxbytes s) (maxcount s).
Definition set_axonhist (f : list (Z * (bytes * Z)) → list (Z * (bytes * Z))) (s : Axon) : Axon :=
  mkAxon (sizes s) (blobs s) (axonseqn s) (f (axonhist s)) (axonmetrics s)
         (hashlocks s) (maxbytes s) (maxcount s).
Definition set_axonmetrics (f : Metrics → Metrics) (s : Axon) : Axon :=
  mkAxon (sizes s) (blobs s) (axonseqn s) (axonhist s) (f (axonmetrics s))
         (hashlocks s) (maxbytes s) (maxcount s).
Definition set_hashlocks (f : gmap bytes lockitem → gmap bytes lockitem) (s : Axon) : Axon :=
  mkAxon (sizes s) (blobs s) (axonseqn s) (axonhist s) (axonmetrics s)
         (f (hashlocks s)) (maxbytes s) (maxcount s).

(** [Axon.__anit__] on an empty directory, with the configured limits. *)
Definition anit (maxb maxc : option Z) : Axon :=
  mkAxon [] [] [] [] (mkMetrics 0 0) ∅ maxb maxc.

(** Coroutines of the cell: the state is threaded, and kept when an
    exception is raised (what was written stays written). *)
Definition M (A : Type) : Type := Axon → result A * Axon.

Definition ret {A} (a : A) : M A := fun s => (Ok a, s).
Definition raise {A} (e : exc) : M A := fun s => (Raise e, s).
Definition bind {A B} (m : M A) (k : A → M B) : M B :=
  fun s =>
    match m s with
    | (Ok a, s') => k a s'
    | (Raise e, s') => (Raise e, s')
    | (Wait, s') => (Wait, s')
    end.
Definition gets {A} (f : Axon → A) : M A := fun s => (Ok (f s), s).
Definition modify (f : Axon → Axon) : M unit := fun s => (Ok tt, f s).

Notation "'let*' x := m 'in' k" := (bind m (fun x => k))
  (at level 10, x name, m at level 100, k at level 200).

(** *** The hash-lock registry ([holdHashLock]) *)

(** Lines 561-565: the entry of the digest, inserted as [[0, Lock()]] when
    absent, with its count incremented. *)
Definition hashlocks_enter (h : bytes) (reg : gmap bytes lockitem) : gmap bytes lockitem :=
  let item := default (0, false) (reg !! h) in
  <[h := (item.1 + 1, item.2)]> reg.

(** [item[1].acquire()]: [None] when the lock is held (the caller waits). *)
Definition hashlocks_acquire (h : bytes) (reg : gmap bytes lockitem) : option (gmap bytes lockitem) :=
  match reg !! h with
  | Some (n, false) => Some (<[h := (n, true)]> reg)
  | _ => None
  end.

(** [item[1].release()], at either exit of [async with item[1]]. *)
Definition hashlocks_release (h : bytes) (reg : gmap bytes lockitem) : gmap bytes lockitem :=
  alter (fun item => (item.1, false)) h reg.

(** Lines 569-572: the count decremented, the entry popped at zero. *)
Definition hashlocks_leave (h : bytes) (reg : gmap bytes lockitem) : gmap bytes lockitem :=
  match reg !! h with
  | Some (n, l) => if n - 1 =? 0 then delete h reg else <[h := (n - 1, l)]> reg
  | None => reg
  end.

(** [async with self.holdHashLock(hashbyts): body]. The manager is a
    generator with no [try]: when the body ends normally the generator
    resumes after its [yield], leaves [async with item[1]] (release) and runs
    lines 569-572; when the body raises, the exception is thrown in at the
    [yield], [async with item[1]] releases the lock and lets it through, and
    lines 569-572 are not run. The local [item] is the entry of the
    dictionary throughout: an entry is replaced only when absent and popped
    only at count zero. *)
Definition holdHashLock {A} (hashbyts : bytes) (body : M A) : M A :=
  fun s =>
    let s1 := set_hashlocks (hashlocks_enter hashbyts) s in
    match hashlocks_acquire hashbyts (hashlocks s1) with
    | None => (Wait, s1)
    | Some reg =>
        match body (set_hashlocks (fun _ => reg) s1) with
        | (Ok a, s2) =>
            (Ok a, set_hashlocks (fun r => hashlocks_leave hashbyts (hashlocks_release hashbyts r)) s2)
        | (Raise e, s2) => (Raise e, set_hashlocks (hashlocks_release hashbyts) s2)
        | (Wait, s2) => (Wait, s2)
        end
    end.

(** *** Limits, index and history *)

(** [limit <= valu] for a limit that may be [None] (not configured). *)
Definition reached (limit : option Z) (valu : Z) : bool :=
  match limit with
  | Some m => m <=? valu
  | None => false
  end.

Definition _reqBelowLimit : M unit :=
  fun s =>
    if reached (maxbytes s) (size_bytes (axonmetrics s))
    then (Raise (HitLimit ("Axon is at size:bytes limit: " +:+ pretty (default 0 (maxbytes s)))), s)
    else if reached (maxcount s) (file_count (axonmetrics s))
    then (Raise (HitLimit ("Axon is at file:count limit: " +:+ pretty (default 0 (maxcount s)))), s)
    else (Ok tt, s).

(** Modelled from the spec: [Hist.add] ([synapse.lib.lmdbslab.Hist]) is not
    under src/. "History entry: time-keyed record (timestamp_ms, (digest,
    size))", kept in ascending time order, a new entry after those of the
    same time. [tick] is the clock reading of the call. *)
Fixpoint hist_add (tick : Z) (item : bytes * Z) (h : list (Z * (bytes * Z))) : list (Z * (bytes * Z)) :=
  match h with
  | [] => [(tick, item)]
  | (t, i) :: h' => if tick <? t then (tick, item) :: h else (t, i) :: hist_add tick item h'
  end.

(** Modelled from the spec: [SlabSeqn.add] and [SlabSeqn.iter]
    ([synapse.lib.slabseqn]) are not under src/. "Sequence entry:
    append-only log of (digest, size) pairs in insertion order", "Offsets
    are dense and never reused": the offset of an entry is its position, and
    [iter(offs)] yields the entries from [offs] on with their offsets. *)
Definition seqn_add (item : bytes * Z) (q : list (bytes * Z)) : list (bytes * Z) := q ++ [item].

Definition seqn_iter (offs : Z) (q : list (bytes * Z)) : list (Z * (bytes * Z)) :=
  filter (fun oi => offs ≤ oi.1) (zip (seqZ 0 (Z.of_nat (length q))) q).

Definition _addSyncItem (tick : Z) (item : bytes * Z) : M unit :=
  let* _ := modify (set_axonhist (hist_add tick item)) in
  modify (set_axonseqn (seqn_add item)).

(** [Axon.hashes(offs)]: the items it yields. *)
Definition hashes (offs : Z) (s : Axon) : list (Z * (bytes * Z)) :=
  filter (fun item => db_has item.2.1 (sizes s) = true) (seqn_iter offs (axonseqn s)).

(** *** Reads *)

Definition has (sha256 : bytes) (s : Axon) : bool :=
  bool_decide (db_get sha256 (sizes s) ≠ None).

Definition size (sha256 : bytes) (s : Axon) : option Z :=
  match db_get sha256 (sizes s) with
  | Some byts => Some (from_bytes byts)
  | None => None
  end.

Definition _get (sha256 : bytes) (s : Axon) : list bytes := (scanByPref sha256 (blobs s)).*2.

(** [Axon.get(sha256)]: the chunks it yields, or the exception it raises
    before the first one. *)
Definition get (sha256 : bytes) (s : Axon) : result (list bytes) :=
  if negb (has sha256 s)
  then Raise (NoSuchFile "Axon does not contain the requested file." (ehex sha256))
  else Ok (_get sha256 s).

Definition metrics (s : Axon) : Metrics := axonmetrics s.

Definition wants (sha256s : list bytes) (s : Axon) : list bytes :=
  filter (fun h => has h s = false) sha256s.

(** *** Save and delete *)

(** The loop of [_saveFileGenr], from ordinal [i] with [size] bytes
    written. *)
Fixpoint _saveFileGenr_from (sha256 : bytes) (i size : Z) (g : genr) : M Z :=
  match g with
  | GReturn => ret size
  | GRaise e => raise e
  | GYield byts rest =>
      match to_bytes i 8 with
      | None => raise OverflowError
      | Some ib =>
          let* _ := modify (set_blobs (db_put (sha256 ++ ib) byts)) in
          _saveFileGenr_from sha256 (i + 1) (size + len byts) rest
      end
  end.

Definition _saveFileGenr (sha256 : bytes) (g : genr) : M Z :=
  _saveFileGenr_from sha256 0 0 g.

(** The block of [save] under the hash lock (lines 786-802). *)
Definition save_locked (tick : Z) (sha256 : bytes) (g : genr) : M Z :=
  let* byts := gets (fun s => db_get sha256 (sizes s)) in
  match byts with
  | Some byts => ret (from_bytes byts)
  | None =>
      let* size := _saveFileGenr sha256 g in
      let* _ := _addSyncItem tick (sha256, size) in
      let* _ := modify (set_axonmetrics (fun m => mkMetrics (size_bytes m) (file_count m + 1))) in
      let* _ := modify (set_axonmetrics (fun m => mkMetrics (size_bytes m + size) (file_count m))) in
      match to_bytes size 8 with
      | None => raise OverflowError
      | Some sb =>
          let* _ := modify (set_sizes (db_put sha256 sb)) in
          ret size
      end
  end.

(** [Axon.save(sha256, genr)]; [tick] is the clock reading of
    [_addSyncItem]. *)
Definition save (tick : Z) (sha256 : bytes) (g : genr) : M Z :=
  let* _ := _reqBelowLimit in
  holdHashLock sha256 (save_locked tick sha256 g).

(** The scan is taken over the keys present when the sweep starts. *)
Definition _delBlobByts (sha256 : bytes) : M unit :=
  modify (set_blobs (fun d => foldl (fun d' lkey => db_delete lkey d') d (scanKeysByPref sha256 d))).

(** The block of [del_] under the hash lock (lines 837-849). *)
Definition del_locked (sha256 : bytes) : M bool :=
  let* byts := (fun s => (Ok (db_pop sha256 (sizes s)).1, set_sizes (fun d => (db_pop sha256 d).2) s)) in
  if falsy byts then ret false
  else
    let size := from_bytes (default [] byts) in
    let* _ := modify (set_axonmetrics (fun m => mkMetrics (size_bytes m) (file_count m - 1))) in
    let* _ := modify (set_axonmetrics (fun m => mkMetrics (size_bytes m - size) (file_count m))) in
    let* _ := _delBlobByts sha256 in
    ret true.

Definition del_ (sha256 : bytes) : M bool :=
  holdHashLock sha256 (del_locked sha256).

Fixpoint dels (sha256s : list bytes) : M (list bool) :=
  match sha256s with
  | [] => ret []
  | h :: rest => let* b := del_ h in let* bs := dels rest in ret (b :: bs)
  end.

(** *** The upload manager *)
Module UpLoad.

(** [fd] is the content of the spooled file; [sha256] is the input fed so
    far to the [hashlib.sha256()] object, whose [digest()] is the SHA-256 of
    it. *)
Record t : Type := mk {
  fd : bytes;
  size : Z;
  sha256 : bytes;
  isfini : bool;
}.

(** [UpLoad.anit(axon)] *)
Definition anit : t := mk [] 0 [] false.

Definition _reset (u : t) : t := mk [] 0 [] (isfini u).

Definition write (byts : bytes) (u : t) : t :=
  mk (fd u ++ byts) (size u + len byts) (sha256 u ++ byts) (isfini u).

(** [fd.read(n)]: up to [n] bytes from the position, and what follows. *)
Fixpoint read (n : Z) (l : bytes) : bytes * bytes :=
  match l with
  | [] => ([], [])
  | x :: l' =>
      if n <=? 0 then ([], l)
      else let (a, b) := read (n - 1) l' in (x :: a, b)
  end.

(** The chunks read from a file of content [l], [CHUNK_SIZE] bytes at a
    time until a read is empty; at most [length l] reads yield a chunk. *)
Fixpoint chunks_from (fuel : nat) (l : bytes) : list bytes :=
  match fuel with
  | O => []
  | S fuel' =>
      let (byts, rest) := read CHUNK_SIZE l in
      match byts with
      | [] => []
      | _ :: _ => byts :: chunks_from fuel' rest
      end
  end.

Definition chunks (l : bytes) : list bytes := chunks_from (S (length l)) l.

(** The generator [genr()] of [save], for an upload whose spooled file is
    open, as it is after [anit], [write] and [_reset] (a file closed by
    [_uploadFini] makes [seek(0)] raise before [isfini] is tested, and has no
    state in this record): [isfini] is tested before each read and does not
    change while one coroutine runs. *)
Definition genr (u : t) : genr :=
  if isfini u
  then GRaise IsFini
  else genr_of (chunks (fd u)).

(** [UpLoad.save()]: the pair returned and the upload object after it. *)
Definition save (tick : Z) (u : t) : M ((Z * bytes) * t) :=
  let sha256 := SHA256.digest (sha256 u) in
  let rsize := size u in
  let* present := gets (has sha256) in
  if (present : bool) then ret ((rsize, sha256), _reset u)
  else
    let* _ := axon.save tick sha256 (genr u) in
    ret ((rsize, sha256), _reset u).

End UpLoad.

(** [Axon.put(byts)]: the upload object is new and is closed when the
    [async with] block is left. *)
Definition put (tick : Z) (byts : bytes) : M (Z * bytes) :=
  let fd := UpLoad.write byts UpLoad.anit in
  let* r := UpLoad.save tick fd in
  ret r.1.

Fixpoint puts (ticks : list Z) (files : list bytes) : M (list (Z * bytes)) :=
  match ticks, files with
  | tick :: ticks', b :: files' =>
      let* r := put tick b in let* rs := puts ticks' files' in ret (r :: rs)
  | _, _ => ret []
  end.

(** *** The URL fetcher *)

(** A value of the dictionary that [wget] returns. *)
Inductive pyval : Type :=
| VBool (b : bool)
| VInt (n : Z)
| VStr (t : string)
| VDict (d : gmap string string).

(** What the HTTP client does with the request of [wget]: [sess.request]
    raises, or it gives a response whose body [iter_chunked] yields, the
    stream ending normally or with an exception. *)
Inductive exchange : Type :=
| RequestRaises (e : exc)
| Response (url : string) (status : Z) (headers : gmap string string) (content : genr).

(** Modelled from the spec: [s_common.excinfo] and the exception classes of
    [synapse.exc] are not under src/. ['err'] is the class name and
    ['errmsg'] the text of the exception. *)
Definition exc_err (e : exc) : string :=
  match e with
  | HitLimit _ => "HitLimit"
  | NoSuchFile _ _ => "NoSuchFile"
  | IsFini => "IsFini"
  | OverflowError => "OverflowError"
  | CancelledError => "CancelledError"
  | OtherExc err _ => err
  end.

Definition exc_errmsg (e : exc) : string :=
  match e with
  | HitLimit mesg => "HitLimit: mesg='" +:+ mesg +:+ "'"
  | NoSuchFile mesg sha256 => "NoSuchFile: mesg='" +:+ mesg +:+ "' sha256='" +:+ sha256 +:+ "'"
  | IsFini => "IsFini: "
  | OverflowError => "int too big to convert"
  | CancelledError => EmptyString
  | OtherExc _ errmsg => errmsg
  end.

Section Wget.

(** The other digests of [hashlib] that [s_hashset.HashSet] computes. *)
Variables md5 sha1 sha512 : bytes → bytes.

(** Modelled from the spec: [s_hashset.HashSet] is not under src/. "feed a
    multi-hash accumulator (MD5, SHA-1, SHA-256, SHA-512)"; [digests()]
    gives each name with the digest of the bytes fed so far. *)
Definition hashset_digests (fed : bytes) : list (string * bytes) :=
  [("md5", md5 fed); ("sha1", sha1 fed); ("sha256", SHA256.digest fed); ("sha512", sha512 fed)].

(** The [async for] loop of [wget] (lines 948-950) over the body stream:
    the upload object and the bytes fed to the hash set, or the exception
    of the stream. *)
Fixpoint wget_feed (content : genr) (upload : UpLoad.t) (fed : bytes) : UpLoad.t * bytes + exc :=
  match content with
  | GReturn => inl (upload, fed)
  | GRaise e => inr e
  | GYield byts rest => wget_feed rest (UpLoad.write byts upload) (fed ++ byts)
  end.

(** The two [except] clauses of [wget] (lines 959-971). *)
Definition wget_except (e : exc) : M (gmap string pyval) :=
  match e with
  | CancelledError => raise e
  | _ =>
      let mesg := exc_errmsg e in
      let mesg := if bool_decide (mesg = EmptyString) then exc_err e else mesg in
      ret (<["mesg" := VStr mesg]> {["ok" := VBool false]})
  end.

(** [Axon.wget(url, ...)], given what the HTTP exchange does. *)
Definition wget (tick : Z) (http : exchange) : M (gmap string pyval) :=
  match http with
  | RequestRaises e => wget_except e
  | Response url status headers content =>
      let info : gmap string pyval :=
        <["headers" := VDict headers]>
          (<["code" := VInt status]> (<["url" := VStr url]> {["ok" := VBool true]})) in
      match wget_feed content UpLoad.anit [] with
      | inr e => wget_except e
      | inl (upload, fed) =>
          fun s =>
            match UpLoad.save tick upload s with
            | (Ok r, s') =>
                let hashes : gmap string string :=
                  foldl (fun d nh => <[nh.1 := ehex nh.2]> d) ∅ (hashset_digests fed) in
                (Ok (<["hashes" := VDict hashes]> (<["size" := VInt r.1.1]> info)), s')
            | (Raise e, s') => wget_except e s'
            | (Wait, s') => (Wait, s')
            end
      end
  end.

End Wget.

(** *** The HTTP handlers *)

(** What a handler does to its response, call by call. Modelled from the
    spec: [set_header], [set_status], [write], [flush], [sendRestRetn] and
    [sendRestErr] ([synapse.lib.httpapi.Handler], tornado) are not under
    src/; "JSON responses wrap a uniform envelope [{status, result}] or
    [{status, code, mesg}]". *)
Inductive restval : Type :=
| RBool (b : bool)
| RDict (d : gmap string pyval).

Inductive action : Type :=
| SetHeader (name value : string)
| SetStatus (code : Z)
| WriteBody (byts : bytes)
| Flush
| SendRestRetn (result : restval)
| SendRestErr (code mesg : string).

(** The exception of [s_common.uhex] on a text that is no hexadecimal
    text ([binascii.Error]). *)
Definition uhex_exc (t : string) : exc :=
  OtherExc "Error"
    (if Nat.odd (String.length t) then "Odd-length string" else "Non-hexadecimal digit found").

Definition AssertionError : exc := OtherExc "AssertionError" EmptyString.

(** The pattern [([0-9a-fA-F]{64}$)] of the routes that [_initAxonHttpApi]
    adds for [AxonHttpHasV1] and [AxonHttpBySha256V1]: the texts the
    handlers are called with. *)
Definition route_hexdigit (c : Ascii.ascii) : bool :=
  let n := Z.of_N (Ascii.N_of_ascii c) in
  ((48 <=? n) && (n <=? 57)) || ((97 <=? n) && (n <=? 102)) || ((65 <=? n) && (n <=? 70)).

Definition route_sha256 (t : string) : bool :=
  Nat.eqb (String.length t) 64 && forallb route_hexdigit (list_ascii_of_string t).

Module AxonHttpBySha256V1.

(** [AxonHttpBySha256V1.get(sha256)]; [allowed] is the answer of
    [self.allowed(('axon', 'get'))]. *)
Definition get (allowed : bool) (sha256 : string) : M (list action) :=
  if negb allowed then ret []
  else
    match uhex sha256 with
    | None => raise (uhex_exc sha256)
    | Some sha256b =>
        let headers := [SetHeader "Content-Type" "application/octet-stream";
                        SetHeader "Content-Disposition" "attachment"] in
        let* r := gets (axon.get sha256b) in
        match r with
        | Ok chunks => ret (headers ++ concat (map (fun byts => [WriteBody byts; Flush]) chunks))
        | Raise (NoSuchFile mesg _) => ret (headers ++ [SetStatus 404; SendRestErr "NoSuchFile" mesg])
        | Raise e => raise e
        | Wait => fun s => (Wait, s)
        end
    end.

(** [AxonHttpBySha256V1.delete(sha256)]; [allowed] is the answer of
    [self.allowed(('axon', 'del'))]. *)
Definition delete (allowed : bool) (sha256 : string) : M (list action) :=
  if negb allowed then ret []
  else
    match uhex sha256 with
    | None => raise (uhex_exc sha256)
    | Some sha256b =>
        let* present := gets (has sha256b) in
        if negb present
        then ret [SetStatus 404; SendRestErr "NoSuchFile" ("SHA-256 not found: " +:+ sha256)]
        else
          let* resp := del_ sha256b in
          ret [SendRestRetn (RBool resp)]
    end.

End AxonHttpBySha256V1.

Module AxonHttpUploadV1.

(** The handler object: the upload object of [prepare] and the bytes fed so
    far to its hash set. *)
Record t : Type := mk {
  upfd : UpLoad.t;
  hashset : bytes;
}.

(** Lines 41-42 of [prepare]. *)
Definition prepare : t := mk UpLoad.anit [].

Definition data_received (chunk : option bytes) (h : t) : t :=
  match chunk with
  | Some byts => mk (UpLoad.write byts (upfd h)) (hashset h ++ byts)
  | None => h
  end.

Section Save.

(** The other digests of the hash set, and its [size] attribute as a
    function of the bytes fed. *)
Variables md5 sha1 sha512 : bytes → bytes.
Variable hashset_size : bytes → Z.

(** [AxonHttpUploadV1._save()]: what it sends, and the handler after it. *)
Definition _save (tick : Z) (h : t) : M (list action * t) :=
  let* r := UpLoad.save tick (upfd h) in
  let size := r.1.1 in
  let sha256b := r.1.2 in
  let fhashes : gmap string string :=
    foldl (fun d nh => <[nh.1 := ehex nh.2]> d) ∅ (hashset_digests md5 sha1 sha512 (hashset h)) in
  match fhashes !! "sha256" with
  | None => raise (OtherExc "TypeError" "argument should be bytes, buffer or ASCII string, not 'NoneType'")
  | Some text =>
      match uhex text with
      | None => raise (uhex_exc text)
      | Some byts =>
          if negb (bool_decide (sha256b = byts)) then raise AssertionError
          else if negb (bool_decide (size = hashset_size (hashset h))) then raise AssertionError
          else
            let fhashes' : gmap string pyval := <["size" := VInt size]> (VStr <$> fhashes) in
            ret ([SendRestRetn (RDict fhashes')], mk r.2 (hashset h))
      end
  end.

End Save.

End AxonHttpUploadV1.

End axon.

(** ** States and runs the properties speak of *)

Import axon.

(** The bytes a list of chunks adds up to. *)
Definition total_len (cs : list bytes) : Z := len (concat cs).

(** The chunks a generator yields before it ends. *)
Fixpoint genr_chunks (g : genr) : list bytes :=
  match g with
  | GYield byts rest => byts :: genr_chunks rest
  | _ => []
  end.

(** The exception a generator ends with, if any. *)
Fixpoint genr_exc (g : genr) : option exc :=
  match g with
  | GReturn => None
  | GRaise e => Some e
  | GYield _ rest => genr_exc rest
  end.

(** The chunk table after the chunks [cs] are written for [sha256] from
    ordinal [i] on. *)
Fixpoint write_chunks (sha256 : bytes) (i : Z) (cs : list bytes) (d : db) : db :=
  match cs with
  | [] => d
  | c :: cs' => write_chunks sha256 (i + 1) cs' (db_put (sha256 ++ be_bytes 8 i) c d)
  end.

(** The chunk entries of a blob, in key order. *)
Fixpoint chunk_entries (sha256 : bytes) (i : Z) (cs : list bytes) : db :=
  match cs with
  | [] => []
  | c :: cs' => (sha256 ++ be_bytes 8 i, c) :: chunk_entries sha256 (i + 1) cs'
  end.

(** No coroutine is inside [holdHashLock]: every entry of the registry has
    a free lock, and a count of at least one (an entry is popped at zero). *)
Definition registry_quiet (reg : gmap bytes lockitem) : Prop :=
  ∀ h n l, reg !! h = Some (n, l) → 1 ≤ n ∧ l = false.

(** A well-formed state: both tables in key order, every size-index value
    an 8-byte size, the registry quiet. *)
Definition wf (s : Axon) : Prop :=
  db_ok (sizes s) ∧ db_ok (blobs s) ∧
  (∀ k v, db_get k (sizes s) = Some v → length v = 8%nat) ∧
  registry_quiet (hashlocks s).

(** The metrics invariant. *)
Definition consistent (s : Axon) : Prop :=
  file_count (axonmetrics s) = db_count (sizes s) ∧
  size_bytes (axonmetrics s) = db_total (sizes s).

(** A configured limit has been reached. *)
Definition at_limit (s : Axon) : bool :=
  reached (maxbytes s) (size_bytes (axonmetrics s)) ||
  reached (maxcount s) (file_count (axonmetrics s)).

(** Every chunk key of [d] with the prefix [D] is an ordinal of a chunk of
    [cs], with its bytes. *)
Definition chunks_only (d : db) (D : bytes) (cs : list bytes) : Prop :=
  ∀ k v, db_get k d = Some v → D `prefix_of` k →
    ∃ j, cs !! j = Some v ∧ k = D ++ be_bytes 8 (Z.of_nat j).

(** Every chunk of [cs] is in [d] at its ordinal under [D]. *)
Definition chunks_all (d : db) (D : bytes) (cs : list bytes) : Prop :=
  ∀ j c, cs !! j = Some c → db_get (D ++ be_bytes 8 (Z.of_nat j)) d = Some c.

(** What the store holds under the digest of [B] is of [B]: the chunk
    table has under it only chunks of [B], and a size-index entry of the
    digest comes with the size and all the chunks of [B]. No other content
    with the digest of [B] has been stored. *)
Definition holds_only (s : Axon) (B : bytes) : Prop :=
  chunks_only (blobs s) (SHA256.digest B) (UpLoad.chunks B) ∧
  (∀ v, db_get (SHA256.digest B) (sizes s) = Some v →
     v = be_bytes 8 (len B) ∧ len B < 2 ^ 64 ∧
     chunks_all (blobs s) (SHA256.digest B) (UpLoad.chunks B)).

(** Every key of the size-index is 32 bytes long, as a digest is. *)
Definition digests_ok (s : Axon) : Prop :=
  ∀ k v, db_get k (sizes s) = Some v → length k = 32%nat.

(** A call of the storage interface, and the state after a list of calls
    (whatever each call returns or raises). *)
Inductive op : Type :=
| Put (tick : Z) (byts : bytes)
| Del (sha256 : bytes).

Definition run_op (o : op) (s : Axon) : Axon :=
  match o with
  | Put tick byts => (put tick byts s).2
  | Del sha256 => (del_ sha256 s).2
  end.

Fixpoint run (ops : list op) (s : Axon) : Axon :=
  match ops with
  | [] => s
  | o :: ops' => run ops' (run_op o s)
  end.

(** The state after a new blob of chunks [cs] is saved under [sha256]. *)
Definition saved (tick : Z) (sha256 : bytes) (cs : list bytes) (s : Axon) : Axon :=
  mkAxon (db_put sha256 (be_bytes 8 (total_len cs)) (sizes s))
         (write_chunks sha256 0 cs (blobs s))
         (seqn_add (sha256, total_len cs) (axonseqn s))
         (hist_add tick (sha256, total_len cs) (axonhist s))
         (mkMetrics (size_bytes (axonmetrics s) + total_len cs)
                    (file_count (axonmetrics s) + 1))
         (hashlocks s) (maxbytes s) (maxcount s).

(** The chunk table after the sweep of [_delBlobByts]. *)
Definition sweep (sha256 : bytes) (d : db) : db :=
  foldl (fun d' lkey => db_delete lkey d') d (scanKeysByPref sha256 d).

(** The state after the blob [sha256], of size-index value [v], is
    deleted. *)
Definition deleted (sha256 v : bytes) (s : Axon) : Axon :=
  mkAxon (db_delete sha256 (sizes s)) (sweep sha256 (blobs s))
         (axonseqn s) (axonhist s)
         (mkMetrics (size_bytes (axonmetrics s) - from_bytes v)
                    (file_count (axonmetrics s) - 1))
         (hashlocks s) (maxbytes s) (maxcount s).

(** The registry after a holder of [h] left by an exception: the lock is
    free, the count is one more than before. *)
Definition hashlocks_leak (h : bytes) (reg : gmap bytes lockitem) : gmap bytes lockitem :=
  <[h := ((default (0, false) (reg !! h)).1 + 1, false)]> reg.

(** A coroutine that neither reads nor writes the registry. *)
Definition lock_independent {A} (body : M A) : Prop :=
  ∀ f s, body (set_hashlocks f s) = ((body s).1, set_hashlocks f (body s).2).

(** A call of the storage interface with the raw [save] among them, and
    the state after a list of such calls. *)
Inductive call : Type :=
| CSave (tick : Z) (sha256 : bytes) (g : genr)
| CPut (tick : Z) (byts : bytes)
| CDel (sha256 : bytes).

Definition run_call (c : call) (s : Axon) : Axon :=
  match c with
  | CSave tick sha256 g => (save tick sha256 g s).2
  | CPut tick byts => (put tick byts s).2
  | CDel sha256 => (del_ sha256 s).2
  end.

Fixpoint run_calls (cs : list call) (s : Axon) : Axon :=
  match cs with
  | [] => s
  | c :: cs' => run_calls cs' (run_call c s)
  end.

(** The bytes a call brings to the store. *)
Definition call_bytes (c : call) : Z :=
  match c with
  | CSave _ _ g => total_len (genr_chunks g)
  | CPut _ byts => len byts
  | CDel _ => 0
  end.

(** The digest a call works under. *)
Definition call_digest (c : call) : bytes :=
  match c with
  | CSave _ sha256 _ => sha256
  | CPut _ byts => SHA256.digest byts
  | CDel sha256 => sha256
  end.

(** What the read operations tell of the digest [D] is the same in [s']
    as in [s]. *)
Definition same_blob (D : bytes) (s s' : Axon) : Prop :=
  has D s' = has D s ∧ size D s' = size D s ∧ get D s' = get D s.

(** The state after a [save] whose chunks add up to a size that does not
    fit in 8 bytes: [to_bytes] raises after the chunks, the history, the
    sequence and the counters were written. *)
Definition overflowed (tick : Z) (sha256 : bytes) (cs : list bytes) (s : Axon) : Axon :=
  mkAxon (sizes s)
         (write_chunks sha256 0 cs (blobs s))
         (seqn_add (sha256, total_len cs) (axonseqn s))
         (hist_add tick (sha256, total_len cs) (axonhist s))
         (mkMetrics (size_bytes (axonmetrics s) + total_len cs)
                    (file_count (axonmetrics s) + 1))
         (hashlocks s) (maxbytes s) (maxcount s).

(** The steps of the holders of one digest, as the coroutines of
    [holdHashLock] interleave: a holder enters (lines 561-565), takes the
    lock when it is free, and leaves by a normal end of its block, by an
    exception of its block, or by being cancelled while it waits for the
    lock (nothing of the manager runs after a cancelled [acquire]). *)
Inductive hold_event : Type :=
| Enter
| Acquire
| ExitReturn
| ExitRaise
| CancelWait.

Definition hold_step (h : bytes) (reg : gmap bytes lockitem) (ev : hold_event)
  : option (gmap bytes lockitem) :=
  match ev with
  | Enter => Some (hashlocks_enter h reg)
  | Acquire => hashlocks_acquire h reg
  | ExitReturn => Some (hashlocks_leave h (hashlocks_release h reg))
  | ExitRaise => Some (hashlocks_release h reg)
  | CancelWait => Some reg
  end.

Fixpoint hold_trace (h : bytes) (evs : list hold_event) (reg : gmap bytes lockitem)
  : option (gmap bytes lockitem) :=
  match evs with
  | [] => Some reg
  | ev :: evs' =>
      match hold_step h reg ev with
      | Some reg' => hold_trace h evs' reg'
      | None => None
      end
  end.

(** ** Sample contents and states *)

Definition abc : bytes := list_byte_of_string "abc".

Definition xyz : bytes := list_byte_of_string "xyz".

(** A store at its [max:count] limit: one blob, [b"abc"], and room for
    one. *)
Definition full_store : Axon := (put 0 abc (anit None (Some 1))).2.

(** A store with a gap in its sequence: [b"abc"] and [b""] are stored,
    then [b"abc"] is deleted. *)
Definition gap_store : Axon :=
  (del_ (SHA256.digest abc) (put 1 [] (put 0 abc (anit None None)).2).2).2.


(** The store that holds the empty blob only. *)
Definition empty_blob_store : Axon := (put 0 [] (anit None None)).2.

(** A hasher stand-in for the runs in which the other digests of the hash
    set are not reached. *)
Definition nohash : bytes → bytes := fun _ => [].

(** * Properties *)

(** ** Bytes and integer codecs *)

Lemma byte_val_range (b : byte) : 0 ≤ byte_val b < 256.
Proof.
  unfold byte_val. pose proof (Byte.to_N_bounded b). lia.
Qed.

Lemma byte_of_val (b : byte) : byte_of (byte_val b) = b.
Proof.
  unfold byte_of, byte_val. rewrite N2Z.id, Byte.of_to_N. reflexivity.
Qed.

Lemma byte_val_of (z : Z) : 0 ≤ z < 256 → byte_val (byte_of z) = z.
Proof.
  intros Hz. unfold byte_of, byte_val.
  destruct (Byte.of_N (Z.to_N z)) as [b|] eqn:E.
  - apply Byte.to_of_N in E. lia.
  - apply Byte.of_N_None_iff in E. lia.
Qed.

Lemma byte_val_inj (a b : byte) : byte_val a = byte_val b → a = b.
Proof.
  intros H. rewrite <- (byte_of_val a), <- (byte_of_val b). congruence.
Qed.

Lemma length_be_bytes (k : nat) (n : Z) : length (be_bytes k n) = k.
Proof.
  revert n. induction k as [|k IH]; intros n; simpl; [reflexivity|].
  rewrite length_app, IH. simpl. lia.
Qed.

Lemma from_bytes_snoc (a : bytes) (x : byte) :
  from_bytes (a ++ [x]) = from_bytes a * 256 + byte_val x.
Proof.
  unfold from_bytes. rewrite fold_left_app. reflexivity.
Qed.

Lemma from_be_bytes (k : nat) (n : Z) :
  0 ≤ n → from_bytes (be_bytes k n) = n mod 256 ^ Z.of_nat k.
Proof.
  revert n. induction k as [|k IH]; intros n Hn.
  - simpl. rewrite Z.mod_1_r. reflexivity.
  - cbn [be_bytes]. rewrite from_bytes_snoc, IH by (apply Z.div_pos; lia).
    rewrite byte_val_of by (apply Z.mod_pos_bound; lia).
    rewrite Nat2Z.inj_succ, Z.pow_succ_r by lia.
    assert (0 < 256 ^ Z.of_nat k) by (apply Z.pow_pos_nonneg; lia).
    rewrite Z.rem_mul_r by lia. lia.
Qed.

Lemma to_bytes_Some (n : Z) (k : nat) (b : bytes) :
  to_bytes n k = Some b →
  b = be_bytes k n ∧ 0 ≤ n < 256 ^ Z.of_nat k ∧ from_bytes b = n ∧ length b = k.
Proof.
  unfold to_bytes. intros H.
  destruct (0 <=? n) eqn:E1; destruct (n <? 256 ^ Z.of_nat k) eqn:E2; simpl in H; try discriminate.
  injection H as <-. apply Z.leb_le in E1. apply Z.ltb_lt in E2.
  repeat split; try lia.
  - rewrite from_be_bytes by lia. apply Z.mod_small. lia.
  - apply length_be_bytes.
Qed.

Lemma to_bytes_in_range (n : Z) (k : nat) :
  0 ≤ n < 256 ^ Z.of_nat k → to_bytes n k = Some (be_bytes k n).
Proof.
  intros H. unfold to_bytes.
  destruct (Z.leb_spec 0 n), (Z.ltb_spec n (256 ^ Z.of_nat k)); simpl; try lia. reflexivity.
Qed.

Lemma be_bytes_inj (k : nat) (n m : Z) :
  0 ≤ n < 256 ^ Z.of_nat k → 0 ≤ m < 256 ^ Z.of_nat k →
  be_bytes k n = be_bytes k m → n = m.
Proof.
  intros Hn Hm E.
  rewrite <- (Z.mod_small n (256 ^ Z.of_nat k)), <- (Z.mod_small m (256 ^ Z.of_nat k)) by lia.
  rewrite <- !from_be_bytes by lia. congruence.
Qed.

(** *** The key order *)

Lemma bytes_cmp_refl (a : bytes) : bytes_cmp a a = Eq.
Proof.
  induction a as [|x a IH]; simpl; [reflexivity|].
  rewrite Z.compare_refl. exact IH.
Qed.

Lemma bytes_cmp_eq (a b : bytes) : bytes_cmp a b = Eq → a = b.
Proof.
  revert b. induction a as [|x a IH]; intros [|y b]; simpl; try discriminate; [reflexivity|].
  destruct (Z.compare_spec (byte_val x) (byte_val y)) as [E| |]; try discriminate.
  intros H. apply byte_val_inj in E. f_equal; auto.
Qed.

Lemma bytes_cmp_antisym (a b : bytes) : bytes_cmp b a = CompOpp (bytes_cmp a b).
Proof.
  revert b. induction a as [|x a IH]; intros [|y b]; simpl; try reflexivity.
  rewrite (Z.compare_antisym (byte_val x) (byte_val y)).
  destruct (byte_val x ?= byte_val y); simpl; auto.
Qed.

Lemma bytes_lt_irrefl (a : bytes) : ¬ bytes_lt a a.
Proof.
  unfold bytes_lt. rewrite bytes_cmp_refl. discriminate.
Qed.

Lemma bytes_lt_trans (a b c : bytes) : bytes_lt a b → bytes_lt b c → bytes_lt a c.
Proof.
  unfold bytes_lt. revert b c.
  induction a as [|x a IH]; intros [|y b] [|z c]; simpl; try discriminate; try reflexivity.
  destruct (Z.compare_spec (byte_val x) (byte_val y)) as [E1|L1|G1]; try discriminate;
    destruct (Z.compare_spec (byte_val y) (byte_val z)) as [E2|L2|G2]; try discriminate;
    intros H1 H2.
  - rewrite E1, E2, Z.compare_refl. eauto.
  - rewrite E1. apply Z.compare_lt_iff in L2. rewrite L2. reflexivity.
  - rewrite <- E2. apply Z.compare_lt_iff in L1. rewrite L1. reflexivity.
  - assert (L : byte_val x < byte_val z) by lia.
    apply Z.compare_lt_iff in L. rewrite L. reflexivity.
Qed.

Lemma bytes_lt_asym (a b : bytes) : bytes_lt a b → ¬ bytes_lt b a.
Proof.
  intros H1 H2. exact (bytes_lt_irrefl a (bytes_lt_trans _ _ _ H1 H2)).
Qed.

Lemma bytes_cmp_Gt (a b : bytes) : bytes_cmp a b = Gt → bytes_lt b a.
Proof.
  intros H. unfold bytes_lt. rewrite bytes_cmp_antisym, H. reflexivity.
Qed.

Lemma bytes_cmp_app (p a b : bytes) : bytes_cmp (p ++ a) (p ++ b) = bytes_cmp a b.
Proof.
  induction p as [|x p IH]; simpl; [reflexivity|].
  rewrite Z.compare_refl. exact IH.
Qed.

Lemma bytes_cmp_snoc (a b : bytes) (x y : byte) :
  length a = length b →
  bytes_cmp (a ++ [x]) (b ++ [y]) =
    match bytes_cmp a b with
    | Eq => Z.compare (byte_val x) (byte_val y)
    | c => c
    end.
Proof.
  revert b. induction a as [|u a IH]; intros [|v b] Hl; simpl in Hl; try discriminate.
  - simpl. destruct (byte_val x ?= byte_val y); reflexivity.
  - simpl. destruct (byte_val u ?= byte_val v); try reflexivity.
    apply IH. lia.
Qed.

(** Fixed-width big-endian encodings sort as the numbers do. *)
Lemma be_bytes_lt (k : nat) (n m : Z) :
  0 ≤ n → n < m → m < 256 ^ Z.of_nat k →
  bytes_lt (be_bytes k n) (be_bytes k m).
Proof.
  unfold bytes_lt. revert n m. induction k as [|k IH]; intros n m Hn Hnm Hm.
  - simpl in Hm. lia.
  - cbn [be_bytes]. rewrite bytes_cmp_snoc by (rewrite !length_be_bytes; reflexivity).
    rewrite Nat2Z.inj_succ, Z.pow_succ_r in Hm by lia.
    rewrite !byte_val_of by (apply Z.mod_pos_bound; lia).
    assert (Hd : n / 256 ≤ m / 256) by (apply Z.div_le_mono; lia).
    pose proof (Z.div_mod n 256 ltac:(lia)) as En.
    pose proof (Z.div_mod m 256 ltac:(lia)) as Em.
    pose proof (Z.mod_pos_bound n 256 ltac:(lia)).
    pose proof (Z.mod_pos_bound m 256 ltac:(lia)).
    destruct (Z.eq_dec (n / 256) (m / 256)) as [E|NE].
    + rewrite E, bytes_cmp_refl. apply Z.compare_lt_iff. lia.
    + rewrite IH; [reflexivity| | |].
      * apply Z.div_pos; lia.
      * lia.
      * apply Z.div_lt_upper_bound; lia.
Qed.

#[global] Arguments be_bytes : simpl never.

(** ** The key-value tables *)

Lemma db_get_put_eq (k v : bytes) (d : db) : db_get k (db_put k v d) = Some v.
Proof.
  induction d as [|[k' v'] d IH]; simpl.
  - rewrite bool_decide_true; reflexivity.
  - destruct (bytes_cmp k k') eqn:E; simpl.
    + rewrite bool_decide_true; reflexivity.
    + rewrite bool_decide_true; reflexivity.
    + rewrite bool_decide_false; [exact IH|].
      intros ->. rewrite bytes_cmp_refl in E. discriminate.
Qed.

Lemma db_get_put_ne (k k0 v : bytes) (d : db) :
  k0 ≠ k → db_get k0 (db_put k v d) = db_get k0 d.
Proof.
  intros Hne. induction d as [|[k' v'] d IH]; simpl.
  - rewrite bool_decide_false; auto.
  - destruct (bytes_cmp k k') eqn:E; simpl.
    + apply bytes_cmp_eq in E. subst k'.
      rewrite !bool_decide_false by auto. reflexivity.
    + rewrite (bool_decide_false (k0 = k)) by auto. reflexivity.
    + rewrite IH. reflexivity.
Qed.

Lemma db_get_delete_eq (k : bytes) (d : db) : db_get k (db_delete k d) = None.
Proof.
  unfold db_delete. induction d as [|[k' v'] d IH]; [reflexivity|].
  rewrite filter_cons. simpl. case_decide as E; simpl; [|exact IH].
  rewrite bool_decide_false by auto. exact IH.
Qed.

Lemma db_get_delete_ne (k k0 : bytes) (d : db) :
  k0 ≠ k → db_get k0 (db_delete k d) = db_get k0 d.
Proof.
  intros Hne. unfold db_delete. induction d as [|[k' v'] d IH]; [reflexivity|].
  rewrite filter_cons. simpl. case_decide as E; simpl.
  - rewrite IH. reflexivity.
  - subst k'. rewrite bool_decide_false by auto. exact IH.
Qed.

Lemma db_get_None_notin (k : bytes) (d : db) :
  db_get k d = None ↔ ∀ v, (k, v) ∉ d.
Proof.
  induction d as [|[k' v'] d IH]; simpl.
  - split; [intros _ v H; inversion H | reflexivity].
  - case_bool_decide as E.
    + subst k'. split; [discriminate|]. intros H. exfalso. apply (H v'). left.
    + rewrite IH. split.
      * intros H v Hin. apply elem_of_cons in Hin as [Heq|Hin]; [congruence|]. exact (H v Hin).
      * intros H v Hin. apply (H v). right. exact Hin.
Qed.

Lemma db_get_Some_elem (k v : bytes) (d : db) : db_get k d = Some v → (k, v) ∈ d.
Proof.
  induction d as [|[k' v'] d IH]; simpl; [discriminate|].
  case_bool_decide as E.
  - intros [= ->]. subst. left.
  - intros H. right. auto.
Qed.

Lemma db_delete_absent (k : bytes) (d : db) : db_get k d = None → db_delete k d = d.
Proof.
  unfold db_delete. induction d as [|[k' v'] d IH]; simpl; [reflexivity|].
  case_bool_decide as E; [discriminate|]. intros H.
  rewrite filter_cons. simpl. rewrite decide_True by auto. f_equal. auto.
Qed.

Lemma elem_of_db_put (x : bytes * bytes) (k v : bytes) (d : db) :
  x ∈ db_put k v d → x = (k, v) ∨ x ∈ d.
Proof.
  induction d as [|[k' v'] d IH]; simpl.
  - intros H. apply list_elem_of_singleton in H. auto.
  - destruct (bytes_cmp k k'); rewrite !elem_of_cons; intuition.
Qed.

Lemma db_ok_nil : db_ok [].
Proof. constructor. Qed.

Lemma db_ok_put (k v : bytes) (d : db) : db_ok d → db_ok (db_put k v d).
Proof.
  unfold db_ok. induction d as [|[k' v'] d IH]; simpl; intros Hd.
  - repeat constructor.
  - apply StronglySorted_inv in Hd as [Hd Hall].
    destruct (bytes_cmp k k') eqn:E.
    + apply bytes_cmp_eq in E. subst k'. constructor; assumption.
    + constructor; [constructor; assumption|].
      constructor; [exact E|].
      eapply Forall_impl; [exact Hall|]. intros y Hy.
      unfold key_lt in *. simpl in *. eapply bytes_lt_trans; eassumption.
    + constructor; [auto|].
      apply Forall_forall. intros y Hy.
      apply elem_of_db_put in Hy as [->|Hy].
      * apply bytes_cmp_Gt in E. exact E.
      * rewrite Forall_forall in Hall. auto.
Qed.

Lemma StronglySorted_sublist {A} (R : relation A) (l1 l2 : list A) :
  l1 `sublist_of` l2 → StronglySorted R l2 → StronglySorted R l1.
Proof.
  induction 1 as [|x l1 l2 Hs IH|x l1 l2 Hs IH]; intros Hl.
  - constructor.
  - apply StronglySorted_inv in Hl as [Hl Hall]. constructor; [auto|].
    apply Forall_forall. intros y Hy. rewrite Forall_forall in Hall.
    apply Hall. eapply elem_of_sublist; eassumption.
  - apply StronglySorted_inv in Hl as [Hl _]. auto.
Qed.

Lemma db_ok_sublist (d d' : db) : d' `sublist_of` d → db_ok d → db_ok d'.
Proof.
  unfold db_ok. intros Hs Hd. eapply StronglySorted_sublist; eauto.
Qed.

Lemma db_ok_delete (k : bytes) (d : db) : db_ok d → db_ok (db_delete k d).
Proof.
  apply db_ok_sublist. apply sublist_filter.
Qed.

Lemma db_ok_head_notin (k v : bytes) (d : db) :
  db_ok ((k, v) :: d) → db_get k d = None.
Proof.
  intros Hd. apply StronglySorted_inv in Hd as [_ Hall].
  apply db_get_None_notin. intros v' Hin.
  rewrite Forall_forall in Hall. apply Hall in Hin.
  exact (bytes_lt_irrefl _ Hin).
Qed.

Lemma db_get_elem (k v : bytes) (d : db) :
  db_ok d → (k, v) ∈ d ↔ db_get k d = Some v.
Proof.
  intros Hd. split; [|apply db_get_Some_elem].
  induction d as [|[k' v'] d IH]; [intros H; inversion H|].
  pose proof (db_ok_head_notin _ _ _ Hd) as Hn.
  apply StronglySorted_inv in Hd as [Hd _].
  simpl. intros Hin. apply elem_of_cons in Hin as [Heq|Hin].
  - injection Heq as -> ->. rewrite bool_decide_true; reflexivity.
  - case_bool_decide as E; [|auto].
    subst k'. rewrite db_get_None_notin in Hn. exfalso. exact (Hn _ Hin).
Qed.

Lemma db_ok_NoDup (d : db) : db_ok d → NoDup d.
Proof.
  unfold db_ok. induction d as [|x d IH]; intros Hd; [constructor|].
  apply StronglySorted_inv in Hd as [Hd Hall]. constructor; [|auto].
  intros Hin. rewrite Forall_forall in Hall. apply Hall in Hin.
  exact (bytes_lt_irrefl _ Hin).
Qed.

(** Counting entries and adding up sizes. *)

Lemma db_count_put_new (k v : bytes) (d : db) :
  db_get k d = None → db_count (db_put k v d) = db_count d + 1.
Proof.
  unfold db_count. induction d as [|[k' v'] d IH]; simpl; [lia|].
  case_bool_decide as E; [discriminate|]. intros H.
  destruct (bytes_cmp k k') eqn:C; simpl.
  - apply bytes_cmp_eq in C. contradiction.
  - lia.
  - specialize (IH H). lia.
Qed.

Lemma db_total_put_new (k v : bytes) (d : db) :
  db_get k d = None → db_total (db_put k v d) = db_total d + from_bytes v.
Proof.
  unfold db_total. induction d as [|[k' v'] d IH]; simpl; [lia|].
  case_bool_decide as E; [discriminate|]. intros H.
  destruct (bytes_cmp k k') eqn:C; simpl.
  - apply bytes_cmp_eq in C. contradiction.
  - lia.
  - specialize (IH H). lia.
Qed.

Lemma db_count_delete (k v : bytes) (d : db) :
  db_ok d → db_get k d = Some v → db_count (db_delete k d) = db_count d - 1.
Proof.
  unfold db_count. induction d as [|[k' v'] d IH]; simpl; [discriminate|].
  intros Hd. pose proof (db_ok_head_notin _ _ _ Hd) as Hn.
  apply StronglySorted_inv in Hd as [Hd _].
  unfold db_delete. rewrite filter_cons. simpl.
  case_bool_decide as E.
  - subst k'. intros _. rewrite decide_False by auto.
    fold (db_delete k d). rewrite db_delete_absent by assumption. lia.
  - intros H. rewrite decide_True by auto. simpl.
    specialize (IH Hd H). unfold db_delete in IH. lia.
Qed.

Lemma db_total_delete (k v : bytes) (d : db) :
  db_ok d → db_get k d = Some v → db_total (db_delete k d) = db_total d - from_bytes v.
Proof.
  unfold db_total. induction d as [|[k' v'] d IH]; simpl; [discriminate|].
  intros Hd. pose proof (db_ok_head_notin _ _ _ Hd) as Hn.
  apply StronglySorted_inv in Hd as [Hd _].
  unfold db_delete. rewrite filter_cons. simpl.
  case_bool_decide as E.
  - subst k'. intros [= ->]. rewrite decide_False by auto.
    fold (db_delete k d). rewrite db_delete_absent by assumption. lia.
  - intros H. rewrite decide_True by auto. simpl.
    specialize (IH Hd H). unfold db_delete in IH. lia.
Qed.

(** ** Chunking *)

Lemma CHUNK_SIZE_pos : 0 < CHUNK_SIZE.
Proof. reflexivity. Qed.

Lemma read_app (n : Z) (l : bytes) : (UpLoad.read n l).1 ++ (UpLoad.read n l).2 = l.
Proof.
  revert n. induction l as [|x l IH]; intros n; simpl; [reflexivity|].
  destruct (n <=? 0); [reflexivity|].
  specialize (IH (n - 1)). destruct (UpLoad.read (n - 1) l) as [a b]. simpl in *.
  congruence.
Qed.

Lemma read_nonempty (n : Z) (l : bytes) :
  0 < n → (UpLoad.read n l).1 = [] → l = [].
Proof.
  intros Hn. destruct l as [|x l]; simpl; [reflexivity|].
  destruct (Z.leb_spec n 0); [lia|].
  destruct (UpLoad.read (n - 1) l). discriminate.
Qed.

Lemma chunks_from_concat (fuel : nat) (l : bytes) :
  (length l < fuel)%nat → concat (UpLoad.chunks_from fuel l) = l.
Proof.
  revert l. induction fuel as [|fuel IH]; intros l Hl; [lia|].
  simpl. pose proof (read_app CHUNK_SIZE l) as Happ.
  pose proof (read_nonempty CHUNK_SIZE l CHUNK_SIZE_pos) as Hne.
  destruct (UpLoad.read CHUNK_SIZE l) as [a b]. simpl in *.
  destruct a as [|x a].
  - rewrite Hne; reflexivity.
  - rewrite concat_cons, IH; [exact Happ|].
    rewrite <- Happ in Hl. rewrite length_app in Hl. simpl in Hl. lia.
Qed.

Lemma chunks_concat (l : bytes) : concat (UpLoad.chunks l) = l.
Proof. apply chunks_from_concat. lia. Qed.

Lemma chunks_from_length (fuel : nat) (l : bytes) :
  (length (UpLoad.chunks_from fuel l) ≤ length l)%nat.
Proof.
  revert l. induction fuel as [|fuel IH]; intros l; simpl; [lia|].
  pose proof (read_app CHUNK_SIZE l) as Happ.
  destruct (UpLoad.read CHUNK_SIZE l) as [a b]. simpl in *.
  destruct a as [|x a]; simpl; [lia|].
  specialize (IH b). rewrite <- Happ. rewrite length_app. simpl. lia.
Qed.

Lemma chunks_length (l : bytes) : (length (UpLoad.chunks l) ≤ length l)%nat.
Proof. apply chunks_from_length. Qed.

Lemma chunks_total_len (l : bytes) : total_len (UpLoad.chunks l) = len l.
Proof. unfold total_len. rewrite chunks_concat. reflexivity. Qed.

Lemma chunks_nil : UpLoad.chunks [] = [].
Proof. reflexivity. Qed.

Lemma total_len_cons (c : bytes) (cs : list bytes) :
  total_len (c :: cs) = len c + total_len cs.
Proof.
  unfold total_len, len. rewrite concat_cons, length_app. lia.
Qed.

Lemma total_len_nonneg (cs : list bytes) : 0 ≤ total_len cs.
Proof. unfold total_len, len. lia. Qed.

(** ** Written chunks and the prefix scan *)

Lemma be8_inj (n m : Z) :
  0 ≤ n < 2 ^ 64 → 0 ≤ m < 2 ^ 64 → be_bytes 8 n = be_bytes 8 m → n = m.
Proof. apply (be_bytes_inj 8). Qed.

Lemma be8_lt (n m : Z) :
  0 ≤ n → n < m → m < 2 ^ 64 → bytes_lt (be_bytes 8 n) (be_bytes 8 m).
Proof. apply (be_bytes_lt 8). Qed.

Lemma chunk_key_inj (D : bytes) (i j : Z) :
  0 ≤ i < 2 ^ 64 → 0 ≤ j < 2 ^ 64 →
  D ++ be_bytes 8 i = D ++ be_bytes 8 j → i = j.
Proof.
  intros Hi Hj E. apply app_inv_head in E.
  apply be8_inj; assumption.
Qed.

Lemma db_get_write_chunks_miss (D k : bytes) (i : Z) (cs : list bytes) (d : db) :
  (∀ j, (j < length cs)%nat → k ≠ D ++ be_bytes 8 (i + Z.of_nat j)) →
  db_get k (write_chunks D i cs d) = db_get k d.
Proof.
  revert i d. induction cs as [|c cs IH]; intros i d Hk; simpl; [reflexivity|].
  rewrite IH.
  - apply db_get_put_ne. specialize (Hk 0%nat ltac:(simpl; lia)).
    rewrite Z.add_0_r in Hk. exact Hk.
  - intros j Hj. specialize (Hk (S j) ltac:(simpl; lia)).
    replace (i + 1 + Z.of_nat j) with (i + Z.of_nat (S j)) by lia. exact Hk.
Qed.

Lemma db_get_write_chunks_hit (D : bytes) (i : Z) (cs : list bytes) (d : db) (j : nat) (c : bytes) :
  0 ≤ i → i + Z.of_nat (length cs) ≤ 2 ^ 64 →
  cs !! j = Some c →
  db_get (D ++ be_bytes 8 (i + Z.of_nat j)) (write_chunks D i cs d) = Some c.
Proof.
  revert i d j. induction cs as [|c0 cs IH]; intros i d j Hi Hlen Hj; [discriminate|].
  rewrite length_cons, Nat2Z.inj_succ in Hlen. cbn [write_chunks].
  destruct j as [|j]; cbn [lookup list_lookup] in Hj.
  - injection Hj as ->. rewrite Z.add_0_r.
    rewrite db_get_write_chunks_miss; [apply db_get_put_eq|].
    intros j Hj E. apply chunk_key_inj in E; lia.
  - rewrite Nat2Z.inj_succ.
    replace (i + Z.succ (Z.of_nat j)) with (i + 1 + Z.of_nat j) by lia.
    apply (IH (i + 1)); [lia|lia|exact Hj].
Qed.

Lemma db_ok_write_chunks (D : bytes) (i : Z) (cs : list bytes) (d : db) :
  db_ok d → db_ok (write_chunks D i cs d).
Proof.
  revert i d. induction cs as [|c cs IH]; intros i d Hd; simpl; [exact Hd|].
  apply IH. apply db_ok_put. exact Hd.
Qed.

Lemma elem_of_chunk_entries (D : bytes) (i : Z) (cs : list bytes) (k v : bytes) :
  (k, v) ∈ chunk_entries D i cs ↔
  ∃ j, cs !! j = Some v ∧ k = D ++ be_bytes 8 (i + Z.of_nat j).
Proof.
  revert i. induction cs as [|c cs IH]; intros i; simpl.
  - split; [intros H; inversion H | intros (j & H & _); discriminate].
  - rewrite elem_of_cons, IH. split.
    + intros [[= -> ->]|(j & Hj & ->)].
      * exists 0%nat. rewrite Z.add_0_r. auto.
      * exists (S j). split; [exact Hj|]. f_equal. f_equal. lia.
    + intros ([|j] & Hj & ->); simpl in Hj.
      * injection Hj as ->. left. rewrite Z.add_0_r. reflexivity.
      * right. exists j. split; [exact Hj|]. f_equal. f_equal. lia.
Qed.

Lemma db_ok_chunk_entries (D : bytes) (i : Z) (cs : list bytes) :
  0 ≤ i → i + Z.of_nat (length cs) ≤ 2 ^ 64 → db_ok (chunk_entries D i cs).
Proof.
  unfold db_ok. revert i. induction cs as [|c cs IH]; intros i Hi Hlen; simpl in *.
  - constructor.
  - constructor; [apply IH; lia|].
    apply Forall_forall. intros [k v] Hin.
    apply elem_of_chunk_entries in Hin as (j & Hj & ->).
    apply lookup_lt_Some in Hj.
    unfold key_lt, bytes_lt. simpl. rewrite bytes_cmp_app.
    apply be8_lt; lia.
Qed.

Lemma chunk_entries_values (D : bytes) (i : Z) (cs : list bytes) :
  (chunk_entries D i cs).*2 = cs.
Proof.
  revert i. induction cs as [|c cs IH]; intros i; simpl; [reflexivity|].
  rewrite IH. reflexivity.
Qed.

(** A table that holds under [D] exactly the chunks [cs] at their ordinals
    is scanned by that prefix into [cs], in order. *)
Lemma scanByPref_chunks (D : bytes) (d : db) (cs : list bytes) :
  db_ok d → Z.of_nat (length cs) ≤ 2 ^ 64 →
  (∀ k v, D `prefix_of` k →
     (db_get k d = Some v ↔ ∃ j, cs !! j = Some v ∧ k = D ++ be_bytes 8 (Z.of_nat j))) →
  scanByPref D d = chunk_entries D 0 cs.
Proof.
  intros Hd Hlen Hchar.
  assert (Hs : db_ok (scanByPref D d)) by (eapply db_ok_sublist; [apply sublist_filter|exact Hd]).
  assert (He : db_ok (chunk_entries D 0 cs)) by (apply db_ok_chunk_entries; lia).
  apply (StronglySorted_unique_strong key_lt); try assumption.
  - intros x1 x2 _ _ H1 H2. exfalso. exact (bytes_lt_asym _ _ H1 H2).
  - apply NoDup_Permutation; try (apply db_ok_NoDup; assumption).
    intros [k v]. unfold scanByPref. rewrite list_elem_of_filter. simpl.
    rewrite elem_of_chunk_entries. rewrite (db_get_elem k v d Hd). split.
    + intros [Hp Hg]. apply (Hchar k v Hp) in Hg. exact Hg.
    + intros (j & Hj & ->). split; [apply prefix_app_r; reflexivity|].
      apply Hchar; [apply prefix_app_r; reflexivity|]. eauto.
Qed.

(** ** The monad and the hash-lock registry *)

Lemma set_hashlocks_id (s : Axon) : set_hashlocks (fun _ => hashlocks s) s = s.
Proof. destruct s; reflexivity. Qed.

Lemma lock_independent_hashlocks {A} (body : M A) (s : Axon) :
  lock_independent body → hashlocks (body s).2 = hashlocks s.
Proof.
  intros Hb. specialize (Hb (fun _ => hashlocks s) s).
  rewrite set_hashlocks_id in Hb. rewrite Hb at 1. reflexivity.
Qed.

Lemma lock_independent_ret {A} (a : A) : lock_independent (ret a).
Proof. intros f s. reflexivity. Qed.

Lemma lock_independent_raise {A} (e : exc) : lock_independent (@raise A e).
Proof. intros f s. reflexivity. Qed.

Lemma lock_independent_bind {A B} (m : M A) (k : A → M B) :
  lock_independent m → (∀ a, lock_independent (k a)) → lock_independent (bind m k).
Proof.
  intros Hm Hk f s. unfold bind. rewrite Hm.
  destruct (m s) as [[a|e|] s1]; simpl; [apply Hk|reflexivity|reflexivity].
Qed.

Lemma lock_independent_gets {A} (g : Axon → A) :
  (∀ f s, g (set_hashlocks f s) = g s) → lock_independent (gets g).
Proof. intros Hg f s. unfold gets. rewrite Hg. reflexivity. Qed.

Lemma lock_independent_modify (g : Axon → Axon) :
  (∀ f s, g (set_hashlocks f s) = set_hashlocks f (g s)) → lock_independent (modify g).
Proof. intros Hg f s. unfold modify. rewrite Hg. reflexivity. Qed.

Ltac lockfree :=
  repeat first
    [ apply lock_independent_bind; [|intros ?]
    | apply lock_independent_ret
    | apply lock_independent_raise
    | apply lock_independent_gets; reflexivity
    | apply lock_independent_modify; reflexivity ].

Lemma lock_independent_saveFileGenr_from (D : bytes) (i sz : Z) (g : genr) :
  lock_independent (_saveFileGenr_from D i sz g).
Proof.
  revert i sz. induction g as [|e|byts rest IH]; intros i sz; simpl.
  - lockfree.
  - lockfree.
  - destruct (to_bytes i 8); lockfree. apply IH.
Qed.

Lemma lock_independent_save_locked (tick : Z) (D : bytes) (g : genr) :
  lock_independent (save_locked tick D g).
Proof.
  unfold save_locked, _saveFileGenr, _addSyncItem.
  lockfree. destruct a as [v|]; lockfree.
  - apply lock_independent_saveFileGenr_from.
  - match goal with |- context [to_bytes ?x 8] => destruct (to_bytes x 8) end; lockfree.
Qed.

Lemma lock_independent_del_locked (D : bytes) : lock_independent (del_locked D).
Proof.
  unfold del_locked, _delBlobByts.
  apply lock_independent_bind.
  - intros f s. reflexivity.
  - intros byts. destruct (falsy byts); lockfree.
Qed.

Lemma registry_quiet_empty : registry_quiet ∅.
Proof. intros h n l H. rewrite lookup_empty in H. discriminate. Qed.

Lemma hashlocks_acquire_enter (h : bytes) (reg : gmap bytes lockitem) :
  registry_quiet reg →
  hashlocks_acquire h (hashlocks_enter h reg) =
    Some (<[h := ((default (0, false) (reg !! h)).1 + 1, true)]> reg).
Proof.
  intros Hq. unfold hashlocks_acquire, hashlocks_enter.
  rewrite lookup_insert_eq.
  destruct (reg !! h) as [[n l]|] eqn:E; simpl.
  - destruct (Hq _ _ _ E) as [_ ->]. rewrite insert_insert_eq. reflexivity.
  - rewrite insert_insert_eq. reflexivity.
Qed.

Lemma hashlocks_release_held (h : bytes) (n : Z) (reg : gmap bytes lockitem) :
  hashlocks_release h (<[h := (n, true)]> reg) = <[h := (n, false)]> reg.
Proof.
  unfold hashlocks_release. apply map_eq. intros k.
  destruct (decide (k = h)) as [->|Hne].
  - rewrite lookup_alter_eq, !lookup_insert_eq. reflexivity.
  - rewrite lookup_alter_ne, !lookup_insert_ne by auto. reflexivity.
Qed.

Lemma hashlocks_leave_leak (h : bytes) (reg : gmap bytes lockitem) :
  registry_quiet reg → hashlocks_leave h (hashlocks_leak h reg) = reg.
Proof.
  intros Hq. unfold hashlocks_leave, hashlocks_leak. rewrite lookup_insert_eq.
  destruct (reg !! h) as [[n l]|] eqn:E; simpl.
  - destruct (Hq _ _ _ E) as [Hn ->].
    destruct (Z.eqb_spec (n + 1 - 1) 0); [lia|].
    rewrite insert_insert_eq. replace (n + 1 - 1) with n by lia.
    apply insert_id. exact E.
  - rewrite delete_insert_eq. apply delete_id. exact E.
Qed.

Lemma registry_quiet_leak (h : bytes) (reg : gmap bytes lockitem) :
  registry_quiet reg → registry_quiet (hashlocks_leak h reg).
Proof.
  intros Hq k n l. unfold hashlocks_leak.
  destruct (decide (k = h)) as [->|Hne].
  - rewrite lookup_insert_eq. intros [= <- <-]. split; [|reflexivity].
    destruct (reg !! h) as [[m l]|] eqn:E; simpl; [|lia].
    destruct (Hq _ _ _ E). lia.
  - rewrite lookup_insert_ne by auto. apply Hq.
Qed.

(** [holdHashLock] from a quiet registry, around a block that does not
    touch the registry: a normal end restores the registry, an exception
    leaves the entry of the digest behind with its count not decremented. *)
Lemma holdHashLock_quiet {A} (h : bytes) (body : M A) (s : Axon) :
  registry_quiet (hashlocks s) → lock_independent body →
  holdHashLock h body s =
    match body s with
    | (Ok a, s2) => (Ok a, s2)
    | (Raise e, s2) => (Raise e, set_hashlocks (hashlocks_leak h) s2)
    | (Wait, s2) =>
        (Wait, set_hashlocks
                 (fun reg => <[h := ((default (0, false) (reg !! h)).1 + 1, true)]> reg) s2)
    end.
Proof.
  intros Hq Hb. unfold holdHashLock.
  cbn [hashlocks set_hashlocks]. rewrite hashlocks_acquire_enter by exact Hq.
  pose proof (lock_independent_hashlocks body s Hb) as Hpres.
  match goal with |- context [body ?s1] =>
    replace s1 with
      (set_hashlocks (fun _ => <[h := ((default (0, false) (hashlocks s !! h)).1 + 1, true)]> (hashlocks s)) s)
      by reflexivity
  end.
  rewrite Hb. destruct (body s) as [[a|e|] s2]; simpl in *.
  - f_equal. rewrite <- (set_hashlocks_id s2) at 2. rewrite Hpres.
    unfold set_hashlocks. cbn. f_equal.
    rewrite hashlocks_release_held. apply (hashlocks_leave_leak h _ Hq).
  - f_equal. unfold set_hashlocks. cbn. f_equal.
    rewrite hashlocks_release_held, Hpres. reflexivity.
  - f_equal. unfold set_hashlocks. cbn. f_equal. rewrite Hpres. reflexivity.
Qed.

Lemma holdHashLock_return_restores {A} (h : bytes) (body : M A) (s : Axon) (a : A) (s2 : Axon) :
  registry_quiet (hashlocks s) → lock_independent body →
  body s = (Ok a, s2) →
  holdHashLock h body s = (Ok a, s2) ∧ hashlocks s2 = hashlocks s.
Proof.
  intros Hq Hb E. rewrite holdHashLock_quiet by assumption. rewrite E.
  split; [reflexivity|].
  pose proof (lock_independent_hashlocks body s Hb) as H. rewrite E in H. exact H.
Qed.

(** The exception path keeps the entry: the count of the digest is one more
    than before the holder came, although the holder is gone. *)
Lemma holdHashLock_raise_leaks {A} (h : bytes) (body : M A) (s : Axon) (e : exc) (s2 : Axon) :
  registry_quiet (hashlocks s) → lock_independent body →
  body s = (Raise e, s2) →
  (holdHashLock h body s).1 = Raise e ∧
  hashlocks (holdHashLock h body s).2 !! h =
    Some ((default (0, false) (hashlocks s !! h)).1 + 1, false).
Proof.
  intros Hq Hb E. rewrite holdHashLock_quiet by assumption. rewrite E.
  split; [reflexivity|]. cbn [snd hashlocks set_hashlocks].
  pose proof (lock_independent_hashlocks body s Hb) as H. rewrite E in H. cbn [snd] in H.
  rewrite H. unfold hashlocks_leak. apply lookup_insert_eq.
Qed.

Lemma hashlocks_enter_absent (h : bytes) (reg : gmap bytes lockitem) :
  reg !! h = None → hashlocks_enter h reg = <[h := (1, false)]> reg.
Proof. intros H. unfold hashlocks_enter. rewrite H. reflexivity. Qed.

Lemma hashlocks_enter_present (h : bytes) (n : Z) (l : bool) (reg : gmap bytes lockitem) :
  hashlocks_enter h (<[h := (n, l)]> reg) = <[h := (n + 1, l)]> reg.
Proof.
  unfold hashlocks_enter. rewrite lookup_insert_eq, insert_insert_eq. reflexivity.
Qed.

Lemma hashlocks_acquire_free (h : bytes) (n : Z) (reg : gmap bytes lockitem) :
  hashlocks_acquire h (<[h := (n, false)]> reg) = Some (<[h := (n, true)]> reg).
Proof.
  unfold hashlocks_acquire. rewrite lookup_insert_eq, insert_insert_eq. reflexivity.
Qed.

Lemma hashlocks_acquire_held (h : bytes) (n : Z) (reg : gmap bytes lockitem) :
  hashlocks_acquire h (<[h := (n, true)]> reg) = None.
Proof. unfold hashlocks_acquire. rewrite lookup_insert_eq. reflexivity. Qed.

Lemma hashlocks_release_insert (h : bytes) (n : Z) (l : bool) (reg : gmap bytes lockitem) :
  hashlocks_release h (<[h := (n, l)]> reg) = <[h := (n, false)]> reg.
Proof.
  unfold hashlocks_release. apply map_eq. intros k.
  destruct (decide (k = h)) as [->|Hne].
  - rewrite lookup_alter_eq, !lookup_insert_eq. reflexivity.
  - rewrite lookup_alter_ne, !lookup_insert_ne by auto. reflexivity.
Qed.

Lemma hashlocks_leave_last (h : bytes) (l : bool) (reg : gmap bytes lockitem) :
  reg !! h = None → hashlocks_leave h (<[h := (1, l)]> reg) = reg.
Proof.
  intros H. unfold hashlocks_leave. rewrite lookup_insert_eq. cbn.
  rewrite delete_insert_eq. apply delete_id. exact H.
Qed.

Lemma hashlocks_leave_more (h : bytes) (n : Z) (l : bool) (reg : gmap bytes lockitem) :
  n ≠ 1 → hashlocks_leave h (<[h := (n, l)]> reg) = <[h := (n - 1, l)]> reg.
Proof.
  intros H. unfold hashlocks_leave. rewrite lookup_insert_eq.
  destruct (Z.eqb_spec (n - 1) 0); [lia|]. apply insert_insert_eq.
Qed.

(** Two holders of a digest that both end normally leave no entry; a
    holder that raises, or a waiter that is cancelled, leaves the entry
    with a count that no later holder brings to zero; a second holder does
    not get the lock while the first has it. *)
Lemma hold_trace_examples (h : bytes) :
  hold_trace h [Enter; Acquire; Enter; ExitReturn; Acquire; ExitReturn] ∅ = Some ∅ ∧
  hold_trace h [Enter; Acquire; ExitRaise] ∅ = Some (<[h := (1, false)]> ∅) ∧
  hold_trace h [Enter; Acquire; Enter; ExitReturn; CancelWait] ∅
    = Some (<[h := (1, false)]> ∅) ∧
  hold_trace h [Enter; Acquire; ExitRaise; Enter; Acquire; ExitReturn] ∅
    = Some (<[h := (1, false)]> ∅) ∧
  hold_trace h [Enter; Acquire; Enter; Acquire] ∅ = None.
Proof.
  assert (He : (∅ : gmap bytes lockitem) !! h = None) by apply lookup_empty.
  cbn [hold_trace hold_step].
  rewrite (hashlocks_enter_absent h ∅ He), hashlocks_acquire_free.
  rewrite !hashlocks_enter_present, !hashlocks_release_insert.
  rewrite hashlocks_acquire_held.
  rewrite (hashlocks_leave_more h (1 + 1)) by lia.
  rewrite !hashlocks_enter_present.
  change (1 + 1 - 1) with 1.
  rewrite !hashlocks_acquire_free, !hashlocks_release_insert.
  rewrite (hashlocks_leave_last h _ ∅ He).
  rewrite (hashlocks_leave_more h (1 + 1)) by lia.
  repeat split.
Qed.

(** ** Saving *)

Lemma genr_of_chunks (cs : list bytes) : genr_chunks (genr_of cs) = cs.
Proof. induction cs as [|c cs IH]; simpl; congruence. Qed.

Lemma genr_of_exc (cs : list bytes) : genr_exc (genr_of cs) = None.
Proof. induction cs as [|c cs IH]; simpl; congruence. Qed.

Lemma genr_raising_exc (cs : list bytes) (e : exc) : genr_exc (genr_raising cs e) = Some e.
Proof. induction cs as [|c cs IH]; simpl; congruence. Qed.

(** What [_saveFileGenr] does for any producer: it writes the chunks it
    received, and ends as the producer does unless an ordinal overflows. *)
Lemma saveFileGenr_from_any (D : bytes) (g : genr) (i sz : Z) (s : Axon) :
  ∃ cs,
    (_saveFileGenr_from D i sz g s).2 = set_blobs (write_chunks D i cs) s ∧
    match (_saveFileGenr_from D i sz g s).1 with
    | Ok r => g = genr_of cs ∧ r = sz + total_len cs
    | Raise e => e = OverflowError ∨ genr_exc g = Some e
    | Wait => False
    end ∧
    cs `prefix_of` genr_chunks g.
Proof.
  revert i sz s. induction g as [|e|byts rest IH]; intros i sz s; simpl.
  - exists []. destruct s. split; [reflexivity|]. split; [|apply prefix_nil].
    split; [reflexivity|]. unfold ret, total_len, len. simpl. lia.
  - exists []. destruct s. split; [reflexivity|]. split; [|apply prefix_nil]. auto.
  - destruct (to_bytes i 8) as [ib|] eqn:E.
    + apply to_bytes_Some in E as (-> & _).
      unfold bind, modify.
      destruct (IH (i + 1) (sz + len byts) (set_blobs (db_put (D ++ be_bytes 8 i) byts) s))
        as (cs & Hst & Hres & Hpre).
      exists (byts :: cs). split; [rewrite Hst; reflexivity|].
      split; [|apply prefix_cons; exact Hpre].
      destruct (_saveFileGenr_from D (i + 1) (sz + len byts) rest _) as [[r|e|] s']; simpl in *.
      * destruct Hres as [-> ->]. split; [reflexivity|]. rewrite total_len_cons. lia.
      * exact Hres.
      * exact Hres.
    + exists []. destruct s; split; [reflexivity|]. split; [left; reflexivity|].
      apply prefix_nil.
Qed.

Lemma saveFileGenr_from_of (D : bytes) (cs : list bytes) (i sz : Z) (s : Axon) :
  0 ≤ i → i + Z.of_nat (length cs) ≤ 2 ^ 64 →
  _saveFileGenr_from D i sz (genr_of cs) s =
    (Ok (sz + total_len cs), set_blobs (write_chunks D i cs) s).
Proof.
  revert i sz s. induction cs as [|c cs IH]; intros i sz s Hi Hlen.
  - replace (sz + total_len []) with sz by (unfold total_len, len; simpl; lia).
    destruct s; reflexivity.
  - rewrite length_cons, Nat2Z.inj_succ in Hlen. cbn [genr_of _saveFileGenr_from].
    rewrite to_bytes_in_range by (change (256 ^ Z.of_nat 8) with (2 ^ 64); lia).
    unfold bind, modify. rewrite IH by lia.
    rewrite total_len_cons. f_equal. f_equal. lia.
Qed.

Lemma saveFileGenr_from_raising (D : bytes) (cs : list bytes) (e : exc) (i sz : Z) (s : Axon) :
  0 ≤ i → i + Z.of_nat (length cs) ≤ 2 ^ 64 →
  _saveFileGenr_from D i sz (genr_raising cs e) s =
    (Raise e, set_blobs (write_chunks D i cs) s).
Proof.
  revert i sz s. induction cs as [|c cs IH]; intros i sz s Hi Hlen.
  - simpl. destruct s. reflexivity.
  - rewrite length_cons, Nat2Z.inj_succ in Hlen. cbn [genr_raising _saveFileGenr_from].
    rewrite to_bytes_in_range by (change (256 ^ Z.of_nat 8) with (2 ^ 64); lia).
    unfold bind, modify. rewrite IH by lia. reflexivity.
Qed.

Lemma save_locked_present (tick : Z) (D v : bytes) (g : genr) (s : Axon) :
  db_get D (sizes s) = Some v → save_locked tick D g s = (Ok (from_bytes v), s).
Proof.
  intros H. unfold save_locked, bind, gets. rewrite H. reflexivity.
Qed.

Lemma save_locked_absent_of (tick : Z) (D : bytes) (cs : list bytes) (s : Axon) :
  db_get D (sizes s) = None →
  Z.of_nat (length cs) ≤ 2 ^ 64 → total_len cs < 2 ^ 64 →
  save_locked tick D (genr_of cs) s = (Ok (total_len cs), saved tick D cs s).
Proof.
  intros H Hn Ht. unfold save_locked, _saveFileGenr, bind at 1, gets. rewrite H.
  unfold bind at 1. rewrite saveFileGenr_from_of by lia. rewrite Z.add_0_l.
  pose proof (total_len_nonneg cs).
  rewrite to_bytes_in_range by (change (256 ^ Z.of_nat 8) with (2 ^ 64); lia).
  reflexivity.
Qed.

Lemma save_locked_absent_raising (tick : Z) (D : bytes) (cs : list bytes) (e : exc) (s : Axon) :
  db_get D (sizes s) = None → Z.of_nat (length cs) ≤ 2 ^ 64 →
  save_locked tick D (genr_raising cs e) s = (Raise e, set_blobs (write_chunks D 0 cs) s).
Proof.
  intros H Hn. unfold save_locked, _saveFileGenr, bind at 1, gets. rewrite H.
  unfold bind at 1. rewrite saveFileGenr_from_raising by lia. reflexivity.
Qed.

(** Every outcome of the locked block of [save] on an absent digest. *)
Lemma save_locked_absent_any (tick : Z) (D : bytes) (g : genr) (s : Axon) :
  db_get D (sizes s) = None →
  ∃ cs,
    match save_locked tick D g s with
    | (Ok r, s') => g = genr_of cs ∧ r = total_len cs ∧ r < 2 ^ 64 ∧ s' = saved tick D cs s
    | (Raise e, s') =>
        (e = OverflowError ∨ genr_exc g = Some e) ∧
        sizes s' = sizes s ∧ blobs s' = write_chunks D 0 cs (blobs s) ∧
        hashlocks s' = hashlocks s ∧ cs `prefix_of` genr_chunks g
    | (Wait, _) => False
    end.
Proof.
  intros H. unfold save_locked, _saveFileGenr, bind at 1, gets. rewrite H.
  unfold bind at 1.
  destruct (saveFileGenr_from_any D g 0 0 s) as (cs & Hst & Hres & Hpre).
  exists cs.
  destruct (_saveFileGenr_from D 0 0 g s) as [[r|e|] s1]; simpl in *; subst s1.
  - destruct Hres as [-> ->]. rewrite Z.add_0_l.
    destruct (to_bytes (total_len cs) 8) as [sb|] eqn:E.
    + apply to_bytes_Some in E as (-> & Hr & _).
      change (256 ^ Z.of_nat 8) with (2 ^ 64) in Hr.
      repeat split; try lia.
    + cbn. repeat split; auto.
  - repeat split; auto.
  - exact Hres.
Qed.

Lemma reqBelowLimit_spec (s : Axon) :
  _reqBelowLimit s =
    if at_limit s
    then (Raise (HitLimit
                   (if reached (maxbytes s) (size_bytes (axonmetrics s))
                    then "Axon is at size:bytes limit: " +:+ pretty (default 0 (maxbytes s))
                    else "Axon is at file:count limit: " +:+ pretty (default 0 (maxcount s)))), s)
    else (Ok tt, s).
Proof.
  unfold _reqBelowLimit, at_limit.
  destruct (reached (maxbytes s) _); [reflexivity|].
  destruct (reached (maxcount s) _); reflexivity.
Qed.

Lemma save_at_limit (tick : Z) (D : bytes) (g : genr) (s : Axon) :
  at_limit s = true → ∃ mesg, save tick D g s = (Raise (HitLimit mesg), s).
Proof.
  intros H. unfold save, bind. rewrite reqBelowLimit_spec, H. eauto.
Qed.

Lemma save_below_limit (tick : Z) (D : bytes) (g : genr) (s : Axon) :
  at_limit s = false → registry_quiet (hashlocks s) →
  save tick D g s =
    match save_locked tick D g s with
    | (Ok a, s2) => (Ok a, s2)
    | (Raise e, s2) => (Raise e, set_hashlocks (hashlocks_leak D) s2)
    | (Wait, s2) =>
        (Wait, set_hashlocks
                 (fun reg => <[D := ((default (0, false) (reg !! D)).1 + 1, true)]> reg) s2)
    end.
Proof.
  intros H Hq. unfold save, bind. rewrite reqBelowLimit_spec, H.
  apply holdHashLock_quiet; [exact Hq|apply lock_independent_save_locked].
Qed.

(** ** Deleting *)

Lemma db_get_foldl_delete (k : bytes) (ks : list bytes) (d : db) :
  db_get k (foldl (fun d' lkey => db_delete lkey d') d ks) =
    if decide (k ∈ ks) then None else db_get k d.
Proof.
  revert d. induction ks as [|k0 ks IH]; intros d; cbn [foldl].
  - rewrite decide_False; [reflexivity|]. intros H; inversion H.
  - rewrite IH. destruct (decide (k ∈ ks)) as [Hin|Hnin].
    + rewrite decide_True; [reflexivity|]. right. exact Hin.
    + destruct (decide (k = k0)) as [->|Hne].
      * rewrite decide_True by left. apply db_get_delete_eq.
      * rewrite decide_False.
        -- apply db_get_delete_ne. exact Hne.
        -- intros Hin. apply elem_of_cons in Hin as [?|?]; contradiction.
Qed.

Lemma db_get_sweep (D k : bytes) (d : db) :
  db_get k (sweep D d) = if decide (D `prefix_of` k) then None else db_get k d.
Proof.
  unfold sweep. rewrite db_get_foldl_delete.
  destruct (decide (k ∈ scanKeysByPref D d)) as [Hin|Hnin].
  - unfold scanKeysByPref, scanByPref in Hin.
    apply list_elem_of_fmap in Hin as ([k' v] & -> & Hin).
    apply list_elem_of_filter in Hin as [Hp _]. simpl in *.
    rewrite decide_True by exact Hp. reflexivity.
  - destruct (decide (D `prefix_of` k)) as [Hp|Hnp]; [|reflexivity].
    apply db_get_None_notin. intros v Hin. apply Hnin.
    unfold scanKeysByPref, scanByPref.
    apply list_elem_of_fmap. exists (k, v). split; [reflexivity|].
    apply list_elem_of_filter. split; assumption.
Qed.

Lemma db_ok_sweep (D : bytes) (d : db) : db_ok d → db_ok (sweep D d).
Proof.
  unfold sweep. generalize (scanKeysByPref D d). intros ks. revert d.
  induction ks as [|k ks IH]; intros d Hd; simpl; [exact Hd|].
  apply IH. apply db_ok_delete. exact Hd.
Qed.

Lemma del_locked_absent (D : bytes) (s : Axon) :
  db_get D (sizes s) = None → del_locked D s = (Ok false, s).
Proof.
  intros H. unfold del_locked, bind, db_pop. cbn [fst snd]. rewrite H. cbn.
  unfold ret. f_equal. unfold set_sizes. rewrite db_delete_absent by exact H.
  destruct s; reflexivity.
Qed.

Lemma del_locked_present (D v : bytes) (s : Axon) :
  db_get D (sizes s) = Some v → v ≠ [] → del_locked D s = (Ok true, deleted D v s).
Proof.
  intros H Hv. unfold del_locked, bind, db_pop. cbn [fst snd]. rewrite H.
  destruct v as [|x v]; [contradiction|]. reflexivity.
Qed.

Lemma del_quiet (D : bytes) (s : Axon) :
  registry_quiet (hashlocks s) →
  del_ D s =
    match del_locked D s with
    | (Ok a, s2) => (Ok a, s2)
    | (Raise e, s2) => (Raise e, set_hashlocks (hashlocks_leak D) s2)
    | (Wait, s2) =>
        (Wait, set_hashlocks
                 (fun reg => <[D := ((default (0, false) (reg !! D)).1 + 1, true)]> reg) s2)
    end.
Proof.
  intros Hq. unfold del_.
  apply holdHashLock_quiet; [exact Hq|apply lock_independent_del_locked].
Qed.

(** ** Uploading *)

Lemma has_true (D : bytes) (s : Axon) : has D s = true ↔ ∃ v, db_get D (sizes s) = Some v.
Proof.
  unfold has. rewrite bool_decide_eq_true.
  destruct (db_get D (sizes s)) as [v|]; split; eauto; try congruence.
  intros [v Hv]. discriminate.
Qed.

Lemma has_false (D : bytes) (s : Axon) : has D s = false ↔ db_get D (sizes s) = None.
Proof.
  unfold has. rewrite bool_decide_eq_false.
  destruct (db_get D (sizes s)) as [v|]; split; auto; try congruence.
  intros H. exfalso. apply H. discriminate.
Qed.

#[global] Arguments UpLoad.chunks : simpl never.
#[global] Arguments SHA256.digest : simpl never.

Lemma write_anit (B : bytes) :
  UpLoad.write B UpLoad.anit = UpLoad.mk B (len B) B false.
Proof. reflexivity. Qed.

Lemma put_present (tick : Z) (B : bytes) (s : Axon) :
  has (SHA256.digest B) s = true → put tick B s = (Ok (len B, SHA256.digest B), s).
Proof.
  intros H. unfold put, UpLoad.save. rewrite write_anit.
  cbn [UpLoad.sha256 UpLoad.size]. unfold bind, gets. rewrite H. reflexivity.
Qed.

Lemma put_absent (tick : Z) (B : bytes) (s : Axon) :
  has (SHA256.digest B) s = false →
  put tick B s =
    match save tick (SHA256.digest B) (genr_of (UpLoad.chunks B)) s with
    | (Ok _, s') => (Ok (len B, SHA256.digest B), s')
    | (Raise e, s') => (Raise e, s')
    | (Wait, s') => (Wait, s')
    end.
Proof.
  intros H. unfold put, UpLoad.save. rewrite write_anit.
  unfold UpLoad.genr. cbn [UpLoad.sha256 UpLoad.size UpLoad.fd UpLoad.isfini].
  unfold bind, gets. rewrite H.
  destruct (save tick (SHA256.digest B) (genr_of (UpLoad.chunks B)) s) as [[r|e|] s']; reflexivity.
Qed.

(** ** Well-formed states *)

Lemma wf_anit (maxb maxc : option Z) : wf (anit maxb maxc).
Proof.
  unfold wf, anit. cbn.
  split; [apply db_ok_nil|]. split; [apply db_ok_nil|].
  split; [discriminate|apply registry_quiet_empty].
Qed.

Lemma wf_saved (tick : Z) (D : bytes) (cs : list bytes) (s : Axon) :
  wf s → wf (saved tick D cs s).
Proof.
  intros (Hs & Hb & Hv & Hq). unfold wf, saved. cbn.
  split; [apply db_ok_put; exact Hs|].
  split; [apply db_ok_write_chunks; exact Hb|].
  split; [|exact Hq].
  intros k v. destruct (decide (k = D)) as [->|Hne].
  - rewrite db_get_put_eq. intros [= <-]. apply length_be_bytes.
  - rewrite db_get_put_ne by exact Hne. apply Hv.
Qed.

Lemma wf_deleted (D v : bytes) (s : Axon) : wf s → wf (deleted D v s).
Proof.
  intros (Hs & Hb & Hv & Hq). unfold wf, deleted. cbn.
  split; [apply db_ok_delete; exact Hs|].
  split; [apply db_ok_sweep; exact Hb|].
  split; [|exact Hq].
  intros k v'. destruct (decide (k = D)) as [->|Hne].
  - rewrite db_get_delete_eq. discriminate.
  - rewrite db_get_delete_ne by exact Hne. apply Hv.
Qed.

Lemma wf_save (tick : Z) (D : bytes) (g : genr) (s : Axon) :
  wf s → wf (save tick D g s).2.
Proof.
  intros Hwf. destruct (at_limit s) eqn:L.
  - destruct (save_at_limit tick D g s L) as [m ->]. exact Hwf.
  - pose proof Hwf as (Hs & Hb & Hv & Hq).
    rewrite save_below_limit by assumption.
    destruct (db_get D (sizes s)) as [v|] eqn:E.
    + rewrite (save_locked_present _ _ _ _ _ E). exact Hwf.
    + destruct (save_locked_absent_any tick D g s E) as (cs & Hres).
      destruct (save_locked tick D g s) as [[r|e|] s']; [| |contradiction].
      * destruct Hres as (_ & _ & _ & ->). apply wf_saved. exact Hwf.
      * destruct Hres as (_ & Hs' & Hb' & Hl' & _). unfold wf. cbn.
        rewrite Hs', Hb', Hl'.
        split; [exact Hs|]. split; [apply db_ok_write_chunks; exact Hb|].
        split; [exact Hv|apply registry_quiet_leak; exact Hq].
Qed.

Lemma wf_sizes_nonempty (s : Axon) (D v : bytes) :
  wf s → db_get D (sizes s) = Some v → v ≠ [].
Proof.
  intros (_ & _ & Hv & _) H ->. apply Hv in H. discriminate.
Qed.

Lemma del_spec (D : bytes) (s : Axon) :
  wf s →
  del_ D s =
    match db_get D (sizes s) with
    | Some v => (Ok true, deleted D v s)
    | None => (Ok false, s)
    end.
Proof.
  intros Hwf. pose proof Hwf as (_ & _ & _ & Hq). rewrite del_quiet by exact Hq.
  destruct (db_get D (sizes s)) as [v|] eqn:E.
  - rewrite (del_locked_present D v s E); [reflexivity|].
    eapply wf_sizes_nonempty; eassumption.
  - rewrite (del_locked_absent D s E). reflexivity.
Qed.

Lemma wf_del (D : bytes) (s : Axon) : wf s → wf (del_ D s).2.
Proof.
  intros Hwf. rewrite del_spec by exact Hwf.
  destruct (db_get D (sizes s)); [apply wf_deleted|]; exact Hwf.
Qed.

Lemma wf_put (tick : Z) (B : bytes) (s : Axon) : wf s → wf (put tick B s).2.
Proof.
  intros Hwf. destruct (has (SHA256.digest B) s) eqn:E.
  - rewrite put_present by exact E. exact Hwf.
  - rewrite put_absent by exact E.
    pose proof (wf_save tick (SHA256.digest B) (genr_of (UpLoad.chunks B)) s Hwf) as H.
    destruct (save tick _ _ s) as [[r|e|] s']; exact H.
Qed.

Lemma genr_of_inj (cs cs' : list bytes) : genr_of cs = genr_of cs' → cs = cs'.
Proof.
  intros H. rewrite <- (genr_of_chunks cs), <- (genr_of_chunks cs'). congruence.
Qed.

Lemma db_get_write_chunks_cases (D k v : bytes) (i : Z) (cs : list bytes) (d : db) :
  db_get k (write_chunks D i cs d) = Some v →
  (∃ j, cs !! j = Some v ∧ k = D ++ be_bytes 8 (i + Z.of_nat j)) ∨ db_get k d = Some v.
Proof.
  revert i d. induction cs as [|c cs IH]; intros i d H; cbn [write_chunks] in H; [auto|].
  apply IH in H as [(j & Hj & ->)|H].
  - left. exists (S j). split; [exact Hj|]. f_equal. f_equal. lia.
  - destruct (decide (k = D ++ be_bytes 8 i)) as [->|Hne].
    + rewrite db_get_put_eq in H. injection H as ->.
      left. exists 0%nat. rewrite Z.add_0_r. auto.
    + rewrite db_get_put_ne in H by exact Hne. auto.
Qed.

(** The save of the chunks of [B] over a table that holds under the digest
    only chunks of [B] leaves a table that [get] scans into those chunks. *)
Lemma get_after_write (D : bytes) (cs : list bytes) (d : db) :
  db_ok d → Z.of_nat (length cs) ≤ 2 ^ 64 →
  (∀ k v, db_get k d = Some v → D `prefix_of` k →
     ∃ j, cs !! j = Some v ∧ k = D ++ be_bytes 8 (Z.of_nat j)) →
  (scanByPref D (write_chunks D 0 cs d)).*2 = cs.
Proof.
  intros Hd Hlen Honly.
  rewrite (scanByPref_chunks D _ cs).
  - apply chunk_entries_values.
  - apply db_ok_write_chunks. exact Hd.
  - exact Hlen.
  - intros k v Hp. split.
    + intros H. apply db_get_write_chunks_cases in H as [(j & Hj & ->)|H].
      * exists j. rewrite Z.add_0_l. auto.
      * eauto.
    + intros (j & Hj & ->). rewrite <- (Z.add_0_l (Z.of_nat j)).
      apply db_get_write_chunks_hit; [lia|lia|exact Hj].
Qed.

Lemma holds_only_anit (maxb maxc : option Z) (B : bytes) : holds_only (anit maxb maxc) B.
Proof. split; intros; discriminate. Qed.

(** ** Repeated puts, the sequence, the fetcher *)

Lemma puts_present (B : bytes) (ticks : list Z) (s : Axon) :
  has (SHA256.digest B) s = true →
  puts ticks (replicate (length ticks) B) s =
    (Ok (replicate (length ticks) (len B, SHA256.digest B)), s).
Proof.
  intros H. induction ticks as [|t ticks IH]; [reflexivity|].
  cbn [length replicate puts]. unfold bind at 1. rewrite put_present by exact H.
  unfold bind at 1. rewrite IH. reflexivity.
Qed.

Lemma db_filter_key_absent (k : bytes) (d : db) :
  db_get k d = None → filter (fun kv => kv.1 = k) d = [].
Proof.
  induction d as [|[k' v'] d IH]; [reflexivity|].
  cbn [db_get]. rewrite filter_cons. cbn [fst]. case_bool_decide as E; [discriminate|].
  intros H. rewrite decide_False by auto. auto.
Qed.

Lemma db_filter_key (k v : bytes) (d : db) :
  db_ok d → db_get k d = Some v → filter (fun kv => kv.1 = k) d = [(k, v)].
Proof.
  induction d as [|[k' v'] d IH]; [discriminate|].
  intros Hd. pose proof (db_ok_head_notin _ _ _ Hd) as Hn.
  apply StronglySorted_inv in Hd as [Hd Hall].
  cbn [db_get]. rewrite filter_cons. cbn [fst]. case_bool_decide as E.
  - subst k'. intros [= ->]. rewrite decide_True by reflexivity. f_equal.
    apply db_filter_key_absent. exact Hn.
  - intros H. rewrite decide_False by auto. auto.
Qed.

Lemma StronglySorted_seqZ (k : nat) (m : Z) : StronglySorted Z.lt (seqZ m (Z.of_nat k)).
Proof.
  revert m. induction k as [|k IH]; intros m.
  - rewrite seqZ_nil by lia. constructor.
  - rewrite seqZ_cons by lia. rewrite Nat2Z.inj_succ, Z.pred_succ.
    constructor; [apply IH|]. apply Forall_seqZ. intros; lia.
Qed.

Lemma filter_all {A} (P : A → Prop) `{∀ x, Decision (P x)} (l : list A) :
  Forall P l → filter P l = l.
Proof.
  induction 1 as [|x l Hx Hl IH]; [reflexivity|].
  rewrite filter_cons, decide_True by exact Hx. f_equal. exact IH.
Qed.

Lemma seqn_iter_offsets (offs : Z) (q : list (bytes * Z)) :
  (seqn_iter offs q).*1 `sublist_of` seqZ 0 (Z.of_nat (length q)).
Proof.
  unfold seqn_iter.
  rewrite <- (fst_zip (seqZ 0 (Z.of_nat (length q))) q) at 2
    by (rewrite length_seqZ; lia).
  apply fmap_sublist, sublist_filter.
Qed.

Lemma put_result (tick : Z) (B : bytes) (s : Axon) (r : Z * bytes) (s' : Axon) :
  put tick B s = (Ok r, s') → r = (len B, SHA256.digest B).
Proof.
  intros H. destruct (has (SHA256.digest B) s) eqn:E.
  - rewrite put_present in H by exact E. congruence.
  - rewrite put_absent in H by exact E.
    destruct (save tick _ _ s) as [[r0|e|] s0]; congruence.
Qed.

Lemma wget_feed_of (cs : list bytes) (u : UpLoad.t) (fed : bytes) :
  wget_feed (genr_of cs) u fed =
    inl (UpLoad.mk (UpLoad.fd u ++ concat cs) (UpLoad.size u + total_len cs)
                   (UpLoad.sha256 u ++ concat cs) (UpLoad.isfini u),
         fed ++ concat cs).
Proof.
  revert u fed. induction cs as [|c cs IH]; intros u fed.
  - cbn [genr_of wget_feed concat]. rewrite !app_nil_r.
    replace (UpLoad.size u + total_len []) with (UpLoad.size u)
      by (unfold total_len, len; simpl; lia).
    destruct u; reflexivity.
  - cbn [genr_of wget_feed]. rewrite IH. unfold UpLoad.write.
    cbn [UpLoad.fd UpLoad.size UpLoad.sha256 UpLoad.isfini].
    rewrite total_len_cons, concat_cons, <- !app_assoc. do 3 f_equal. lia.
Qed.

Lemma wget_feed_raising (cs : list bytes) (e : exc) (u : UpLoad.t) (fed : bytes) :
  wget_feed (genr_raising cs e) u fed = inr e.
Proof.
  revert u fed. induction cs as [|c cs IH]; intros u fed; [reflexivity|].
  cbn [genr_raising wget_feed]. apply IH.
Qed.

(** [UpLoad.save] of what [wget] has written is [put] of the body. *)
Lemma upload_save_put (tick : Z) (B : bytes) (s : Axon) :
  UpLoad.save tick (UpLoad.mk B (len B) B false) s =
    match put tick B s with
    | (Ok r, s') => (Ok (r, UpLoad.anit), s')
    | (Raise e, s') => (Raise e, s')
    | (Wait, s') => (Wait, s')
    end.
Proof.
  unfold put. rewrite write_anit. unfold bind at 1.
  destruct (UpLoad.save tick (UpLoad.mk B (len B) B false) s) as [[[r u]|e|] s'] eqn:E;
    try reflexivity.
  cbn. f_equal. f_equal. f_equal.
  unfold UpLoad.save, bind, gets in E. cbn [UpLoad.sha256 UpLoad.size] in E.
  destruct (has (SHA256.digest B) s).
  - injection E as _ <- _. reflexivity.
  - destruct (save tick _ _ s) as [[r0|e0|] s0]; try discriminate.
    injection E as _ <- _. reflexivity.
Qed.

(** ** Runs from the empty store

    In every state reached from an empty store by [put] and [del_] calls,
    what the store holds under the digest of [B] is of [B], as long as no
    other content with the digest of [B] was put. *)

Lemma digest_length (m : bytes) : length (SHA256.digest m) = 32%nat.
Proof.
  unfold SHA256.digest. cbv zeta. rewrite !length_app, !length_be_bytes. reflexivity.
Qed.

Lemma prefix_same_length (a b k : bytes) :
  a `prefix_of` k → b `prefix_of` k → length a = length b → a = b.
Proof.
  intros [x ->] [y E] Hl. apply app_inj_1 in E; [apply E|exact Hl].
Qed.

Lemma chunks_only_write_same (d : db) (D : bytes) (cs cs' : list bytes) :
  chunks_only d D cs → cs' `prefix_of` cs → chunks_only (write_chunks D 0 cs' d) D cs.
Proof.
  intros Ho Hpre k v Hg Hp.
  apply db_get_write_chunks_cases in Hg as [(j & Hj & ->)|Hg].
  - exists j. rewrite Z.add_0_l. split; [|reflexivity].
    eapply prefix_lookup_Some; eassumption.
  - exact (Ho k v Hg Hp).
Qed.

Lemma chunks_only_write_other (d : db) (D D' : bytes) (cs cs' : list bytes) :
  length D' = length D → D' ≠ D →
  chunks_only d D cs → chunks_only (write_chunks D' 0 cs' d) D cs.
Proof.
  intros Hl Hne Ho k v Hg Hp.
  apply db_get_write_chunks_cases in Hg as [(j & Hj & ->)|Hg].
  - exfalso. apply Hne. symmetry.
    apply (prefix_same_length _ _ _ Hp); [apply prefix_app_r; reflexivity|congruence].
  - exact (Ho k v Hg Hp).
Qed.

Lemma chunks_all_write_same (d : db) (D : bytes) (cs : list bytes) :
  Z.of_nat (length cs) ≤ 2 ^ 64 → chunks_all (write_chunks D 0 cs d) D cs.
Proof.
  intros Hlen j c Hj. rewrite <- (Z.add_0_l (Z.of_nat j)).
  apply db_get_write_chunks_hit; [lia|lia|exact Hj].
Qed.

Lemma chunks_all_write_other (d : db) (D D' : bytes) (cs cs' : list bytes) :
  length D' = length D → D' ≠ D →
  chunks_all d D cs → chunks_all (write_chunks D' 0 cs' d) D cs.
Proof.
  intros Hl Hne Ha j c Hj. rewrite db_get_write_chunks_miss; [exact (Ha j c Hj)|].
  intros j' _ E. apply Hne. symmetry. apply app_inj_1 in E; [apply E|congruence].
Qed.

Lemma chunks_only_sweep (d : db) (D D' : bytes) (cs : list bytes) :
  chunks_only d D cs → chunks_only (sweep D' d) D cs.
Proof.
  intros Ho k v Hg Hp. rewrite db_get_sweep in Hg.
  destruct (decide (D' `prefix_of` k)); [discriminate|]. exact (Ho k v Hg Hp).
Qed.

Lemma chunks_all_sweep_other (d : db) (D D' : bytes) (cs : list bytes) :
  length D' = length D → D' ≠ D →
  chunks_all d D cs → chunks_all (sweep D' d) D cs.
Proof.
  intros Hl Hne Ha j c Hj. rewrite db_get_sweep.
  destruct (decide (D' `prefix_of` D ++ be_bytes 8 (Z.of_nat j))) as [Hp|Hp]; [|exact (Ha j c Hj)].
  exfalso. apply Hne.
  apply (prefix_same_length _ _ _ Hp); [apply prefix_app_r; reflexivity|exact Hl].
Qed.

Lemma holds_only_saved (tick : Z) (B B' : bytes) (s : Axon) :
  (SHA256.digest B' = SHA256.digest B → B' = B) →
  len B' < 2 ^ 64 →
  holds_only s B →
  holds_only (saved tick (SHA256.digest B') (UpLoad.chunks B') s) B.
Proof.
  intros Hcol Hlen [Ho Hi]. pose proof (chunks_length B') as Hcl.
  unfold holds_only, saved. cbn [sizes blobs].
  destruct (decide (SHA256.digest B' = SHA256.digest B)) as [E|Hne].
  - specialize (Hcol E). subst B'. split.
    + apply chunks_only_write_same; [exact Ho|reflexivity].
    + intros v. rewrite db_get_put_eq, chunks_total_len. intros [= <-].
      split; [reflexivity|]. split; [exact Hlen|].
      apply chunks_all_write_same. unfold len in Hlen. lia.
  - split.
    + apply chunks_only_write_other; [rewrite !digest_length; reflexivity|exact Hne|exact Ho].
    + intros v. rewrite db_get_put_ne by auto. intros Hv.
      destruct (Hi v Hv) as (-> & Hl & Ha). split; [reflexivity|]. split; [exact Hl|].
      apply chunks_all_write_other; [rewrite !digest_length; reflexivity|exact Hne|exact Ha].
Qed.

Lemma invariant_put (tick : Z) (B B' : bytes) (s : Axon) :
  (SHA256.digest B' = SHA256.digest B → B' = B) →
  wf s → digests_ok s → holds_only s B →
  digests_ok (put tick B' s).2 ∧ holds_only (put tick B' s).2 B.
Proof.
  intros Hcol Hwf Hd Hh. pose proof Hwf as (Hs & Hb & Hv & Hq).
  destruct (has (SHA256.digest B') s) eqn:Hhas.
  { rewrite put_present by exact Hhas. auto. }
  rewrite put_absent by exact Hhas. apply has_false in Hhas.
  destruct (at_limit s) eqn:L.
  { destruct (save_at_limit tick (SHA256.digest B') (genr_of (UpLoad.chunks B')) s L) as [m ->]. auto. }
  rewrite save_below_limit by assumption.
  destruct (save_locked_absent_any tick (SHA256.digest B') (genr_of (UpLoad.chunks B')) s Hhas)
    as (cs & Hres).
  destruct (save_locked tick _ _ s) as [[r|e|] s0]; [| |contradiction]; cbn [snd].
  - destruct Hres as (Hcs & -> & Hlt & ->). apply genr_of_inj in Hcs. subst cs.
    rewrite chunks_total_len in Hlt. split.
    + intros k v. unfold saved. cbn [sizes].
      destruct (decide (k = SHA256.digest B')) as [->|Hne].
      * intros _. apply digest_length.
      * rewrite db_get_put_ne by exact Hne. apply Hd.
    + apply holds_only_saved; assumption.
  - destruct Hres as (_ & Hs0 & Hb0 & _ & Hpre). rewrite genr_of_chunks in Hpre.
    split.
    + unfold digests_ok. cbn [sizes set_hashlocks]. rewrite Hs0. exact Hd.
    + destruct Hh as [Ho Hi]. unfold holds_only. cbn [sizes blobs set_hashlocks].
      rewrite Hs0, Hb0.
      destruct (decide (SHA256.digest B' = SHA256.digest B)) as [E|Hne].
      * specialize (Hcol E). subst B'. split.
        -- apply chunks_only_write_same; assumption.
        -- intros v Hg. rewrite Hhas in Hg. discriminate.
      * split.
        -- apply chunks_only_write_other; [rewrite !digest_length; reflexivity|exact Hne|exact Ho].
        -- intros v Hg. destruct (Hi v Hg) as (-> & Hl & Ha).
           split; [reflexivity|]. split; [exact Hl|].
           apply chunks_all_write_other; [rewrite !digest_length; reflexivity|exact Hne|exact Ha].
Qed.

Lemma invariant_del (B D : bytes) (s : Axon) :
  wf s → digests_ok s → holds_only s B →
  digests_ok (del_ D s).2 ∧ holds_only (del_ D s).2 B.
Proof.
  intros Hwf Hd [Ho Hi]. rewrite del_spec by exact Hwf.
  destruct (db_get D (sizes s)) as [v|] eqn:E; cbn [snd]; [|split; [exact Hd|split; assumption]].
  pose proof (Hd _ _ E) as HlD. split.
  - intros k v'. unfold deleted. cbn [sizes].
    destruct (decide (k = D)) as [->|Hne]; [rewrite db_get_delete_eq; discriminate|].
    rewrite db_get_delete_ne by exact Hne. apply Hd.
  - unfold holds_only, deleted. cbn [sizes blobs]. split.
    + apply chunks_only_sweep. exact Ho.
    + intros v'. destruct (decide (SHA256.digest B = D)) as [<-|Hne].
      * rewrite db_get_delete_eq. discriminate.
      * rewrite db_get_delete_ne by exact Hne. intros Hg.
        destruct (Hi v' Hg) as (-> & Hl & Ha). split; [reflexivity|]. split; [exact Hl|].
        apply chunks_all_sweep_other; [rewrite digest_length; exact HlD|auto|exact Ha].
Qed.

(** The invariant of runs: well-formedness, digests as keys, and for a
    content [B] that no other put content collides with, [holds_only]. *)
Theorem run_invariant (ops : list op) (B : bytes) (s : Axon) :
  (∀ tick B', Put tick B' ∈ ops → SHA256.digest B' = SHA256.digest B → B' = B) →
  wf s → digests_ok s → holds_only s B →
  wf (run ops s) ∧ digests_ok (run ops s) ∧ holds_only (run ops s) B.
Proof.
  revert s. induction ops as [|o ops IH]; intros s Hcol Hwf Hd Hh; [auto|].
  cbn [run]. apply IH.
  - intros tick B' Hin. apply (Hcol tick B'). right. exact Hin.
  - destruct o; [apply wf_put|apply wf_del]; exact Hwf.
  - destruct o as [tick B'|D]; cbn [run_op].
    + apply (invariant_put tick B B' s); try assumption. apply (Hcol tick B'). left.
    + apply (invariant_del B D s); assumption.
  - destruct o as [tick B'|D]; cbn [run_op].
    + apply (invariant_put tick B B' s); try assumption. apply (Hcol tick B'). left.
    + apply (invariant_del B D s); assumption.
Qed.

Corollary run_from_empty (ops : list op) (B : bytes) (maxb maxc : option Z) :
  (∀ tick B', Put tick B' ∈ ops → SHA256.digest B' = SHA256.digest B → B' = B) →
  wf (run ops (anit maxb maxc)) ∧ holds_only (run ops (anit maxb maxc)) B.
Proof.
  intros Hcol.
  destruct (run_invariant ops B (anit maxb maxc) Hcol) as (H1 & _ & H2).
  - apply wf_anit.
  - intros k v H. discriminate.
  - apply holds_only_anit.
  - auto.
Qed.

(** ** The scenarios of the specification, run *)

(** SHA-256 on the test vectors of the standard, and the first and last
    of its constants. *)
Lemma sha256_vectors :
  ehex (SHA256.digest []) = "e3b0c44298fc1c149afbf4c8996fb92427ae41e4649b934ca495991b7852b855" ∧
  ehex (SHA256.digest abc) = "ba7816bf8f01cfea414140de5dae2223b00361a396177a9cb410ff61f20015ad" ∧
  ehex (SHA256.digest
          (list_byte_of_string "abcdbcdecdefdefgefghfghighijhijkijkljklmklmnlmnomnopnopq"))
    = "248d6a61d20638b8e5c026930c3e6039a33ce45964ff2167f6ecedd419db06c1" ∧
  nth 0 SHA256.K 0 = 0x428a2f98 ∧ nth 63 SHA256.K 0 = 0xc67178f2 ∧
  nth 0 SHA256.H0 0 = 0x6a09e667 ∧ nth 7 SHA256.H0 0 = 0x5be0cd19.
Proof. vm_compute. repeat split. Qed.

(** S1: the empty blob. *)
Lemma scenario_S1 :
  (put 0 [] (anit None None)).1 = Ok (0, SHA256.digest []) ∧
  get (SHA256.digest []) (put 0 [] (anit None None)).2 = Ok [] ∧
  size (SHA256.digest []) (put 0 [] (anit None None)).2 = Some 0.
Proof. vm_compute. repeat split. Qed.

(** S2: [b"abc"] put twice. *)
Lemma scenario_S2 :
  (put 0 abc (anit None None)).1 = Ok (3, SHA256.digest abc) ∧
  (put 1 abc (put 0 abc (anit None None)).2).1 = Ok (3, SHA256.digest abc) ∧
  file_count (axonmetrics (put 0 abc (anit None None)).2) = 1 ∧
  file_count (axonmetrics (put 1 abc (put 0 abc (anit None None)).2).2) = 1 ∧
  get (SHA256.digest abc) (put 1 abc (put 0 abc (anit None None)).2).2 = Ok [abc].
Proof. vm_compute. repeat split. Qed.

(** S4: delete, then delete again. *)
Lemma scenario_S4 :
  (del_ (SHA256.digest abc) (put 0 abc (anit None None)).2).1 = Ok true ∧
  (del_ (SHA256.digest abc)
     (del_ (SHA256.digest abc) (put 0 abc (anit None None)).2).2).1 = Ok false ∧
  has (SHA256.digest abc) (del_ (SHA256.digest abc) (put 0 abc (anit None None)).2).2 = false.
Proof. vm_compute. repeat split. Qed.

(** S5: [max:count = 1], a second, distinct blob. *)
Lemma scenario_S5 :
  (put 1 xyz full_store).1 = Raise (HitLimit "Axon is at file:count limit: 1") ∧
  file_count (axonmetrics (put 1 xyz full_store).2) = 1 ∧
  size_bytes (axonmetrics (put 1 xyz full_store).2) = len abc.
Proof. vm_compute. repeat split. Qed.

(** A 404 response stored by [wget] on an empty store: [ok] is true. *)
Lemma wget_404_example :
  match (wget nohash nohash nohash 0
           (Response "http://example.com/gone" 404 ∅ (genr_of [abc])) (anit None None)).1 with
  | Ok info =>
      info !! "ok" = Some (VBool true) ∧ info !! "code" = Some (VInt 404) ∧
      info !! "size" = Some (VInt 3) ∧
      match info !! "hashes" with
      | Some (VDict hashes) =>
          hashes !! "sha256" =
            Some "ba7816bf8f01cfea414140de5dae2223b00361a396177a9cb410ff61f20015ad"
      | _ => False
      end
  | _ => False
  end.
Proof. vm_compute. repeat split. Qed.

(** * The claims *)


(** C2, as stated, fails: at the limit, [save] of a digest that is present
    raises [HitLimit] and does not return the stored size. *)
Lemma C2_counterexample :
  has (SHA256.digest abc) full_store = true ∧
  at_limit full_store = true ∧
  save 1 (SHA256.digest abc) (genr_of [abc]) full_store =
    (Raise (HitLimit "Axon is at file:count limit: 1"), full_store).
Proof. vm_compute. repeat split. Qed.

(** C2, amended. In [save] the capacity check comes first: when a
    configured limit is reached [save] raises [HitLimit] and changes
    nothing, also for a digest that is present; when no limit is reached,
    [save] of a present digest returns the stored size and changes nothing;
    and [save] raises [HitLimit] (not coming from the producer) only when a
    limit is reached. *)
Theorem C2_limit_check_precedes_recheck (tick : Z) (D : bytes) (g : genr) (s : Axon) :
  wf s →
  (at_limit s = true → ∃ mesg, save tick D g s = (Raise (HitLimit mesg), s)) ∧
  (at_limit s = false → ∀ v, db_get D (sizes s) = Some v →
     save tick D g s = (Ok (from_bytes v), s)) ∧
  (∀ mesg s', save tick D g s = (Raise (HitLimit mesg), s') →
     genr_exc g ≠ Some (HitLimit mesg) → at_limit s = true ∧ s' = s).
Proof.
  intros Hwf. pose proof Hwf as (_ & _ & _ & Hq).
  split; [apply save_at_limit|]. split.
  - intros L v Hv. rewrite save_below_limit by assumption.
    rewrite (save_locked_present _ _ _ _ _ Hv). reflexivity.
  - intros mesg s' Hsave Hg. destruct (at_limit s) eqn:L.
    + destruct (save_at_limit tick D g s L) as [m Hm]. rewrite Hm in Hsave.
      injection Hsave as _ <-. auto.
    + exfalso. rewrite save_below_limit in Hsave by assumption.
      destruct (db_get D (sizes s)) as [v|] eqn:E.
      * rewrite (save_locked_present _ _ _ _ _ E) in Hsave. discriminate.
      * destruct (save_locked_absent_any tick D g s E) as (cs & Hres).
        destruct (save_locked tick D g s) as [[r|e|] s0]; try discriminate.
        injection Hsave as -> _. destruct Hres as ([?|?] & _); [discriminate|contradiction].
Qed.

Lemma C2_limit_check_precedes_recheck_witness :
  ∃ mesg, save 1 (SHA256.digest abc) (genr_of [abc]) full_store =
            (Raise (HitLimit mesg), full_store).
Proof.
  apply (C2_limit_check_precedes_recheck 1 (SHA256.digest abc) (genr_of [abc]) full_store).
  - apply wf_put, wf_anit.
  - vm_compute. reflexivity.
Defined.

(** C3. Idempotent save: when [put(B)] returns, it returns
    [(len(B), SHA-256(B))], and any number of further [put(B)] return the
    same pair and leave the whole state as the first call left it (no write
    to the chunk table, no change of the counters); the first call, for a
    [B] not yet stored, adds one size-index entry, the only one of its
    digest, writes the chunks of [B], and moves [file:count] by 1 and
    [size:bytes] by [len(B)]. *)
Theorem C3_idempotent_put (B : bytes) (tick : Z) (s : Axon) :
  wf s →
  (∀ r s1, put tick B s = (Ok r, s1) →
     r = (len B, SHA256.digest B) ∧
     ∀ ticks, puts ticks (replicate (length ticks) B) s1 =
                (Ok (replicate (length ticks) r), s1)) ∧
  (has (SHA256.digest B) s = false → at_limit s = false → len B < 2 ^ 64 →
     ∃ s1, put tick B s = (Ok (len B, SHA256.digest B), s1) ∧
       file_count (axonmetrics s1) = file_count (axonmetrics s) + 1 ∧
       size_bytes (axonmetrics s1) = size_bytes (axonmetrics s) + len B ∧
       db_count (sizes s1) = db_count (sizes s) + 1 ∧
       filter (fun kv => kv.1 = SHA256.digest B) (sizes s1) =
         [(SHA256.digest B, be_bytes 8 (len B))] ∧
       blobs s1 = write_chunks (SHA256.digest B) 0 (UpLoad.chunks B) (blobs s)).
Proof.
  intros Hwf. pose proof Hwf as (Hs & Hb & Hv & Hq).
  pose proof (chunks_length B) as Hcl. split.
  - intros r s1 Hput.
    assert (r = (len B, SHA256.digest B) ∧ has (SHA256.digest B) s1 = true) as [-> Hhas1].
    { destruct (has (SHA256.digest B) s) eqn:Hhas.
      - rewrite put_present in Hput by exact Hhas. injection Hput as <- <-. auto.
      - rewrite put_absent in Hput by exact Hhas. apply has_false in Hhas.
        destruct (at_limit s) eqn:L.
        { destruct (save_at_limit tick (SHA256.digest B) (genr_of (UpLoad.chunks B)) s L) as [m Hm].
          rewrite Hm in Hput. discriminate. }
        rewrite save_below_limit in Hput by assumption.
        destruct (save_locked_absent_any tick (SHA256.digest B) (genr_of (UpLoad.chunks B)) s Hhas)
          as (cs & Hres).
        destruct (save_locked tick _ _ s) as [[r0|e|] s0]; try discriminate.
        destruct Hres as (_ & _ & _ & ->). injection Hput as <- <-.
        split; [reflexivity|]. apply has_true. unfold saved. cbn [sizes].
        rewrite db_get_put_eq. eauto. }
    split; [reflexivity|]. intros ticks. apply puts_present. exact Hhas1.
  - intros Hhas L Hlen. rewrite put_absent by exact Hhas. apply has_false in Hhas.
    rewrite save_below_limit by assumption.
    rewrite save_locked_absent_of; [|exact Hhas|unfold len in Hlen; lia|rewrite chunks_total_len; exact Hlen].
    eexists. split; [reflexivity|]. unfold saved. cbn [sizes blobs axonmetrics file_count size_bytes].
    rewrite chunks_total_len.
    split; [reflexivity|]. split; [reflexivity|].
    split; [apply db_count_put_new; exact Hhas|].
    split; [|reflexivity].
    apply db_filter_key; [apply db_ok_put; exact Hs|apply db_get_put_eq].
Qed.

Lemma C3_idempotent_put_witness :
  ∃ s1, put 0 abc (anit None None) = (Ok (len abc, SHA256.digest abc), s1) ∧
    file_count (axonmetrics s1) = file_count (axonmetrics (anit None None)) + 1 ∧
    size_bytes (axonmetrics s1) = size_bytes (axonmetrics (anit None None)) + len abc ∧
    db_count (sizes s1) = db_count (sizes (anit None None)) + 1 ∧
    filter (fun kv => kv.1 = SHA256.digest abc) (sizes s1) =
      [(SHA256.digest abc, be_bytes 8 (len abc))] ∧
    blobs s1 = write_chunks (SHA256.digest abc) 0 (UpLoad.chunks abc) (blobs (anit None None)).
Proof.
  apply (C3_idempotent_put abc 0 (anit None None)).
  - apply wf_anit.
  - reflexivity.
  - reflexivity.
  - vm_compute. reflexivity.
Defined.

(** C4. Delete completeness: [del_] returns [False] exactly when the
    size-index has no entry for the digest, and then changes nothing; when
    it returns [True] the entry is popped, [file:count] goes down by 1 and
    [size:bytes] by the popped size, no chunk key with the digest as prefix
    remains, [has] is [False] and [get] raises [NoSuchFile]. *)
Theorem C4_delete_complete (D : bytes) (s : Axon) :
  wf s →
  ∃ b s', del_ D s = (Ok b, s') ∧
    (b = false ↔ db_get D (sizes s) = None) ∧
    (b = false → s' = s) ∧
    (b = true → ∃ v, db_get D (sizes s) = Some v ∧
       sizes s' = db_delete D (sizes s) ∧
       db_get D (sizes s') = None ∧
       file_count (axonmetrics s') = file_count (axonmetrics s) - 1 ∧
       size_bytes (axonmetrics s') = size_bytes (axonmetrics s) - from_bytes v ∧
       (∀ k v', D `prefix_of` k → (k, v') ∉ blobs s') ∧
       (∀ k, ¬ D `prefix_of` k → db_get k (blobs s') = db_get k (blobs s)) ∧
       has D s' = false ∧
       get D s' = Raise (NoSuchFile "Axon does not contain the requested file." (ehex D))).
Proof.
  intros Hwf. rewrite del_spec by exact Hwf.
  destruct (db_get D (sizes s)) as [v|] eqn:E.
  - exists true, (deleted D v s). split; [reflexivity|].
    split; [split; discriminate|]. split; [discriminate|].
    intros _. exists v. unfold deleted. cbn [sizes blobs axonmetrics file_count size_bytes].
    assert (Hhas : has D (deleted D v s) = false).
    { apply has_false. unfold deleted. cbn [sizes]. apply db_get_delete_eq. }
    repeat split; try reflexivity.
    + apply db_get_delete_eq.
    + intros k v' Hp. apply db_get_None_notin. rewrite db_get_sweep.
      rewrite decide_True by exact Hp. reflexivity.
    + intros k Hp. rewrite db_get_sweep. rewrite decide_False by exact Hp. reflexivity.
    + exact Hhas.
    + unfold get. fold (deleted D v s). rewrite Hhas. reflexivity.
  - exists false, s. split; [reflexivity|].
    split; [split; auto|]. split; [auto|discriminate].
Qed.

Lemma C4_delete_complete_witness :
  ∃ b s', del_ (SHA256.digest abc) full_store = (Ok b, s') ∧
    (b = false ↔ db_get (SHA256.digest abc) (sizes full_store) = None) ∧
    (b = false → s' = full_store) ∧
    (b = true → ∃ v, db_get (SHA256.digest abc) (sizes full_store) = Some v ∧
       sizes s' = db_delete (SHA256.digest abc) (sizes full_store) ∧
       db_get (SHA256.digest abc) (sizes s') = None ∧
       file_count (axonmetrics s') = file_count (axonmetrics full_store) - 1 ∧
       size_bytes (axonmetrics s') = size_bytes (axonmetrics full_store) - from_bytes v ∧
       (∀ k v', SHA256.digest abc `prefix_of` k → (k, v') ∉ blobs s') ∧
       (∀ k, ¬ SHA256.digest abc `prefix_of` k → db_get k (blobs s') = db_get k (blobs full_store)) ∧
       has (SHA256.digest abc) s' = false ∧
       get (SHA256.digest abc) s' =
         Raise (NoSuchFile "Axon does not contain the requested file." (ehex (SHA256.digest abc)))).
Proof.
  apply (C4_delete_complete (SHA256.digest abc) full_store).
  apply wf_put, wf_anit.
Defined.

(** C5. The code loses the count on the exception path: a [save] whose
    producer raises leaves the entry of the digest in [hashlocks] with
    count 1 and a free lock, although its only holder has exited; a later
    holder that exits normally brings the count back to 1, not to 0, so the
    entry is never removed. A [save] that ends normally leaves no entry. *)
Theorem C5_refcount_leak_on_exception :
  (save 0 (SHA256.digest abc) (genr_raising [abc] IsFini) (anit None None)).1 = Raise IsFini ∧
  hashlocks (save 0 (SHA256.digest abc) (genr_raising [abc] IsFini) (anit None None)).2
    !! SHA256.digest abc = Some (1, false) ∧
  hashlocks (del_ (SHA256.digest abc)
               (save 0 (SHA256.digest abc) (genr_raising [abc] IsFini) (anit None None)).2).2
    !! SHA256.digest abc = Some (1, false) ∧
  hashlocks (save 0 (SHA256.digest abc) (genr_of [abc]) (anit None None)).2
    !! SHA256.digest abc = None.
Proof. vm_compute. repeat split. Qed.

(** C6. The metrics invariant ([file:count] is the number of size-index
    entries, [size:bytes] the sum of their sizes) is kept by every [save],
    [del_] and [put] that returns: a [save] of a new digest adds one entry
    and moves the counters by 1 and by the size it returns; a [save] of a
    present digest changes nothing; a [del_] that returns [True] removes one
    entry and moves the counters down by 1 and by its size; a [del_] that
    returns [False] changes nothing. *)
Theorem C6_metrics_consistent (s : Axon) :
  wf s → consistent s →
  (∀ tick D g r s', save tick D g s = (Ok r, s') →
     consistent s' ∧
     ((db_get D (sizes s) = None ∧
       db_count (sizes s') = db_count (sizes s) + 1 ∧
       file_count (axonmetrics s') = file_count (axonmetrics s) + 1 ∧
       size_bytes (axonmetrics s') = size_bytes (axonmetrics s) + r ∧
       size D s' = Some r) ∨
      (is_Some (db_get D (sizes s)) ∧ s' = s))) ∧
  (∀ D b s', del_ D s = (Ok b, s') →
     consistent s' ∧
     (b = true → ∃ v, db_get D (sizes s) = Some v ∧
        db_count (sizes s') = db_count (sizes s) - 1 ∧
        file_count (axonmetrics s') = file_count (axonmetrics s) - 1 ∧
        size_bytes (axonmetrics s') = size_bytes (axonmetrics s) - from_bytes v) ∧
     (b = false → s' = s)) ∧
  (∀ tick B r s', put tick B s = (Ok r, s') → consistent s').
Proof.
  intros Hwf [Hc Hb]. pose proof Hwf as (Hs & Hbl & Hv & Hq).
  assert (Hsave : ∀ tick D g r s', save tick D g s = (Ok r, s') →
     consistent s' ∧
     ((db_get D (sizes s) = None ∧
       db_count (sizes s') = db_count (sizes s) + 1 ∧
       file_count (axonmetrics s') = file_count (axonmetrics s) + 1 ∧
       size_bytes (axonmetrics s') = size_bytes (axonmetrics s) + r ∧
       size D s' = Some r) ∨
      (is_Some (db_get D (sizes s)) ∧ s' = s))).
  { intros tick D g r s' Hsave. destruct (at_limit s) eqn:L.
    { destruct (save_at_limit tick D g s L) as [m Hm]. rewrite Hm in Hsave. discriminate. }
    rewrite save_below_limit in Hsave by assumption.
    destruct (db_get D (sizes s)) as [v|] eqn:E.
    - rewrite (save_locked_present _ _ _ _ _ E) in Hsave. injection Hsave as <- <-.
      split; [split; assumption|]. right. split; [eauto|reflexivity].
    - destruct (save_locked_absent_any tick D g s E) as (cs & Hres).
      destruct (save_locked tick D g s) as [[r0|e|] s0]; try discriminate.
      injection Hsave as -> ->. destruct Hres as (_ & -> & Hlt & ->).
      pose proof (total_len_nonneg cs) as Hnn.
      assert (Hfb : from_bytes (be_bytes 8 (total_len cs)) = total_len cs).
      { rewrite from_be_bytes by lia. apply Z.mod_small.
        change (256 ^ Z.of_nat 8) with (2 ^ 64). lia. }
      unfold consistent, size, saved. cbn [sizes axonmetrics file_count size_bytes].
      rewrite db_count_put_new, db_total_put_new, db_get_put_eq, Hfb by exact E.
      split; [split; lia|]. left. repeat split; lia. }
  split; [exact Hsave|]. split.
  - intros D b s' Hdel. rewrite del_spec in Hdel by exact Hwf.
    destruct (db_get D (sizes s)) as [v|] eqn:E; injection Hdel as <- <-.
    + unfold consistent, deleted. cbn [sizes axonmetrics file_count size_bytes].
      rewrite (db_count_delete D v), (db_total_delete D v) by assumption.
      split; [split; lia|]. split; [|discriminate].
      intros _. exists v. repeat split; lia.
    + split; [split; assumption|]. split; [discriminate|reflexivity].
  - intros tick B r s' Hput. destruct (has (SHA256.digest B) s) eqn:Hhas.
    + rewrite put_present in Hput by exact Hhas. injection Hput as _ <-. split; assumption.
    + rewrite put_absent in Hput by exact Hhas.
      destruct (save tick (SHA256.digest B) (genr_of (UpLoad.chunks B)) s) as [[r0|e|] s0] eqn:Hs0;
        try discriminate.
      injection Hput as _ <-. exact (proj1 (Hsave _ _ _ _ _ Hs0)).
Qed.

Lemma C6_metrics_consistent_witness : consistent (put 0 abc (anit None None)).2.
Proof.
  apply (proj2 (proj2 (C6_metrics_consistent (anit None None) (wf_anit None None)
                         (conj eq_refl eq_refl)))
           0 abc (len abc, SHA256.digest abc)).
  vm_compute. reflexivity.
Defined.

(** C7, as stated, fails: after a delete the offsets of [hashes(0)] are not
    dense from 0; here the only offset yielded is 1. *)
Lemma C7_counterexample :
  (hashes 0 gap_store).*1 = [1] ∧
  (hashes 0 gap_store).*1 ≠ seqZ 0 (Z.of_nat (length (hashes 0 gap_store))).
Proof. vm_compute. split; [reflexivity|discriminate]. Qed.

(** C7, amended. The offsets yielded by [hashes(offs)] are strictly
    increasing offsets of sequence entries, none below [offs]; those of
    [hashes(0)] are exactly 0, 1, 2, ... when every digest of the sequence
    still has its size-index entry. Entries of deleted blobs are skipped,
    which leaves gaps. *)
Theorem C7_hashes_offsets (s : Axon) (offs : Z) :
  StronglySorted Z.lt (hashes offs s).*1 ∧
  (∀ o, o ∈ (hashes offs s).*1 → offs ≤ o ∧ 0 ≤ o < Z.of_nat (length (axonseqn s))) ∧
  ((∀ item, item ∈ axonseqn s → db_has item.1 (sizes s) = true) →
     (hashes 0 s).*1 = seqZ 0 (Z.of_nat (length (axonseqn s)))).
Proof.
  split; [|split].
  - eapply StronglySorted_sublist; [|apply StronglySorted_seqZ].
    etransitivity; [|apply seqn_iter_offsets].
    unfold hashes. apply fmap_sublist, sublist_filter.
  - intros o Ho. apply list_elem_of_fmap in Ho as ([o' item] & -> & Hin).
    unfold hashes in Hin. apply list_elem_of_filter in Hin as [_ Hin].
    unfold seqn_iter in Hin. apply list_elem_of_filter in Hin as [Hle Hin].
    apply elem_of_zip_l in Hin. apply elem_of_seqZ in Hin. cbn in *. lia.
  - intros Hall. unfold hashes, seqn_iter.
    rewrite (filter_all (fun oi => 0 ≤ oi.1)).
    + rewrite filter_all; [apply fst_zip; rewrite length_seqZ; lia|].
      apply Forall_forall. intros [o item] Hin. apply elem_of_zip_r in Hin.
      apply (Hall item Hin).
    + apply Forall_forall. intros [o item] Hin. apply elem_of_zip_l in Hin.
      apply elem_of_seqZ in Hin. cbn. lia.
Qed.

Lemma C7_hashes_offsets_witness :
  (hashes 0 full_store).*1 = seqZ 0 (Z.of_nat (length (axonseqn full_store))).
Proof.
  apply (C7_hashes_offsets full_store 0).
  intros item Hin. vm_compute in Hin.
  apply list_elem_of_singleton in Hin. subst item. vm_compute. reflexivity.
Defined.

(** C8. Partial-save atomicity: when the producer raises after some
    chunks, [save] of an absent digest raises that exception, having written
    only chunks: the size-index, the sequence, the history and the counters
    are as before and [has] is still [False]. A complete [save] of the
    digest afterwards returns the size, makes [has] true, and moves the
    counters once; when it carries the same content (the chunks written
    before are a prefix of it) over a table that held nothing under the
    digest, [get] yields exactly its chunks. *)
Theorem C8_partial_save (tick : Z) (D : bytes) (cs : list bytes) (e : exc) (s : Axon) :
  wf s → has D s = false → at_limit s = false → Z.of_nat (length cs) ≤ 2 ^ 64 →
  ∃ s', save tick D (genr_raising cs e) s = (Raise e, s') ∧
    sizes s' = sizes s ∧ axonseqn s' = axonseqn s ∧ axonhist s' = axonhist s ∧
    axonmetrics s' = axonmetrics s ∧ has D s' = false ∧
    blobs s' = write_chunks D 0 cs (blobs s) ∧
    ∀ tick' cs', Z.of_nat (length cs') ≤ 2 ^ 64 → total_len cs' < 2 ^ 64 →
      ∃ s'', save tick' D (genr_of cs') s' = (Ok (total_len cs'), s'') ∧
        has D s'' = true ∧ size D s'' = Some (total_len cs') ∧
        file_count (axonmetrics s'') = file_count (axonmetrics s) + 1 ∧
        size_bytes (axonmetrics s'') = size_bytes (axonmetrics s) + total_len cs' ∧
        (cs `prefix_of` cs' →
         (∀ k v, db_get k (blobs s) = Some v → ¬ D `prefix_of` k) →
         get D s'' = Ok cs').
Proof.
  intros Hwf Hhas L Hlen. pose proof Hwf as (Hs & Hb & Hv & Hq).
  pose proof (wf_save tick D (genr_raising cs e) s Hwf) as Hwf'.
  pose proof Hhas as Habs. apply has_false in Habs.
  rewrite save_below_limit in * by assumption.
  rewrite save_locked_absent_raising in * by assumption.
  eexists. split; [reflexivity|]. cbn [snd] in Hwf'.
  set (s' := set_hashlocks (hashlocks_leak D) (set_blobs (write_chunks D 0 cs) s)) in *.
  assert (Habs' : db_get D (sizes s') = None) by exact Habs.
  repeat split; try reflexivity; [exact Hhas|].
  intros tick' cs' Hlen' Htot. destruct Hwf' as (Hs' & Hb' & Hv' & Hq').
  rewrite save_below_limit by assumption.
  rewrite save_locked_absent_of by assumption.
  eexists. split; [reflexivity|].
  pose proof (total_len_nonneg cs') as Hnn.
  assert (Hfb : from_bytes (be_bytes 8 (total_len cs')) = total_len cs').
  { rewrite from_be_bytes by lia. apply Z.mod_small.
    change (256 ^ Z.of_nat 8) with (2 ^ 64). lia. }
  assert (Hhas'' : has D (saved tick' D cs' s') = true).
  { apply has_true. unfold saved. cbn [sizes]. rewrite db_get_put_eq. eauto. }
  split; [exact Hhas''|]. split.
  { unfold size, saved. cbn [sizes]. rewrite db_get_put_eq, Hfb. reflexivity. }
  split; [reflexivity|]. split; [reflexivity|].
  intros Hpre Hclean. unfold get. rewrite Hhas''. cbn [negb]. f_equal.
  unfold _get, saved. cbn [blobs]. apply get_after_write; [exact Hb'|exact Hlen'|].
  intros k v Hg Hp. unfold s' in Hg. cbn [blobs set_hashlocks set_blobs] in Hg.
  apply db_get_write_chunks_cases in Hg as [(j & Hj & ->)|Hg].
  - exists j. rewrite Z.add_0_l. split; [|reflexivity].
    eapply prefix_lookup_Some; eassumption.
  - exfalso. exact (Hclean _ _ Hg Hp).
Qed.

Lemma C8_partial_save_witness :
  ∃ s', save 0 (SHA256.digest abc) (genr_raising [abc] CancelledError) (anit None None)
          = (Raise CancelledError, s') ∧
    sizes s' = sizes (anit None None) ∧ has (SHA256.digest abc) s' = false.
Proof.
  destruct (C8_partial_save 0 (SHA256.digest abc) [abc] CancelledError (anit None None))
    as (s' & H1 & H2 & _ & _ & _ & H3 & _).
  - apply wf_anit.
  - reflexivity.
  - reflexivity.
  - vm_compute. discriminate.
  - exists s'. auto.
Defined.

(** C9, as stated, fails: at the limit, an HTTP exchange that completes
    (here with status 404) gives a result with [ok] false, the [HitLimit] of
    the save folded into [mesg]. *)
Lemma C9_counterexample :
  match (wget nohash nohash nohash 5
           (Response "http://example.com/gone" 404 ∅ (genr_of [xyz])) full_store).1 with
  | Ok info =>
      info !! "ok" = Some (VBool false) ∧
      info !! "mesg" = Some (VStr "HitLimit: mesg='Axon is at file:count limit: 1'") ∧
      info !! "url" = None
  | _ => False
  end.
Proof. vm_compute. repeat split. Qed.

(** C9, amended. [wget] returns [ok] true with [url], [code], [headers],
    the stored size and the four hex digests of the body whenever the HTTP
    exchange completes and the save of the body returns, whatever the
    status code; any exception other than [CancelledError] raised by the
    request, by the body stream or by the save of the body (so also
    [HitLimit]) gives [{ok: False, mesg}] and is not raised;
    [CancelledError] is raised again. *)
Theorem C9_wget_result (md5 sha1 sha512 : bytes → bytes) (tick : Z) (s : Axon) :
  (∀ s0, wget_except CancelledError s0 = (Raise CancelledError, s0)) ∧
  (∀ e s0, e ≠ CancelledError → ∃ mesg,
     wget_except e s0 = (Ok (<["mesg" := VStr mesg]> {["ok" := VBool false]}), s0)) ∧
  (∀ e, wget md5 sha1 sha512 tick (RequestRaises e) s = wget_except e s) ∧
  (∀ url code headers cs e,
     wget md5 sha1 sha512 tick (Response url code headers (genr_raising cs e)) s =
       wget_except e s) ∧
  (∀ url code headers cs,
     match put tick (concat cs) s with
     | (Ok r, s') =>
         ∃ info hashes,
           wget md5 sha1 sha512 tick (Response url code headers (genr_of cs)) s = (Ok info, s') ∧
           info !! "ok" = Some (VBool true) ∧
           info !! "url" = Some (VStr url) ∧
           info !! "code" = Some (VInt code) ∧
           info !! "headers" = Some (VDict headers) ∧
           info !! "size" = Some (VInt (len (concat cs))) ∧
           info !! "hashes" = Some (VDict hashes) ∧
           hashes !! "md5" = Some (ehex (md5 (concat cs))) ∧
           hashes !! "sha1" = Some (ehex (sha1 (concat cs))) ∧
           hashes !! "sha256" = Some (ehex (SHA256.digest (concat cs))) ∧
           hashes !! "sha512" = Some (ehex (sha512 (concat cs)))
     | (Raise e, s') =>
         wget md5 sha1 sha512 tick (Response url code headers (genr_of cs)) s = wget_except e s'
     | (Wait, s') =>
         wget md5 sha1 sha512 tick (Response url code headers (genr_of cs)) s = (Wait, s')
     end).
Proof.
  split; [reflexivity|]. split.
  { intros e s0 He. destruct e; try contradiction; eexists; reflexivity. }
  split; [reflexivity|]. split.
  { intros url code headers cs e. unfold wget. rewrite wget_feed_raising. reflexivity. }
  intros url code headers cs. unfold wget. rewrite wget_feed_of.
  cbn [UpLoad.anit UpLoad.fd UpLoad.size UpLoad.sha256 UpLoad.isfini app].
  rewrite Z.add_0_l. unfold total_len. rewrite upload_save_put.
  destruct (put tick (concat cs) s) as [[r|e|] s'] eqn:E; try reflexivity.
  apply put_result in E. subst r. eexists. eexists. split; [reflexivity|].
  cbn [fst snd hashset_digests foldl].
  repeat split; reflexivity.
Qed.

(** C10. The stored empty blob can be deleted: [save] writes the size 0
    as eight zero bytes, which Python's truth test takes as present, so
    [del_] of a digest with that entry returns [True], removes the entry,
    takes 1 off [file:count] and 0 off [size:bytes]. *)
Theorem C10_delete_empty_blob (D : bytes) (s : Axon) :
  registry_quiet (hashlocks s) →
  db_get D (sizes s) = Some (repeat x00 8) →
  to_bytes 0 8 = Some (repeat x00 8) ∧
  falsy (Some (repeat x00 8)) = false ∧
  ∃ s', del_ D s = (Ok true, s') ∧
    db_get D (sizes s') = None ∧ has D s' = false ∧
    file_count (axonmetrics s') = file_count (axonmetrics s) - 1 ∧
    size_bytes (axonmetrics s') = size_bytes (axonmetrics s) - 0.
Proof.
  intros Hq Hg. split; [reflexivity|]. split; [reflexivity|].
  rewrite del_quiet by exact Hq.
  rewrite (del_locked_present D _ s Hg) by discriminate.
  eexists. split; [reflexivity|]. unfold deleted, has.
  cbn [sizes axonmetrics file_count size_bytes].
  rewrite db_get_delete_eq. repeat split.
Qed.

Lemma C10_delete_empty_blob_witness :
  ∃ s', del_ (SHA256.digest []) empty_blob_store = (Ok true, s') ∧
    db_get (SHA256.digest []) (sizes s') = None ∧ has (SHA256.digest []) s' = false ∧
    file_count (axonmetrics s') = file_count (axonmetrics empty_blob_store) - 1 ∧
    size_bytes (axonmetrics s') = size_bytes (axonmetrics empty_blob_store) - 0.
Proof.
  apply (C10_delete_empty_blob (SHA256.digest []) empty_blob_store).
  - intros h n l H. vm_compute in H. discriminate.
  - vm_compute. reflexivity.
Defined.

(** * Further properties of the code *)

(** ** Every outcome of [save] *)

Lemma save_locked_absent_state (tick : Z) (D : bytes) (g : genr) (s : Axon) :
  db_get D (sizes s) = None →
  ∃ cs, cs `prefix_of` genr_chunks g ∧
    ((save_locked tick D g s = (Ok (total_len cs), saved tick D cs s) ∧
      g = genr_of cs ∧ total_len cs < 2 ^ 64) ∨
     (∃ e, save_locked tick D g s = (Raise e, set_blobs (write_chunks D 0 cs) s) ∧
           (e = OverflowError ∨ genr_exc g = Some e)) ∨
     (save_locked tick D g s = (Raise OverflowError, overflowed tick D cs s) ∧
      g = genr_of cs ∧ 2 ^ 64 ≤ total_len cs)).
Proof.
  intros H. remember (save_locked tick D g s) as X eqn:HX.
  unfold save_locked, _saveFileGenr, bind at 1, gets in HX. rewrite H in HX.
  unfold bind at 1 in HX.
  destruct (saveFileGenr_from_any D g 0 0 s) as (cs & Hst & Hres & Hpre).
  exists cs. split; [exact Hpre|].
  destruct (_saveFileGenr_from D 0 0 g s) as [[r|e|] s1]; simpl in Hst, Hres; subst s1.
  - destruct Hres as [-> ->]. rewrite Z.add_0_l in HX.
    destruct (to_bytes (total_len cs) 8) as [sb|] eqn:E.
    + apply to_bytes_Some in E as (-> & Hr & _).
      change (256 ^ Z.of_nat 8) with (2 ^ 64) in Hr.
      left. split; [exact HX|]. split; [reflexivity|lia].
    + right. right. split; [exact HX|]. split; [reflexivity|].
      pose proof (total_len_nonneg cs).
      destruct (Z.lt_ge_cases (total_len cs) (2 ^ 64)) as [Hlt|Hge]; [|exact Hge].
      rewrite to_bytes_in_range in E; [discriminate|].
      change (256 ^ Z.of_nat 8) with (2 ^ 64). lia.
  - right. left. exists e. split; [exact HX|exact Hres].
  - contradiction.
Qed.

(** [save] from a well-formed state: it changes nothing (limit reached, or
    digest present), or it stores a new blob, or it raises after writing
    chunks only, or (sizes of [2^64] bytes and more) after all but the
    size-index entry. It never waits. *)
Lemma save_outcomes (tick : Z) (D : bytes) (g : genr) (s : Axon) :
  wf s →
  (∃ r, save tick D g s = (r, s) ∧ r ≠ Wait ∧
        (at_limit s = true ∨ is_Some (db_get D (sizes s)))) ∨
  (at_limit s = false ∧ db_get D (sizes s) = None ∧
   ∃ cs, cs `prefix_of` genr_chunks g ∧
     ((save tick D g s = (Ok (total_len cs), saved tick D cs s) ∧
       g = genr_of cs ∧ total_len cs < 2 ^ 64) ∨
      (∃ e, save tick D g s =
              (Raise e, set_hashlocks (hashlocks_leak D) (set_blobs (write_chunks D 0 cs) s)) ∧
            (e = OverflowError ∨ genr_exc g = Some e)) ∨
      (save tick D g s =
         (Raise OverflowError, set_hashlocks (hashlocks_leak D) (overflowed tick D cs s)) ∧
       g = genr_of cs ∧ 2 ^ 64 ≤ total_len cs))).
Proof.
  intros Hwf. pose proof Hwf as (_ & _ & _ & Hq).
  destruct (at_limit s) eqn:L.
  { left. destruct (save_at_limit tick D g s L) as [m Hm].
    eexists. split; [exact Hm|]. split; [discriminate|auto]. }
  rewrite save_below_limit by assumption.
  destruct (db_get D (sizes s)) as [v|] eqn:E.
  { left. rewrite (save_locked_present _ _ _ _ _ E).
    eexists. split; [reflexivity|]. split; [discriminate|eauto]. }
  right. split; [reflexivity|]. split; [reflexivity|].
  destruct (save_locked_absent_state tick D g s E) as (cs & Hpre & Hc).
  exists cs. split; [exact Hpre|].
  destruct Hc as [(-> & Hg & Hlt)|[(e & -> & He)|(-> & Hg & Hge)]]; eauto 10.
Qed.

Lemma result_state {A} (m : M A) (s : Axon) (a : A) :
  (m s).1 = Ok a → m s = (Ok a, (m s).2).
Proof. intros H. rewrite <- H. apply surjective_pairing. Qed.

Lemma digest_xyz_abc : SHA256.digest xyz ≠ SHA256.digest abc.
Proof.
  apply (bool_decide_eq_false_1 (SHA256.digest xyz = SHA256.digest abc)).
  vm_compute. reflexivity.
Qed.

Lemma save_never_waits (tick : Z) (D : bytes) (g : genr) (s : Axon) :
  wf s → (save tick D g s).1 ≠ Wait.
Proof.
  intros Hwf.
  destruct (save_outcomes tick D g s Hwf)
    as [(r & -> & Hr & _)|(_ & _ & cs & _ & [(-> & _)|[(e & -> & _)|(-> & _)]])];
    try discriminate. exact Hr.
Qed.

Lemma put_never_waits (tick : Z) (B : bytes) (s : Axon) :
  wf s → (put tick B s).1 ≠ Wait.
Proof.
  intros Hwf. destruct (has (SHA256.digest B) s) eqn:E.
  - rewrite put_present by exact E. discriminate.
  - rewrite put_absent by exact E.
    pose proof (save_never_waits tick (SHA256.digest B) (genr_of (UpLoad.chunks B)) s Hwf) as H.
    destruct (save tick _ _ s) as [[r|e|] s']; [discriminate|discriminate|contradiction].
Qed.

Lemma wf_run_call (c : call) (s : Axon) : wf s → wf (run_call c s).
Proof.
  intros Hwf. destruct c; cbn [run_call]; [apply wf_save|apply wf_put|apply wf_del]; exact Hwf.
Qed.

Lemma wf_run_calls (cs : list call) (s : Axon) : wf s → wf (run_calls cs s).
Proof.
  revert s. induction cs as [|c cs IH]; intros s Hwf; [exact Hwf|].
  cbn [run_calls]. apply IH, wf_run_call, Hwf.
Qed.

(** ** Well-formedness is kept *)

(** X1. From a well-formed state, [save], [put] and [del_] leave a
    well-formed state whatever they return or raise: both tables stay in key
    order, every size-index value is an 8-byte size, and every hash lock is
    free again. None of them is left waiting on a lock. *)
Theorem X1_wellformed_kept (tick : Z) (D : bytes) (g : genr) (B : bytes) (s : Axon) :
  wf s →
  (wf (save tick D g s).2 ∧ (save tick D g s).1 ≠ Wait) ∧
  (wf (put tick B s).2 ∧ (put tick B s).1 ≠ Wait) ∧
  (wf (del_ D s).2 ∧ (del_ D s).1 ≠ Wait).
Proof.
  intros Hwf. split; [split|split; [split|split]].
  - apply wf_save, Hwf.
  - apply save_never_waits, Hwf.
  - apply wf_put, Hwf.
  - apply put_never_waits, Hwf.
  - apply wf_del, Hwf.
  - rewrite del_spec by exact Hwf. destruct (db_get D (sizes s)); discriminate.
Qed.

Lemma X1_wellformed_kept_witness :
  wf (save 1 (SHA256.digest xyz) (genr_raising [xyz] IsFini) (anit None None)).2 ∧
  (save 1 (SHA256.digest xyz) (genr_raising [xyz] IsFini) (anit None None)).1 ≠ Wait.
Proof.
  apply (X1_wellformed_kept 1 (SHA256.digest xyz) (genr_raising [xyz] IsFini) xyz
           (anit None None)).
  apply wf_anit.
Defined.

(** ** Limits *)

(** X2. At a reached limit, [put] of content that is not stored raises
    [HitLimit] and changes nothing, while [put] of content that is already
    stored still returns its size and digest (the early return of
    [UpLoad.save] comes before the capacity check of [Axon.save]). *)
Theorem X2_put_at_limit (tick : Z) (B : bytes) (s : Axon) :
  at_limit s = true →
  (has (SHA256.digest B) s = false → ∃ mesg, put tick B s = (Raise (HitLimit mesg), s)) ∧
  (has (SHA256.digest B) s = true → put tick B s = (Ok (len B, SHA256.digest B), s)).
Proof.
  intros L. split.
  - intros H. rewrite put_absent by exact H.
    destruct (save_at_limit tick (SHA256.digest B) (genr_of (UpLoad.chunks B)) s L) as [m ->].
    eauto.
  - apply put_present.
Qed.

Lemma X2_put_at_limit_witness :
  (∃ mesg, put 1 xyz full_store = (Raise (HitLimit mesg), full_store)) ∧
  put 1 abc full_store = (Ok (len abc, SHA256.digest abc), full_store).
Proof.
  assert (L : at_limit full_store = true) by (vm_compute; reflexivity).
  split.
  - apply (proj1 (X2_put_at_limit 1 xyz full_store L)). vm_compute. reflexivity.
  - apply (proj2 (X2_put_at_limit 1 abc full_store L)). vm_compute. reflexivity.
Defined.

Lemma at_limit_false (s : Axon) :
  at_limit s = false →
  reached (maxbytes s) (size_bytes (axonmetrics s)) = false ∧
  reached (maxcount s) (file_count (axonmetrics s)) = false.
Proof. unfold at_limit. apply orb_false_elim. Qed.

Lemma count_bound_call (M : Z) (c : call) (s : Axon) :
  wf s → maxcount s = Some M → file_count (axonmetrics s) ≤ M →
  maxcount (run_call c s) = Some M ∧ file_count (axonmetrics (run_call c s)) ≤ M.
Proof.
  intros Hwf Hm Hc.
  assert (Hsave : ∀ tick D g,
    maxcount (save tick D g s).2 = Some M ∧ file_count (axonmetrics (save tick D g s).2) ≤ M).
  { intros tick D g.
    destruct (save_outcomes tick D g s Hwf)
      as [(r & -> & _)|(L & _ & cs & _ & [(-> & _)|[(e & -> & _)|(-> & _)]])];
      cbn; try (split; [assumption|]); try assumption.
    - apply at_limit_false in L as [_ L]. rewrite Hm in L. cbn in L.
      apply Z.leb_gt in L. lia.
    - apply at_limit_false in L as [_ L]. rewrite Hm in L. cbn in L.
      apply Z.leb_gt in L. lia. }
  destruct c as [tick D g|tick B|D]; cbn [run_call].
  - apply Hsave.
  - destruct (has (SHA256.digest B) s) eqn:E.
    + rewrite put_present by exact E. auto.
    + rewrite put_absent by exact E.
      specialize (Hsave tick (SHA256.digest B) (genr_of (UpLoad.chunks B))).
      destruct (save tick _ _ s) as [[r|e|] s']; exact Hsave.
  - rewrite del_spec by exact Hwf.
    destruct (db_get D (sizes s)); cbn; split; try assumption. lia.
Qed.

(** X3. The count limit is never exceeded: from a well-formed state with
    [max:count = M] and [file:count <= M], after any calls of [save], [put]
    and [del_], whatever they return or raise, [file:count <= M] still. *)
Theorem X3_count_limit_kept (M : Z) (cs : list call) (s : Axon) :
  wf s → maxcount s = Some M → file_count (axonmetrics s) ≤ M →
  file_count (axonmetrics (run_calls cs s)) ≤ M.
Proof.
  revert s. induction cs as [|c cs IH]; intros s Hwf Hm Hc; [exact Hc|].
  cbn [run_calls]. destruct (count_bound_call M c s Hwf Hm Hc) as [Hm' Hc'].
  apply IH; [apply wf_run_call; exact Hwf|exact Hm'|exact Hc'].
Qed.

Lemma X3_count_limit_kept_witness :
  file_count (axonmetrics
    (run_calls [CPut 0 abc; CPut 1 xyz; CDel (SHA256.digest abc); CPut 2 xyz; CPut 3 abc]
       (anit None (Some 1)))) ≤ 1.
Proof.
  apply (X3_count_limit_kept 1 _ (anit None (Some 1))).
  - apply wf_anit.
  - reflexivity.
  - vm_compute. discriminate.
Defined.

(** ** The counters over runs *)

Lemma consistent_saved (tick : Z) (D : bytes) (cs : list bytes) (s : Axon) :
  consistent s → db_get D (sizes s) = None → total_len cs < 2 ^ 64 →
  consistent (saved tick D cs s).
Proof.
  intros [Hc Hb] E Hlt. pose proof (total_len_nonneg cs) as Hnn.
  assert (Hfb : from_bytes (be_bytes 8 (total_len cs)) = total_len cs).
  { rewrite from_be_bytes by lia. apply Z.mod_small.
    change (256 ^ Z.of_nat 8) with (2 ^ 64). lia. }
  unfold consistent, saved. cbn [sizes axonmetrics file_count size_bytes].
  rewrite db_count_put_new, db_total_put_new, Hfb by exact E. lia.
Qed.

Lemma consistent_deleted (D v : bytes) (s : Axon) :
  wf s → consistent s → db_get D (sizes s) = Some v → consistent (deleted D v s).
Proof.
  intros (Hs & _) [Hc Hb] E.
  unfold consistent, deleted. cbn [sizes axonmetrics file_count size_bytes].
  rewrite (db_count_delete D v), (db_total_delete D v) by assumption. lia.
Qed.

Lemma consistent_save (tick : Z) (D : bytes) (g : genr) (s : Axon) :
  wf s → consistent s → total_len (genr_chunks g) < 2 ^ 64 →
  consistent (save tick D g s).2.
Proof.
  intros Hwf Hc Hlt.
  destruct (save_outcomes tick D g s Hwf)
    as [(r & -> & _)|(L & E & cs & _ & [(-> & _ & Hl)|[(e & -> & _)|(-> & Hg & Hge)]])];
    cbn [snd].
  - exact Hc.
  - apply consistent_saved; assumption.
  - exact Hc.
  - subst g. rewrite genr_of_chunks in Hlt. lia.
Qed.

Lemma consistent_call (c : call) (s : Axon) :
  wf s → consistent s → call_bytes c < 2 ^ 64 → consistent (run_call c s).
Proof.
  intros Hwf Hc Hlt. destruct c as [tick D g|tick B|D]; cbn [run_call call_bytes] in *.
  - apply consistent_save; assumption.
  - destruct (has (SHA256.digest B) s) eqn:E.
    + rewrite put_present by exact E. exact Hc.
    + rewrite put_absent by exact E.
      pose proof (consistent_save tick (SHA256.digest B) (genr_of (UpLoad.chunks B)) s Hwf Hc) as H.
      rewrite genr_of_chunks, chunks_total_len in H. specialize (H Hlt).
      destruct (save tick _ _ s) as [[r|e|] s']; exact H.
  - rewrite del_spec by exact Hwf.
    destruct (db_get D (sizes s)) as [v|] eqn:E; [|exact Hc].
    apply consistent_deleted; assumption.
Qed.

Lemma consistent_run_calls (cs : list call) (s : Axon) :
  wf s → consistent s → Forall (fun c => call_bytes c < 2 ^ 64) cs →
  consistent (run_calls cs s).
Proof.
  revert s. induction cs as [|c cs IH]; intros s Hwf Hc Hall; [exact Hc|].
  apply Forall_cons in Hall as [Hlt Hall]. cbn [run_calls].
  apply IH; [apply wf_run_call; exact Hwf| |exact Hall].
  apply consistent_call; assumption.
Qed.

(** X4. The counters never drift: from a well-formed state where
    [file:count] is the number of size-index entries and [size:bytes] the sum
    of their sizes, both still hold after any calls of [save], [put] and
    [del_], whatever they return or raise (a producer that fails, a reached
    limit), as long as no call brings [2^64] bytes or more. *)
Theorem X4_counters_never_drift (cs : list call) (s : Axon) :
  wf s → consistent s → Forall (fun c => call_bytes c < 2 ^ 64) cs →
  consistent (run_calls cs s).
Proof. apply consistent_run_calls. Qed.

Lemma X4_counters_never_drift_witness :
  consistent
    (run_calls [CPut 0 abc; CSave 1 (SHA256.digest xyz) (genr_raising [xyz] IsFini);
                CDel (SHA256.digest abc); CPut 2 xyz]
       (anit None None)).
Proof.
  apply (X4_counters_never_drift _ (anit None None)).
  - apply wf_anit.
  - split; reflexivity.
  - repeat constructor.
Defined.

Lemma from_bytes_nonneg (b : bytes) : 0 ≤ from_bytes b.
Proof.
  unfold from_bytes. assert (H : ∀ acc, 0 ≤ acc →
    0 ≤ fold_left (fun acc x => acc * 256 + byte_val x) b acc).
  { induction b as [|x b IH]; intros acc Hacc; [exact Hacc|].
    cbn [fold_left]. apply IH. pose proof (byte_val_range x). lia. }
  apply H. lia.
Qed.

Lemma bytes_bound_call (M K : Z) (c : call) (s : Axon) :
  wf s → maxbytes s = Some M → call_bytes c ≤ K →
  size_bytes (axonmetrics s) < M + K →
  maxbytes (run_call c s) = Some M ∧ size_bytes (axonmetrics (run_call c s)) < M + K.
Proof.
  intros Hwf Hm Hk Hc.
  assert (Hsave : ∀ tick D g, total_len (genr_chunks g) ≤ K →
    maxbytes (save tick D g s).2 = Some M ∧
    size_bytes (axonmetrics (save tick D g s).2) < M + K).
  { intros tick D g Hg.
    destruct (save_outcomes tick D g s Hwf)
      as [(r & -> & _)|(L & _ & cs & _ & [(-> & -> & _)|[(e & -> & _)|(-> & -> & _)]])];
      cbn; try (split; [assumption|]); try assumption.
    - rewrite genr_of_chunks in Hg.
      apply at_limit_false in L as [L _]. rewrite Hm in L. cbn in L.
      apply Z.leb_gt in L. lia.
    - rewrite genr_of_chunks in Hg.
      apply at_limit_false in L as [L _]. rewrite Hm in L. cbn in L.
      apply Z.leb_gt in L. lia. }
  destruct c as [tick D g|tick B|D]; cbn [run_call call_bytes] in *.
  - apply Hsave. exact Hk.
  - destruct (has (SHA256.digest B) s) eqn:E.
    + rewrite put_present by exact E. auto.
    + rewrite put_absent by exact E.
      specialize (Hsave tick (SHA256.digest B) (genr_of (UpLoad.chunks B))).
      rewrite genr_of_chunks, chunks_total_len in Hsave. specialize (Hsave Hk).
      destruct (save tick _ _ s) as [[r|e|] s']; exact Hsave.
  - rewrite del_spec by exact Hwf.
    destruct (db_get D (sizes s)) as [v|]; cbn; split; try assumption.
    pose proof (from_bytes_nonneg v). lia.
Qed.

(** X5. The size limit is overshot by less than one blob: from a
    well-formed state with [max:bytes = M], if no call brings more than [K]
    bytes and [size:bytes < M + K], then [size:bytes < M + K] still after
    any calls of [save], [put] and [del_], whatever they return or raise
    (the limit is checked before the write, against the bytes counted so
    far). *)
Theorem X5_bytes_limit_overshoot (M K : Z) (cs : list call) (s : Axon) :
  wf s → maxbytes s = Some M → Forall (fun c => call_bytes c ≤ K) cs →
  size_bytes (axonmetrics s) < M + K →
  size_bytes (axonmetrics (run_calls cs s)) < M + K.
Proof.
  revert s. induction cs as [|c cs IH]; intros s Hwf Hm Hall Hc; [exact Hc|].
  apply Forall_cons in Hall as [Hk Hall]. cbn [run_calls].
  destruct (bytes_bound_call M K c s Hwf Hm Hk Hc) as [Hm' Hc'].
  apply IH; [apply wf_run_call; exact Hwf|exact Hm'|exact Hall|exact Hc'].
Qed.

Lemma X5_bytes_limit_overshoot_witness :
  size_bytes (axonmetrics
    (run_calls [CPut 0 abc; CPut 1 xyz; CPut 2 []; CDel (SHA256.digest abc)]
       (anit (Some 4) None))) < 4 + 3.
Proof.
  apply (X5_bytes_limit_overshoot 4 3 _ (anit (Some 4) None)).
  - apply wf_anit.
  - reflexivity.
  - repeat constructor; vm_compute; discriminate.
  - reflexivity.
Defined.

(** ** The chunks of an upload *)

Lemma read_len (n : Z) (l : bytes) :
  0 ≤ n → len (UpLoad.read n l).1 = Z.min n (len l).
Proof.
  revert n. induction l as [|x l IH]; intros n Hn; cbn [UpLoad.read].
  - unfold len. cbn [fst length]. lia.
  - destruct (Z.leb_spec n 0).
    + unfold len. cbn [fst length]. lia.
    + specialize (IH (n - 1) ltac:(lia)).
      destruct (UpLoad.read (n - 1) l) as [a b]. cbn [fst] in *.
      unfold len in *. rewrite !length_cons. lia.
Qed.

Lemma chunks_from_nil (fuel : nat) : UpLoad.chunks_from fuel [] = [].
Proof. destruct fuel; reflexivity. Qed.

Lemma chunks_from_shape (fuel : nat) (l : bytes) :
  (length l < fuel)%nat →
  Forall (fun c => 0 < len c ≤ CHUNK_SIZE) (UpLoad.chunks_from fuel l) ∧
  (∀ i c, UpLoad.chunks_from fuel l !! i = Some c →
     (S i < length (UpLoad.chunks_from fuel l))%nat → len c = CHUNK_SIZE) ∧
  Z.of_nat (length (UpLoad.chunks_from fuel l)) = (len l + CHUNK_SIZE - 1) / CHUNK_SIZE.
Proof.
  pose proof CHUNK_SIZE_pos as HC.
  revert l. induction fuel as [|fuel IH]; intros l Hl; [lia|].
  cbn [UpLoad.chunks_from].
  pose proof (read_app CHUNK_SIZE l) as Happ.
  pose proof (read_len CHUNK_SIZE l ltac:(lia)) as Hlen.
  pose proof (read_nonempty CHUNK_SIZE l HC) as Hne.
  destruct (UpLoad.read CHUNK_SIZE l) as [a b]. cbn [fst snd] in *.
  destruct a as [|x a].
  - rewrite (Hne eq_refl). split; [constructor|]. split.
    + intros i c H. rewrite lookup_nil in H. discriminate.
    + symmetry. apply Z.div_small. unfold len. cbn [length]. lia.
  - assert (Hb : (length b < fuel)%nat).
    { rewrite <- Happ in Hl. rewrite length_app, length_cons in Hl. lia. }
    destruct (IH b Hb) as (IH1 & IH2 & IH3).
    assert (Hla : len l = len (x :: a) + len b).
    { rewrite <- Happ. unfold len. rewrite length_app. lia. }
    assert (Hpos : 0 < len (x :: a)) by (unfold len; rewrite length_cons; lia).
    split; [|split].
    + constructor; [lia|exact IH1].
    + intros [|i] c Hi Hlt; cbn [length] in Hlt.
      * injection Hi as <-.
        assert (0 < len b).
        { destruct b as [|y b]; [rewrite chunks_from_nil in Hlt; cbn [length] in Hlt; lia|].
          unfold len. rewrite length_cons. lia. }
        lia.
      * apply (IH2 i c Hi). lia.
    + cbn [length]. rewrite Nat2Z.inj_succ, IH3.
      replace (len l + CHUNK_SIZE - 1) with (1 * CHUNK_SIZE + (len l - 1)) by lia.
      rewrite Z.div_add_l by lia.
      destruct (Z.le_gt_cases (len l) CHUNK_SIZE).
      * replace (len b) with 0 by lia.
        rewrite (Z.div_small (0 + CHUNK_SIZE - 1)) by lia.
        rewrite (Z.div_small (len l - 1)) by lia. lia.
      * replace (len l - 1) with (1 * CHUNK_SIZE + (len b - 1)) by lia.
        rewrite Z.div_add_l by lia.
        replace (len b + CHUNK_SIZE - 1) with (1 * CHUNK_SIZE + (len b - 1)) by lia.
        rewrite Z.div_add_l by lia. lia.
Qed.

(** X6. The producer of [UpLoad.save] reads the spooled bytes [CHUNK_SIZE]
    at a time: every chunk it yields has between 1 and [CHUNK_SIZE] bytes,
    every chunk but the last has exactly [CHUNK_SIZE], the number of chunks
    is [len(B)] divided by [CHUNK_SIZE] rounded up (none for empty content),
    and the chunks concatenate to the bytes written. *)
Theorem X6_chunk_sizes (B : bytes) :
  Forall (fun c => 0 < len c ≤ CHUNK_SIZE) (UpLoad.chunks B) ∧
  (∀ i c, UpLoad.chunks B !! i = Some c →
     (S i < length (UpLoad.chunks B))%nat → len c = CHUNK_SIZE) ∧
  Z.of_nat (length (UpLoad.chunks B)) = (len B + CHUNK_SIZE - 1) / CHUNK_SIZE ∧
  concat (UpLoad.chunks B) = B.
Proof.
  destruct (chunks_from_shape (S (length B)) B ltac:(lia)) as (H1 & H2 & H3).
  split; [exact H1|]. split; [exact H2|]. split; [exact H3|]. apply chunks_concat.
Qed.

(** ** Upload sessions *)

Lemma writes_fold (pieces : list bytes) (u : UpLoad.t) :
  foldl (fun u b => UpLoad.write b u) u pieces =
    UpLoad.mk (UpLoad.fd u ++ concat pieces) (UpLoad.size u + total_len pieces)
              (UpLoad.sha256 u ++ concat pieces) (UpLoad.isfini u).
Proof.
  revert u. induction pieces as [|c cs IH]; intros u.
  - cbn [foldl concat]. rewrite !app_nil_r.
    replace (UpLoad.size u + total_len []) with (UpLoad.size u)
      by (unfold total_len, len; cbn [concat length]; lia).
    destruct u; reflexivity.
  - cbn [foldl]. rewrite IH. unfold UpLoad.write.
    cbn [UpLoad.fd UpLoad.size UpLoad.sha256 UpLoad.isfini].
    rewrite total_len_cons, concat_cons, <- !app_assoc. f_equal. lia.
Qed.

Lemma upload_writes_save (tick : Z) (pieces : list bytes) (s : Axon) :
  UpLoad.save tick (foldl (fun u b => UpLoad.write b u) UpLoad.anit pieces) s =
    match put tick (concat pieces) s with
    | (Ok r, s') => (Ok (r, UpLoad.anit), s')
    | (Raise e, s') => (Raise e, s')
    | (Wait, s') => (Wait, s')
    end.
Proof.
  rewrite writes_fold. cbn [UpLoad.anit UpLoad.fd UpLoad.size UpLoad.sha256 UpLoad.isfini].
  rewrite !app_nil_l, Z.add_0_l. unfold total_len. apply upload_save_put.
Qed.

(** X7. An upload session is a [put] of what was written: after any
    sequence of [write] calls on a new upload object, [save] does to the
    store, and returns or raises, what [put] of the concatenated bytes does
    (how the bytes were cut into writes does not matter), and when it
    returns the object is as new ([_reset]), ready for another file. *)
Theorem X7_upload_session (tick : Z) (pieces : list bytes) (s : Axon) :
  UpLoad.save tick (foldl (fun u b => UpLoad.write b u) UpLoad.anit pieces) s =
    match put tick (concat pieces) s with
    | (Ok r, s') => (Ok (r, UpLoad.anit), s')
    | (Raise e, s') => (Raise e, s')
    | (Wait, s') => (Wait, s')
    end.
Proof. apply upload_writes_save. Qed.

(** ** Blobs under other digests *)

(** Two tables in key order that agree on the keys of a prefix are scanned
    alike by that prefix. *)
Lemma scanByPref_ext (P : bytes) (d d' : db) :
  db_ok d → db_ok d' →
  (∀ k, P `prefix_of` k → db_get k d' = db_get k d) →
  scanByPref P d' = scanByPref P d.
Proof.
  intros Hd Hd' Hext.
  assert (Hs : db_ok (scanByPref P d)) by (eapply db_ok_sublist; [apply sublist_filter|exact Hd]).
  assert (Hs' : db_ok (scanByPref P d')) by (eapply db_ok_sublist; [apply sublist_filter|exact Hd']).
  apply (StronglySorted_unique_strong key_lt); try assumption.
  - intros x1 x2 _ _ H1 H2. exfalso. exact (bytes_lt_asym _ _ H1 H2).
  - apply NoDup_Permutation; try (apply db_ok_NoDup; assumption).
    intros [k v]. unfold scanByPref. rewrite !list_elem_of_filter. cbn [fst].
    rewrite (db_get_elem k v d Hd), (db_get_elem k v d' Hd'). split.
    + intros [Hp Hg]. split; [exact Hp|]. rewrite <- (Hext k Hp). exact Hg.
    + intros [Hp Hg]. split; [exact Hp|]. rewrite (Hext k Hp). exact Hg.
Qed.

Lemma same_blob_intro (D : bytes) (s s' : Axon) :
  db_ok (blobs s) → db_ok (blobs s') →
  db_get D (sizes s') = db_get D (sizes s) →
  (∀ k, D `prefix_of` k → db_get k (blobs s') = db_get k (blobs s)) →
  same_blob D s s'.
Proof.
  intros Hb Hb' Hs Hk.
  assert (Hhas : has D s' = has D s) by (unfold has; rewrite Hs; reflexivity).
  split; [exact Hhas|]. split.
  - unfold size. rewrite Hs. reflexivity.
  - unfold get, _get. rewrite Hhas, (scanByPref_ext D (blobs s) (blobs s')) by assumption.
    reflexivity.
Qed.

Lemma db_get_write_chunks_other (D D' k : bytes) (cs : list bytes) (d : db) :
  length D = length D' → D ≠ D' → D' `prefix_of` k →
  db_get k (write_chunks D 0 cs d) = db_get k d.
Proof.
  intros Hl Hne Hp. apply db_get_write_chunks_miss. intros j _ ->.
  apply Hne. apply (prefix_same_length _ _ _ (prefix_app_r D D _ (reflexivity D)) Hp Hl).
Qed.

Lemma same_blob_save (tick : Z) (D D' : bytes) (g : genr) (s : Axon) :
  wf s → length D = length D' → D ≠ D' → same_blob D' s (save tick D g s).2.
Proof.
  intros Hwf Hl Hne.
  pose proof (wf_save tick D g s Hwf) as (_ & Hb' & _). pose proof Hwf as (_ & Hb & _).
  apply same_blob_intro; [exact Hb|exact Hb'| |];
    destruct (save_outcomes tick D g s Hwf)
      as [(r & -> & _)|(_ & _ & cs & _ & [(-> & _)|[(e & -> & _)|(-> & _)]])];
    cbn [snd sizes blobs saved overflowed set_hashlocks set_blobs]; try reflexivity.
  - apply db_get_put_ne. auto.
  - intros k Hp. apply (db_get_write_chunks_other D D'); assumption.
  - intros k Hp. apply (db_get_write_chunks_other D D'); assumption.
  - intros k Hp. apply (db_get_write_chunks_other D D'); assumption.
Qed.

Lemma same_blob_del (D D' : bytes) (s : Axon) :
  wf s → length D = length D' → D ≠ D' → same_blob D' s (del_ D s).2.
Proof.
  intros Hwf Hl Hne.
  pose proof (wf_del D s Hwf) as (_ & Hb' & _). pose proof Hwf as (_ & Hb & _).
  apply same_blob_intro; [exact Hb|exact Hb'| |];
    rewrite del_spec by exact Hwf; destruct (db_get D (sizes s)) as [v|];
    cbn [snd sizes blobs deleted]; try reflexivity.
  - apply db_get_delete_ne. auto.
  - intros k Hp. rewrite db_get_sweep. rewrite decide_False; [reflexivity|].
    intros Hp'. apply Hne. exact (prefix_same_length _ _ _ Hp' Hp Hl).
Qed.

(** X8. Blobs do not disturb each other: from a well-formed state, a
    [save], [put] or [del_] under one digest, whatever it returns or raises,
    leaves [has], [size] and [get] of every other digest of the same length
    as they were (chunk keys are the digest followed by the ordinal, so
    digests of one length never share a chunk key). *)
Theorem X8_other_blobs_untouched (c : call) (D' : bytes) (s : Axon) :
  wf s → length (call_digest c) = length D' → call_digest c ≠ D' →
  same_blob D' s (run_call c s).
Proof.
  intros Hwf Hl Hne. destruct c as [tick D g|tick B|D]; cbn [run_call call_digest] in *.
  - apply same_blob_save; assumption.
  - destruct (has (SHA256.digest B) s) eqn:E.
    + rewrite put_present by exact E. repeat split.
    + rewrite put_absent by exact E.
      pose proof (same_blob_save tick (SHA256.digest B) D' (genr_of (UpLoad.chunks B)) s
                    Hwf Hl Hne) as H.
      destruct (save tick _ _ s) as [[r|e|] s']; exact H.
  - apply same_blob_del; assumption.
Qed.

Lemma X8_other_blobs_untouched_witness :
  same_blob (SHA256.digest abc) (put 0 abc (anit None None)).2
    (run_call (CSave 1 (SHA256.digest xyz) (genr_raising [xyz] IsFini))
       (put 0 abc (anit None None)).2).
Proof.
  apply (X8_other_blobs_untouched _ (SHA256.digest abc) (put 0 abc (anit None None)).2).
  - apply wf_put, wf_anit.
  - cbn [call_digest]. rewrite !digest_length. reflexivity.
  - cbn [call_digest]. exact digest_xyz_abc.
Defined.

(** ** What a stored digest reads back *)

Lemma holds_only_reads (B : bytes) (s : Axon) :
  db_ok (blobs s) → holds_only s B → has (SHA256.digest B) s = true →
  get (SHA256.digest B) s = Ok (UpLoad.chunks B) ∧
  size (SHA256.digest B) s = Some (len B).
Proof.
  intros Hb [Honly Hidx] Hhas. pose proof (chunks_length B) as Hcl.
  pose proof Hhas as Hh. apply has_true in Hh as [v Hg].
  destruct (Hidx v Hg) as (-> & Hlen & Hall). split.
  - unfold get. rewrite Hhas. cbn [negb]. f_equal. unfold _get.
    rewrite (scanByPref_chunks _ _ (UpLoad.chunks B)).
    + apply chunk_entries_values.
    + exact Hb.
    + unfold len in Hlen. lia.
    + intros k v Hp. split; [intros H; eauto|].
      intros (j & Hj & ->). eauto.
  - unfold size. rewrite Hg. f_equal. rewrite from_be_bytes by (unfold len; lia).
    apply Z.mod_small. change (256 ^ Z.of_nat 8) with (2 ^ 64). unfold len in *. lia.
Qed.

(** X9. Stored content stays intact: in every state reached from a new
    Axon by [put] and [del_] calls, whatever they returned or raised (limits
    reached, blobs deleted and put again), a content [B] whose digest is in
    the size-index reads back as the chunks of [B] with [size = len(B)], as
    long as no other content put in the run has the SHA-256 of [B]. *)
Theorem X9_stored_content_intact (ops : list op) (B : bytes) (maxb maxc : option Z) :
  (∀ tick B', Put tick B' ∈ ops → SHA256.digest B' = SHA256.digest B → B' = B) →
  has (SHA256.digest B) (run ops (anit maxb maxc)) = true →
  get (SHA256.digest B) (run ops (anit maxb maxc)) = Ok (UpLoad.chunks B) ∧
  size (SHA256.digest B) (run ops (anit maxb maxc)) = Some (len B).
Proof.
  intros Hcol Hhas.
  destruct (run_from_empty ops B maxb maxc Hcol) as [(_ & Hb & _) Hh].
  apply holds_only_reads; assumption.
Qed.

Lemma X9_stored_content_intact_witness :
  get (SHA256.digest abc)
      (run [Put 0 abc; Put 1 xyz; Del (SHA256.digest abc); Put 2 abc] (anit None (Some 2)))
    = Ok (UpLoad.chunks abc) ∧
  size (SHA256.digest abc)
      (run [Put 0 abc; Put 1 xyz; Del (SHA256.digest abc); Put 2 abc] (anit None (Some 2)))
    = Some (len abc).
Proof.
  apply (X9_stored_content_intact _ abc None (Some 2)).
  - intros tick B' Hin Hd. rewrite !elem_of_cons, elem_of_nil in Hin.
    destruct Hin as [H|[H|[H|[H|[]]]]]; try discriminate H; injection H as _ ->;
      try reflexivity.
    exfalso. exact (digest_xyz_abc Hd).
  - vm_compute. reflexivity.
Defined.

(** ** Lists of files and of digests *)

Lemma put_returns (tick : Z) (B : bytes) (s : Axon) (r : Z * bytes) (s' : Axon) :
  wf s → put tick B s = (Ok r, s') →
  r = (len B, SHA256.digest B) ∧ has (SHA256.digest B) s' = true ∧
  (∀ D, has D s = true → has D s' = true).
Proof.
  intros Hwf Hput. split; [eapply put_result; exact Hput|].
  destruct (has (SHA256.digest B) s) eqn:E.
  - rewrite put_present in Hput by exact E. injection Hput as _ <-. auto.
  - rewrite put_absent in Hput by exact E.
    destruct (save_outcomes tick (SHA256.digest B) (genr_of (UpLoad.chunks B)) s Hwf)
      as [(r0 & Hs & _ & [L|Hp])|(_ & _ & cs & _ & [(Hs & _)|[(e & Hs & _)|(Hs & _)]])].
    + destruct (save_at_limit tick (SHA256.digest B) (genr_of (UpLoad.chunks B)) s L) as [m Hm].
      rewrite Hm in Hput. discriminate.
    + apply has_false in E. rewrite E in Hp. destruct Hp as [? Hp]. discriminate.
    + rewrite Hs in Hput. injection Hput as _ <-. split.
      * apply has_true. unfold saved. cbn [sizes]. rewrite db_get_put_eq. eauto.
      * intros D HD. apply has_true in HD as [v Hv]. apply has_true.
        unfold saved. cbn [sizes].
        destruct (decide (D = SHA256.digest B)) as [->|Hne].
        -- rewrite db_get_put_eq. eauto.
        -- rewrite db_get_put_ne by exact Hne. eauto.
    + rewrite Hs in Hput. discriminate.
    + rewrite Hs in Hput. discriminate.
Qed.

Lemma puts_spec (files : list bytes) (ticks : list Z) (s : Axon) (rs : list (Z * bytes)) (s' : Axon) :
  wf s → length ticks = length files → puts ticks files s = (Ok rs, s') →
  rs = map (fun b => (len b, SHA256.digest b)) files ∧
  Forall (fun b => has (SHA256.digest b) s' = true) files ∧
  (∀ D, has D s = true → has D s' = true).
Proof.
  revert ticks s rs. induction files as [|b files IH]; intros ticks s rs Hwf Hl Hp.
  - destruct ticks; [|discriminate]. injection Hp as <- <-. auto.
  - destruct ticks as [|t ticks]; [discriminate|]. injection Hl as Hl.
    cbn [puts] in Hp. unfold bind at 1 in Hp.
    destruct (put t b s) as [[r|e|] s1] eqn:E1; try discriminate.
    destruct (put_returns t b s r s1 Hwf E1) as (-> & Hhas1 & Hmono1).
    assert (Hwf1 : wf s1).
    { pose proof (wf_put t b s Hwf) as H. rewrite E1 in H. exact H. }
    unfold bind at 1 in Hp.
    destruct (puts ticks files s1) as [[rs1|e|] s2] eqn:E2; try discriminate.
    injection Hp as <- <-.
    destruct (IH ticks s1 rs1 Hwf1 Hl E2) as (-> & Hall & Hmono2).
    split; [reflexivity|]. split; [constructor; auto|auto].
Qed.

Lemma filter_none {A} (P : A → Prop) `{∀ x, Decision (P x)} (l : list A) :
  Forall (fun x => ¬ P x) l → filter P l = [].
Proof.
  induction 1 as [|x l Hx Hl IH]; [reflexivity|].
  rewrite filter_cons, decide_False by exact Hx. exact IH.
Qed.

(** X10. When [puts] returns, its list has for every file, in order, the
    pair of its length and its SHA-256, every one of the files is stored
    ([has] is true, also for the files put first), and [wants] of their
    digests is empty. *)
Theorem X10_puts_results (files : list bytes) (ticks : list Z) (s : Axon)
    (rs : list (Z * bytes)) (s' : Axon) :
  wf s → length ticks = length files → puts ticks files s = (Ok rs, s') →
  rs = map (fun b => (len b, SHA256.digest b)) files ∧
  Forall (fun b => has (SHA256.digest b) s' = true) files ∧
  wants (map SHA256.digest files) s' = [].
Proof.
  intros Hwf Hl Hp. destruct (puts_spec files ticks s rs s' Hwf Hl Hp) as (Hrs & Hall & _).
  split; [exact Hrs|]. split; [exact Hall|].
  unfold wants. apply filter_none. apply Forall_map.
  eapply Forall_impl; [exact Hall|]. intros b Hb. cbn. rewrite Hb. discriminate.
Qed.

Lemma X10_puts_results_witness :
  (puts [0; 1; 2] [abc; xyz; abc] (anit None None)).1 =
    Ok (map (fun b => (len b, SHA256.digest b)) [abc; xyz; abc]) ∧
  wants (map SHA256.digest [abc; xyz; abc])
        (puts [0; 1; 2] [abc; xyz; abc] (anit None None)).2 = [].
Proof.
  assert (E1 : (puts [0; 1; 2] [abc; xyz; abc] (anit None None)).1 =
               Ok (map (fun b => (len b, SHA256.digest b)) [abc; xyz; abc]))
    by (vm_compute; reflexivity).
  split; [exact E1|].
  exact (proj2 (proj2 (X10_puts_results [abc; xyz; abc] [0; 1; 2] (anit None None) _ _
                         (wf_anit None None) eq_refl (result_state _ _ _ E1)))).
Defined.

Lemma has_del (D D' : bytes) (s : Axon) :
  wf s → has D' (del_ D s).2 = has D' s && bool_decide (D' ≠ D).
Proof.
  intros Hwf. rewrite del_spec by exact Hwf.
  destruct (db_get D (sizes s)) as [v|] eqn:E; cbn [snd].
  - unfold has, deleted. cbn [sizes]. destruct (decide (D' = D)) as [->|Hne].
    + rewrite db_get_delete_eq, (bool_decide_false (D ≠ D)) by auto.
      rewrite andb_false_r. apply bool_decide_false. auto.
    + rewrite db_get_delete_ne by exact Hne.
      rewrite (bool_decide_true (D' ≠ D)) by exact Hne. rewrite andb_true_r. reflexivity.
  - destruct (decide (D' = D)) as [->|Hne].
    + rewrite (bool_decide_false (D ≠ D)) by auto. rewrite andb_false_r.
      apply has_false. exact E.
    + rewrite (bool_decide_true (D' ≠ D)) by exact Hne. rewrite andb_true_r. reflexivity.
Qed.

Lemma del_result (D : bytes) (s : Axon) : wf s → (del_ D s).1 = Ok (has D s).
Proof.
  intros Hwf. rewrite del_spec by exact Hwf.
  destruct (db_get D (sizes s)) as [v|] eqn:E; cbn [fst]; f_equal; symmetry.
  - apply has_true. eauto.
  - apply has_false. exact E.
Qed.

Lemma dels_spec (l : list bytes) (s : Axon) :
  wf s →
  ∃ bs, (dels l s).1 = Ok bs ∧ length bs = length l ∧
    (∀ i D, l !! i = Some D → bs !! i = Some (has D s && bool_decide (D ∉ take i l))) ∧
    (∀ D, has D (dels l s).2 = has D s && bool_decide (D ∉ l)) ∧
    wf (dels l s).2.
Proof.
  revert s. induction l as [|h l IH]; intros s Hwf.
  - exists []. cbn [dels ret fst snd]. split; [reflexivity|]. split; [reflexivity|].
    split; [intros i D H; rewrite lookup_nil in H; discriminate|]. split; [|exact Hwf].
    intros D. rewrite bool_decide_true by apply not_elem_of_nil.
    rewrite andb_true_r. reflexivity.
  - pose proof (del_result h s Hwf) as Hr. pose proof (wf_del h s Hwf) as Hwf1.
    pose proof (fun D' => has_del h D' s Hwf) as Hh.
    destruct (del_ h s) as [[b|e|] s1] eqn:E1; cbn [fst snd] in *; try discriminate.
    injection Hr as ->.
    destruct (IH s1 Hwf1) as (bs & Hbs & Hlen & Hith & Hafter & Hwf2).
    destruct (dels l s1) as [[bs'|e|] s2] eqn:E2; cbn [fst snd] in *; try discriminate.
    injection Hbs as ->.
    assert (E : dels (h :: l) s = (Ok (has h s :: bs), s2)).
    { cbn [dels]. unfold bind. rewrite E1, E2. reflexivity. }
    rewrite E. exists (has h s :: bs). cbn [fst snd].
    split; [reflexivity|]. split; [cbn [length]; lia|]. split; [|split; [|exact Hwf2]].
    + intros [|i] D Hi.
      * injection Hi as ->. change (take 0 (D :: l)) with (@nil bytes).
        change ((has D s :: bs) !! 0%nat) with (Some (has D s)).
        rewrite (bool_decide_true (D ∉ [])) by apply not_elem_of_nil.
        rewrite andb_true_r. reflexivity.
      * change (l !! i = Some D) in Hi. change ((has h s :: bs) !! S i) with (bs !! i).
        rewrite (Hith i D Hi), Hh. cbn [take].
        rewrite <- andb_assoc. f_equal. f_equal.
        rewrite <- bool_decide_and. apply bool_decide_ext.
        rewrite not_elem_of_cons. reflexivity.
    + intros D. rewrite Hafter, Hh, <- andb_assoc. f_equal.
      rewrite <- bool_decide_and. apply bool_decide_ext.
      rewrite not_elem_of_cons. reflexivity.
Qed.

(** X11. When [dels] returns, from a well-formed state, it returns one
    boolean per digest, in order: the boolean of a digest is [True] exactly
    when the digest was stored before the call and does not occur earlier
    in the list (a repeated digest gives [False] the second time).
    Afterwards none of the digests is stored, and every other digest is
    stored as before. *)
Theorem X11_dels_results (l : list bytes) (s : Axon) (bs : list bool) (s' : Axon) :
  wf s → dels l s = (Ok bs, s') →
  length bs = length l ∧
  (∀ i D, l !! i = Some D → bs !! i = Some (has D s && bool_decide (D ∉ take i l))) ∧
  wants l s' = l ∧
  (∀ D, D ∉ l → has D s' = has D s).
Proof.
  intros Hwf E. destruct (dels_spec l s Hwf) as (bs0 & Hbs & Hlen & Hith & Hafter & _).
  rewrite E in Hbs, Hafter. cbn [fst snd] in Hbs, Hafter. injection Hbs as <-.
  split; [exact Hlen|]. split; [exact Hith|]. split.
  - unfold wants. apply filter_all. apply Forall_forall. intros D Hin.
    rewrite Hafter, (bool_decide_false (D ∉ l)) by auto. apply andb_false_r.
  - intros D Hnin. rewrite Hafter, bool_decide_true by exact Hnin. apply andb_true_r.
Qed.

Lemma X11_dels_results_witness :
  (dels [SHA256.digest abc; SHA256.digest xyz; SHA256.digest abc]
        (put 0 abc (anit None None)).2).1 = Ok [true; false; false] ∧
  wants [SHA256.digest abc; SHA256.digest xyz; SHA256.digest abc]
        (dels [SHA256.digest abc; SHA256.digest xyz; SHA256.digest abc]
              (put 0 abc (anit None None)).2).2
    = [SHA256.digest abc; SHA256.digest xyz; SHA256.digest abc].
Proof.
  assert (E1 : (dels [SHA256.digest abc; SHA256.digest xyz; SHA256.digest abc]
                     (put 0 abc (anit None None)).2).1 = Ok [true; false; false])
    by (vm_compute; reflexivity).
  split; [exact E1|].
  exact (proj1 (proj2 (proj2
    (X11_dels_results _ _ _ _ (wf_put 0 abc _ (wf_anit None None))
       (result_state _ _ _ E1))))).
Defined.

(** ** The sequence after a put *)

Lemma put_new_state (tick : Z) (B : bytes) (s : Axon) (r : Z * bytes) (s' : Axon) :
  wf s → has (SHA256.digest B) s = false → put tick B s = (Ok r, s') →
  s' = saved tick (SHA256.digest B) (UpLoad.chunks B) s ∧ len B < 2 ^ 64 ∧
  at_limit s = false.
Proof.
  intros Hwf E Hput. rewrite put_absent in Hput by exact E.
  destruct (save_outcomes tick (SHA256.digest B) (genr_of (UpLoad.chunks B)) s Hwf)
    as [(r0 & Hs & _ & [L|Hp])|(L & _ & cs & _ & [(Hs & Hg & Hlt)|[(e & Hs & _)|(Hs & _)]])].
  - destruct (save_at_limit tick (SHA256.digest B) (genr_of (UpLoad.chunks B)) s L) as [m Hm].
    rewrite Hm in Hput. discriminate.
  - apply has_false in E. rewrite E in Hp. destruct Hp as [? Hp]. discriminate.
  - rewrite Hs in Hput. injection Hput as _ <-. apply genr_of_inj in Hg. subst cs.
    rewrite chunks_total_len in Hlt. auto.
  - rewrite Hs in Hput. discriminate.
  - rewrite Hs in Hput. discriminate.
Qed.

Lemma seqn_iter_add (offs : Z) (item : bytes * Z) (q : list (bytes * Z)) :
  seqn_iter offs (seqn_add item q) =
    seqn_iter offs q ++
    (if decide (offs ≤ Z.of_nat (length q)) then [(Z.of_nat (length q), item)] else []).
Proof.
  unfold seqn_iter, seqn_add.
  rewrite length_app. cbn [length]. rewrite Nat2Z.inj_add.
  rewrite seqZ_app by lia.
  rewrite zip_with_app by (rewrite length_seqZ; lia).
  rewrite filter_app. f_equal.
Qed.

(** X12. What a [put] of new content does to the sequence that [hashes]
    reads: when [put(B)] returns for a digest that was not stored,
    [hashes(offs)] yields afterwards, for every [offs], the entries from
    [offs] on that it yielded before, together with the earlier entries from
    [offs] on of the digest of [B] (entries of a blob that was deleted come
    back when it is put again), and then, when [offs] is at most the number
    [n] of entries added before the put, the new entry
    [(n, (digest, len(B)))] last; for an [offs] past [n] the new entry is
    not yielded. *)
Theorem X12_hashes_after_put (tick : Z) (B : bytes) (offs : Z) (s : Axon)
    (r : Z * bytes) (s' : Axon) :
  wf s → has (SHA256.digest B) s = false → put tick B s = (Ok r, s') →
  hashes offs s' =
    filter (fun item => has item.2.1 s = true ∨ item.2.1 = SHA256.digest B)
           (seqn_iter offs (axonseqn s))
    ++ (if decide (offs ≤ Z.of_nat (length (axonseqn s)))
        then [(Z.of_nat (length (axonseqn s)), (SHA256.digest B, len B))]
        else []).
Proof.
  intros Hwf E Hput.
  destruct (put_new_state tick B s r s' Hwf E Hput) as (-> & Hlt & _).
  unfold hashes, saved. cbn [sizes axonseqn].
  rewrite chunks_total_len, seqn_iter_add.
  rewrite filter_app. f_equal.
  - apply list_filter_iff. intros [o [D n]]. cbn [fst snd]. unfold db_has, has.
    rewrite !bool_decide_eq_true.
    destruct (decide (D = SHA256.digest B)) as [->|Hne].
    + rewrite db_get_put_eq. split; [auto|eauto].
    + rewrite db_get_put_ne by exact Hne. split.
      * intros [v Hv]. left. rewrite Hv. discriminate.
      * intros [H|H]; [|contradiction].
        destruct (db_get D (sizes s)); [eauto|contradiction].
  - destruct (decide (offs ≤ Z.of_nat (length (axonseqn s)))); [|reflexivity].
    rewrite filter_cons, decide_True; [reflexivity|].
    cbn [fst snd]. unfold db_has. rewrite bool_decide_eq_true, db_get_put_eq. eauto.
Qed.

Lemma X12_hashes_after_put_witness :
  hashes 0 (put 2 abc gap_store).2 =
    [(0, (SHA256.digest abc, 3)); (1, (SHA256.digest [], 0)); (2, (SHA256.digest abc, 3))].
Proof.
  assert (E1 : (put 2 abc gap_store).1 = Ok (len abc, SHA256.digest abc))
    by (vm_compute; reflexivity).
  assert (Hwf : wf gap_store) by (unfold gap_store; apply wf_del, wf_put, wf_put, wf_anit).
  assert (Hhas : has (SHA256.digest abc) gap_store = false) by (vm_compute; reflexivity).
  rewrite (X12_hashes_after_put 2 abc 0 gap_store _ _ Hwf Hhas (result_state _ _ _ E1)).
  vm_compute. reflexivity.
Defined.

(** X13. [hashes] can be resumed: at one state, the items [hashes(offs)]
    yields are exactly the items with an offset of at least [offs] among
    those that [hashes] from any earlier offset yields, in the same
    order. *)
Theorem X13_hashes_resume (offs0 offs : Z) (s : Axon) :
  offs0 ≤ offs →
  hashes offs s = filter (fun item => offs ≤ item.1) (hashes offs0 s).
Proof.
  intros Ho. unfold hashes, seqn_iter. rewrite !list_filter_filter.
  apply list_filter_iff. intros [o [D n]]. cbn [fst snd]. intuition lia.
Qed.

Lemma X13_hashes_resume_witness :
  hashes 1 gap_store = filter (fun item => 1 ≤ item.1) (hashes 0 gap_store).
Proof.
  apply (X13_hashes_resume 0 1 gap_store). lia.
Defined.

(** ** The HTTP handlers *)

Lemma hex_val_digit (d : Z) : 0 ≤ d < 16 → hex_val (hex_digit d) = Some d.
Proof.
  intros H. assert (Hn : (Z.to_nat d < 16)%nat) by lia.
  replace d with (Z.of_nat (Z.to_nat d)) by lia.
  revert Hn. generalize (Z.to_nat d). clear H. intros n Hn.
  do 16 (destruct n as [|n]; [reflexivity|]). lia.
Qed.

Lemma uhex_ehex (b : bytes) : uhex (ehex b) = Some b.
Proof.
  induction b as [|x b IH]; [reflexivity|].
  pose proof (byte_val_range x) as Hx.
  cbn [ehex uhex].
  rewrite !hex_val_digit, IH.
  - f_equal. f_equal. rewrite <- (byte_of_val x) at 3. f_equal.
    symmetry. apply Z.div_mod. lia.
  - apply Z.mod_pos_bound. lia.
  - split; [apply Z.div_pos; lia|apply Z.div_lt_upper_bound; lia].
Qed.

(** X14. The handlers of [/files/by/sha256/<hex>]: for the hexadecimal
    text of a digest that is not stored, GET and DELETE both answer with
    status 404 and the error [NoSuchFile], and change nothing; for a stored
    digest, GET writes the chunks of the blob in order, each followed by a
    flush, and DELETE answers [True], never [False] ([has] and [del_] agree
    on a well-formed store), after which the digest is not stored. *)
Theorem X14_http_by_sha256 (sha256 : string) (D : bytes) (s : Axon) :
  wf s → uhex sha256 = Some D →
  (has D s = false →
     AxonHttpBySha256V1.get true sha256 s =
       (Ok [SetHeader "Content-Type" "application/octet-stream";
            SetHeader "Content-Disposition" "attachment";
            SetStatus 404;
            SendRestErr "NoSuchFile" "Axon does not contain the requested file."], s) ∧
     AxonHttpBySha256V1.delete true sha256 s =
       (Ok [SetStatus 404; SendRestErr "NoSuchFile" ("SHA-256 not found: " +:+ sha256)], s)) ∧
  (has D s = true →
     AxonHttpBySha256V1.get true sha256 s =
       (Ok ([SetHeader "Content-Type" "application/octet-stream";
             SetHeader "Content-Disposition" "attachment"]
            ++ concat (map (fun byts => [WriteBody byts; Flush]) (_get D s))), s) ∧
     ∃ s', AxonHttpBySha256V1.delete true sha256 s = (Ok [SendRestRetn (RBool true)], s') ∧
           has D s' = false).
Proof.
  intros Hwf Hu. split; intros Hhas.
  - unfold AxonHttpBySha256V1.get, AxonHttpBySha256V1.delete. cbn [negb]. rewrite Hu.
    unfold bind, gets, get. rewrite Hhas. cbn [negb]. split; reflexivity.
  - unfold AxonHttpBySha256V1.get, AxonHttpBySha256V1.delete. cbn [negb]. rewrite Hu.
    unfold bind, gets, get. rewrite Hhas. cbn [negb]. split; [reflexivity|].
    pose proof (del_result D s Hwf) as Hr. pose proof (has_del D D s Hwf) as Hd.
    destruct (del_ D s) as [[b|e|] s'] eqn:E; cbn [fst snd] in *; try discriminate.
    injection Hr as ->. rewrite Hhas. exists s'. split; [reflexivity|].
    rewrite Hd, (bool_decide_false (D ≠ D)) by auto. apply andb_false_r.
Qed.

Lemma X14_http_by_sha256_witness :
  ∃ s', AxonHttpBySha256V1.delete true (ehex (SHA256.digest abc)) (put 0 abc (anit None None)).2
          = (Ok [SendRestRetn (RBool true)], s') ∧
        has (SHA256.digest abc) s' = false.
Proof.
  apply (X14_http_by_sha256 (ehex (SHA256.digest abc)) (SHA256.digest abc)
           (put 0 abc (anit None None)).2).
  - apply wf_put, wf_anit.
  - apply uhex_ehex.
  - vm_compute. reflexivity.
Defined.

Lemma data_received_fold (chunks : list (option bytes)) (h : AxonHttpUploadV1.t) :
  foldl (fun h c => AxonHttpUploadV1.data_received c h) h chunks =
    AxonHttpUploadV1.mk
      (foldl (fun u b => UpLoad.write b u) (AxonHttpUploadV1.upfd h) (omap id chunks))
      (AxonHttpUploadV1.hashset h ++ concat (omap id chunks)).
Proof.
  revert h. induction chunks as [|[c|] chunks IH]; intros h.
  - cbn [foldl omap list_omap concat]. rewrite app_nil_r. destruct h; reflexivity.
  - cbn [foldl]. rewrite IH. cbn [omap list_omap id concat foldl
      AxonHttpUploadV1.data_received AxonHttpUploadV1.upfd AxonHttpUploadV1.hashset].
    rewrite <- app_assoc. reflexivity.
  - cbn [foldl]. rewrite IH. reflexivity.
Qed.

(** X15. The upload handler: after [prepare] and any [data_received]
    calls ([None] chunks are skipped), [_save] does to the store, and
    raises, what [put] of the bytes received does; when the save returns,
    neither assertion of [_save] fails (the SHA-256 of the hash set is the
    digest the upload object computed, and the size is the number of bytes
    received, given that the [size] of the hash set counts the bytes fed),
    and the reply carries the four hexadecimal digests of the bytes
    received and their number under ['size']. *)
Theorem X15_http_upload_save (md5 sha1 sha512 : bytes → bytes) (hashset_size : bytes → Z)
    (tick : Z) (chunks : list (option bytes)) (s : Axon) :
  (∀ fed, hashset_size fed = len fed) →
  AxonHttpUploadV1._save md5 sha1 sha512 hashset_size tick
    (foldl (fun h c => AxonHttpUploadV1.data_received c h) AxonHttpUploadV1.prepare chunks) s =
    match put tick (concat (omap id chunks)) s with
    | (Ok _, s') =>
        (Ok ([SendRestRetn (RDict
               (<["size" := VInt (len (concat (omap id chunks)))]>
                  (VStr <$> foldl (fun d nh => <[nh.1 := ehex nh.2]> d) ∅
                              (hashset_digests md5 sha1 sha512 (concat (omap id chunks))))))],
             AxonHttpUploadV1.mk UpLoad.anit (concat (omap id chunks))), s')
    | (Raise e, s') => (Raise e, s')
    | (Wait, s') => (Wait, s')
    end.
Proof.
  intros Hsize. rewrite data_received_fold.
  cbn [AxonHttpUploadV1.prepare AxonHttpUploadV1.upfd AxonHttpUploadV1.hashset].
  rewrite app_nil_l.
  unfold AxonHttpUploadV1._save. cbn [AxonHttpUploadV1.upfd AxonHttpUploadV1.hashset].
  unfold bind at 1. rewrite upload_writes_save.
  destruct (put tick (concat (omap id chunks)) s) as [[r|e|] s'] eqn:E; try reflexivity.
  apply put_result in E. subst r. cbn [fst snd].
  cbn [hashset_digests foldl fst snd].
  rewrite lookup_insert_ne by discriminate. rewrite lookup_insert_eq.
  rewrite uhex_ehex. rewrite bool_decide_true by reflexivity. cbn [negb].
  rewrite Hsize, bool_decide_true by reflexivity. cbn [negb].
  reflexivity.
Qed.

Lemma X15_http_upload_save_witness :
  ∃ acts h' s',
    AxonHttpUploadV1._save nohash nohash nohash len 0
      (foldl (fun h c => AxonHttpUploadV1.data_received c h) AxonHttpUploadV1.prepare
             [Some abc; None; Some xyz])
      (anit None None) = (Ok (acts, h'), s') ∧
    has (SHA256.digest (abc ++ xyz)) s' = true.
Proof.
  assert (E1 : (put 0 (concat (omap id [Some abc; None; Some xyz])) (anit None None)).1 =
               Ok (len (abc ++ xyz), SHA256.digest (abc ++ xyz)))
    by (vm_compute; reflexivity).
  pose proof (X15_http_upload_save nohash nohash nohash len 0 [Some abc; None; Some xyz]
                (anit None None) (fun fed => eq_refl)) as H.
  rewrite (result_state _ _ _ E1) in H.
  eexists _, _, _. split; [exact H|].
  exact (proj1 (proj2 (put_returns _ _ _ _ _ (wf_anit None None) (result_state _ _ _ E1)))).
Defined.

(** ** The hash lock on the normal path *)

(** X16. [holdHashLock] when nothing goes wrong: from a registry where no
    lock is held, a block that returns leaves the registry exactly as it
    was (the entry of the digest is counted up, locked, released, counted
    down, and popped at zero), and the block's result and state come out
    unchanged. While the lock of a digest is held, another coroutine that
    enters for the same digest is counted and waits: its block does not
    run, and nothing but the count changes. *)
Theorem X16_hash_lock_normal_path {A : Type} (h : bytes) (body : M A) (s : Axon) :
  (registry_quiet (hashlocks s) → lock_independent body →
   ∀ a s2, body s = (Ok a, s2) →
     holdHashLock h body s = (Ok a, s2) ∧ hashlocks s2 = hashlocks s) ∧
  (∀ n, hashlocks s !! h = Some (n, true) →
     holdHashLock h body s = (Wait, set_hashlocks (fun reg => <[h := (n + 1, true)]> reg) s)).
Proof.
  split.
  - intros Hq Hb a s2 E. apply holdHashLock_return_restores; assumption.
  - intros n Hn. unfold holdHashLock.
    assert (E : set_hashlocks (hashlocks_enter h) s =
                set_hashlocks (fun reg => <[h := (n + 1, true)]> reg) s).
    { unfold set_hashlocks, hashlocks_enter. rewrite Hn. reflexivity. }
    cbv zeta. rewrite E. unfold hashlocks_acquire.
    cbn [hashlocks set_hashlocks]. rewrite lookup_insert_eq. reflexivity.
Qed.

(** ** Runs of a new Axon *)

Lemma db_total_nonneg (d : db) : 0 ≤ db_total d.
Proof.
  induction d as [|[k v] d IH]; [reflexivity|].
  unfold db_total in *. cbn [foldr snd]. pose proof (from_bytes_nonneg v). lia.
Qed.

(** X17. A new Axon is well-formed with both counters at zero, and in
    every state it reaches by calls of [save], [put] and [del_] that bring
    less than [2^64] bytes each, whatever they return or raise, the state is
    well-formed, [file:count] is the number of size-index entries and
    [size:bytes] the sum of their sizes; neither counter is ever
    negative. *)
Theorem X17_new_axon_runs (maxb maxc : option Z) (cs : list call) :
  Forall (fun c => call_bytes c < 2 ^ 64) cs →
  wf (run_calls cs (anit maxb maxc)) ∧
  consistent (run_calls cs (anit maxb maxc)) ∧
  0 ≤ file_count (axonmetrics (run_calls cs (anit maxb maxc))) ∧
  0 ≤ size_bytes (axonmetrics (run_calls cs (anit maxb maxc))).
Proof.
  intros Hall.
  assert (Hwf : wf (run_calls cs (anit maxb maxc))) by apply wf_run_calls, wf_anit.
  assert (Hc : consistent (run_calls cs (anit maxb maxc))).
  { apply consistent_run_calls; [apply wf_anit|split; reflexivity|exact Hall]. }
  split; [exact Hwf|]. split; [exact Hc|]. destruct Hc as [-> ->].
  split; [unfold db_count; lia|apply db_total_nonneg].
Qed.

Lemma X17_new_axon_runs_witness :
  0 ≤ size_bytes (axonmetrics
        (run_calls [CDel (SHA256.digest abc); CPut 0 abc; CDel (SHA256.digest abc);
                    CDel (SHA256.digest abc)]
           (anit None None))).
Proof.
  apply (X17_new_axon_runs None None
           [CDel (SHA256.digest abc); CPut 0 abc; CDel (SHA256.digest abc);
            CDel (SHA256.digest abc)]).
  repeat constructor.
Defined.

(** ** Chunks left by a failed save *)

Lemma scan_two_writes (D : bytes) (cs1 cs2 : list bytes) (d : db) :
  db_ok d → Z.of_nat (length cs1) ≤ 2 ^ 64 → Z.of_nat (length cs2) ≤ 2 ^ 64 →
  (∀ k, D `prefix_of` k → db_get k d = None) →
  (scanByPref D (write_chunks D 0 cs2 (write_chunks D 0 cs1 d))).*2 =
    cs2 ++ drop (length cs2) cs1.
Proof.
  intros Hd H1 H2 Hclean.
  rewrite (scanByPref_chunks D _ (cs2 ++ drop (length cs2) cs1)).
  - apply chunk_entries_values.
  - apply db_ok_write_chunks, db_ok_write_chunks, Hd.
  - rewrite length_app, length_drop. lia.
  - intros k v Hp. split.
    + intros H. pose proof H as H'.
      apply db_get_write_chunks_cases in H' as [(j & Hj & ->)|H'].
      * exists j. rewrite Z.add_0_l. split; [|reflexivity].
        apply lookup_app_l_Some. exact Hj.
      * apply db_get_write_chunks_cases in H' as [(j & Hj & ->)|H'].
        -- rewrite Z.add_0_l in *. exists j. split; [|reflexivity].
           destruct (decide (j < length cs2)%nat) as [Hlt|Hge].
           ++ destruct (lookup_lt_is_Some_2 cs2 j Hlt) as [c Hc].
              pose proof (db_get_write_chunks_hit D 0 cs2 (write_chunks D 0 cs1 d) j c
                            ltac:(lia) ltac:(lia) Hc) as Hhit.
              rewrite Z.add_0_l in Hhit. rewrite Hhit in H. injection H as <-.
              apply lookup_app_l_Some. exact Hc.
           ++ rewrite lookup_app_r by lia. rewrite lookup_drop.
              replace (length cs2 + (j - length cs2))%nat with j by lia. exact Hj.
        -- rewrite Hclean in H' by exact Hp. discriminate.
    + intros (j & Hj & ->).
      destruct (decide (j < length cs2)%nat) as [Hlt|Hge].
      * rewrite lookup_app_l in Hj by exact Hlt.
        rewrite <- (Z.add_0_l (Z.of_nat j)).
        apply db_get_write_chunks_hit; [lia|lia|exact Hj].
      * rewrite lookup_app_r in Hj by lia. rewrite lookup_drop in Hj.
        replace (length cs2 + (j - length cs2))%nat with j in Hj by lia.
        pose proof (lookup_lt_Some _ _ _ Hj) as Hj1.
        rewrite db_get_write_chunks_miss.
        -- rewrite <- (Z.add_0_l (Z.of_nat j)).
           apply db_get_write_chunks_hit; [lia|lia|exact Hj].
        -- intros j' Hj' E. rewrite Z.add_0_l in E. apply chunk_key_inj in E; lia.
Qed.

(** X19. Chunks left by a failed [save] come back: when a [save] of a
    digest fails after the chunks [cs1] (the producer raised), and a later
    [save] of the same digest with the chunks [cs2] returns, the index
    holds the size of [cs2], but [get] yields [cs2] followed by the chunks
    of [cs1] at the ordinals that [cs2] did not overwrite. [get] yields
    exactly [cs2] only when [cs2] has at least as many chunks as [cs1]:
    [save] does not clear chunks found under the digest before it
    writes. *)
Theorem X19_orphans_resurface (t1 t2 : Z) (D : bytes) (cs1 cs2 : list bytes) (e : exc)
    (s : Axon) :
  wf s → at_limit s = false → has D s = false →
  (∀ k, D `prefix_of` k → db_get k (blobs s) = None) →
  Z.of_nat (length cs1) ≤ 2 ^ 64 → Z.of_nat (length cs2) ≤ 2 ^ 64 →
  total_len cs2 < 2 ^ 64 →
  ∃ s1 s2,
    save t1 D (genr_raising cs1 e) s = (Raise e, s1) ∧
    save t2 D (genr_of cs2) s1 = (Ok (total_len cs2), s2) ∧
    size D s2 = Some (total_len cs2) ∧
    get D s2 = Ok (cs2 ++ drop (length cs2) cs1) ∧
    (length cs1 ≤ length cs2 → get D s2 = Ok cs2)%nat.
Proof.
  intros Hwf L Hhas Hclean Hl1 Hl2 Htot. pose proof Hwf as (Hs & Hb & Hv & Hq).
  pose proof (wf_save t1 D (genr_raising cs1 e) s Hwf) as Hwf'.
  pose proof Hhas as Habs. apply has_false in Habs.
  rewrite save_below_limit in * by assumption.
  rewrite save_locked_absent_raising in * by assumption.
  cbn [snd] in Hwf'.
  set (s1 := set_hashlocks (hashlocks_leak D) (set_blobs (write_chunks D 0 cs1) s)) in *.
  assert (Habs' : db_get D (sizes s1) = None) by exact Habs.
  assert (L' : at_limit s1 = false) by exact L.
  destruct Hwf' as (Hs' & Hb' & Hv' & Hq').
  exists s1, (saved t2 D cs2 s1). split; [reflexivity|].
  rewrite save_below_limit by assumption.
  rewrite save_locked_absent_of by assumption.
  split; [reflexivity|].
  pose proof (total_len_nonneg cs2) as Hnn.
  assert (Hfb : from_bytes (be_bytes 8 (total_len cs2)) = total_len cs2).
  { rewrite from_be_bytes by lia. apply Z.mod_small.
    change (256 ^ Z.of_nat 8) with (2 ^ 64). lia. }
  assert (Hhas2 : has D (saved t2 D cs2 s1) = true).
  { apply has_true. unfold saved. cbn [sizes]. rewrite db_get_put_eq. eauto. }
  assert (Hget : get D (saved t2 D cs2 s1) = Ok (cs2 ++ drop (length cs2) cs1)).
  { unfold get. rewrite Hhas2. cbn [negb]. f_equal. unfold _get, saved. cbn [blobs].
    apply scan_two_writes; assumption. }
  split; [|split; [exact Hget|]].
  - unfold size, saved. cbn [sizes]. rewrite db_get_put_eq, Hfb. reflexivity.
  - intros Hle. rewrite Hget, drop_ge by exact Hle. rewrite app_nil_r. reflexivity.
Qed.

Lemma X19_orphans_resurface_witness :
  ∃ s1 s2,
    save 0 (SHA256.digest abc) (genr_raising [abc; xyz] IsFini) (anit None None)
      = (Raise IsFini, s1) ∧
    save 1 (SHA256.digest abc) (genr_of [abc]) s1 = (Ok 3, s2) ∧
    size (SHA256.digest abc) s2 = Some 3 ∧
    get (SHA256.digest abc) s2 = Ok [abc; xyz].
Proof.
  destruct (X19_orphans_resurface 0 1 (SHA256.digest abc) [abc; xyz] [abc] IsFini
              (anit None None)) as (s1 & s2 & H1 & H2 & H3 & H4 & _).
  - apply wf_anit.
  - reflexivity.
  - reflexivity.
  - intros k _. reflexivity.
  - vm_compute. discriminate.
  - vm_compute. discriminate.
  - vm_compute. reflexivity.
  - exists s1, s2. split; [exact H1|]. split; [exact H2|]. split; [exact H3|exact H4].
Defined.

(** ** Routed requests *)

Lemma route_hexdigit_val (c : Ascii.ascii) :
  route_hexdigit c = true → ∃ d, hex_val c = Some d.
Proof.
  unfold route_hexdigit, hex_val. cbv zeta.
  destruct ((48 <=? _) && (_ <=? 57)); [eauto|].
  destruct ((97 <=? _) && (_ <=? 102)); [eauto|].
  destruct ((65 <=? _) && (_ <=? 70)); [eauto|discriminate].
Qed.

Lemma uhex_hexdigits (n : nat) (t : string) :
  String.length t = (2 * n)%nat →
  forallb route_hexdigit (list_ascii_of_string t) = true →
  ∃ b, uhex t = Some b ∧ length b = n.
Proof.
  revert t. induction n as [|n IH]; intros t Hl Hall.
  - destruct t; [|discriminate]. exists []. auto.
  - destruct t as [|c1 [|c2 t]]; try (cbn in Hl; lia).
    cbn [list_ascii_of_string forallb] in Hall.
    apply andb_prop in Hall as [H1 Hall]. apply andb_prop in Hall as [H2 Hall].
    destruct (route_hexdigit_val c1 H1) as [a Ha].
    destruct (route_hexdigit_val c2 H2) as [b Hb].
    destruct (IH t) as (r & Hr & Hlen); [cbn in Hl; lia|exact Hall|].
    exists (byte_of (16 * a + b) :: r). cbn [uhex]. rewrite Ha, Hb, Hr.
    split; [reflexivity|]. cbn [length]. lia.
Qed.

(** X20. A request that the routes of [_initAxonHttpApi] let through
    carries 64 hexadecimal digits: [uhex] of it is a digest of 32 bytes, and
    on a well-formed store neither the GET nor the DELETE handler of
    [/files/by/sha256/] raises on it; GET leaves the store as it is. *)
Theorem X20_http_routed_requests (sha256 : string) (s : Axon) :
  wf s → route_sha256 sha256 = true →
  ∃ D, uhex sha256 = Some D ∧ length D = 32%nat ∧
    (∃ acts, AxonHttpBySha256V1.get true sha256 s = (Ok acts, s)) ∧
    (∃ acts s', AxonHttpBySha256V1.delete true sha256 s = (Ok acts, s')).
Proof.
  intros Hwf Hr. unfold route_sha256 in Hr. apply andb_prop in Hr as [Hl Hall].
  apply Nat.eqb_eq in Hl.
  destruct (uhex_hexdigits 32 sha256 Hl Hall) as (D & Hu & Hlen).
  exists D. split; [exact Hu|]. split; [exact Hlen|].
  unfold AxonHttpBySha256V1.get, AxonHttpBySha256V1.delete. cbn [negb]. rewrite Hu.
  unfold bind, gets, get. destruct (has D s) eqn:Hhas; cbn [negb].
  - split; [eauto|]. pose proof (del_result D s Hwf) as Hd.
    destruct (del_ D s) as [[b|e|] s']; cbn [fst] in Hd; try discriminate. eauto.
  - split; eauto.
Qed.

Lemma X20_http_routed_requests_witness :
  ∃ D, uhex "BA7816BF8F01CFEA414140DE5DAE2223B00361A396177A9CB410FF61F20015AD" = Some D ∧
       length D = 32%nat.
Proof.
  destruct (X20_http_routed_requests
              "BA7816BF8F01CFEA414140DE5DAE2223B00361A396177A9CB410FF61F20015AD"
              (anit None None) (wf_anit None None)) as (D & Hu & Hlen & _).
  - vm_compute. reflexivity.
  - exists D. split; [exact Hu|exact Hlen].
Defined.

(** ** The round trip on a store without stale chunks *)

(** X21. Round trip on a store without stale chunks: in a well-formed
    state that holds under the digest of [B] only what is of [B] (the chunk
    table has under it only chunks of [B] at their ordinals, and a
    size-index entry of the digest comes with the size and all the chunks of
    [B]; so it is in every state reached from a new Axon by [put] and
    [del_], and so it is not after a failed [save] that cut the content
    otherwise), whenever [put(B)] returns, it returns
    [(len(B), SHA-256(B))], [get] of that digest then yields the chunks of
    [B], whose concatenation is [B], and [size] of it is [len(B)]; [put]
    does return when [len(B) < 2^64] and the digest is already stored or no
    limit is reached; for the empty [B] the pair is [(0, SHA-256(b''))] and
    [get] yields no chunk. *)
Theorem X21_round_trip (B : bytes) (tick : Z) (s : Axon) :
  wf s → holds_only s B →
  (∀ r s', put tick B s = (Ok r, s') →
     r = (len B, SHA256.digest B) ∧
     get (SHA256.digest B) s' = Ok (UpLoad.chunks B) ∧
     concat (UpLoad.chunks B) = B ∧
     size (SHA256.digest B) s' = Some (len B)) ∧
  (len B < 2 ^ 64 → at_limit s = false ∨ has (SHA256.digest B) s = true →
     ∃ s', put tick B s = (Ok (len B, SHA256.digest B), s')) ∧
  (B = [] → ∀ r s', put tick B s = (Ok r, s') →
     r = (0, SHA256.digest []) ∧ get (SHA256.digest []) s' = Ok []).
Proof.
  intros Hwf [Honly Hidx]. pose proof Hwf as (Hs & Hb & Hv & Hq).
  pose proof (chunks_length B) as Hcl.
  assert (Hmain : ∀ r s', put tick B s = (Ok r, s') →
     r = (len B, SHA256.digest B) ∧
     get (SHA256.digest B) s' = Ok (UpLoad.chunks B) ∧
     concat (UpLoad.chunks B) = B ∧
     size (SHA256.digest B) s' = Some (len B)).
  { intros r s' Hput. destruct (has (SHA256.digest B) s) eqn:Hhas.
    - rewrite put_present in Hput by exact Hhas. injection Hput as <- <-.
      pose proof Hhas as Hh. apply has_true in Hh as [v Hg].
      destruct (Hidx v Hg) as (-> & Hlen & Hall).
      split; [reflexivity|]. split; [|split; [apply chunks_concat|]].
      + unfold get. rewrite Hhas. cbn [negb]. f_equal. unfold _get.
        rewrite (scanByPref_chunks _ _ (UpLoad.chunks B)).
        * apply chunk_entries_values.
        * exact Hb.
        * unfold len in Hlen. lia.
        * intros k v Hp. split; [intros H; eauto|].
          intros (j & Hj & ->). eauto.
      + unfold size. rewrite Hg. f_equal. rewrite from_be_bytes by (unfold len; lia).
        apply Z.mod_small. change (256 ^ Z.of_nat 8) with (2 ^ 64). unfold len in *. lia.
    - rewrite put_absent in Hput by exact Hhas.
      apply has_false in Hhas.
      destruct (at_limit s) eqn:L.
      { destruct (save_at_limit tick (SHA256.digest B) (genr_of (UpLoad.chunks B)) s L) as [m Hm].
        rewrite Hm in Hput. discriminate. }
      rewrite save_below_limit in Hput by assumption.
      destruct (save_locked_absent_any tick (SHA256.digest B) (genr_of (UpLoad.chunks B)) s Hhas)
        as (cs & Hres).
      destruct (save_locked tick _ _ s) as [[r0|e|] s0]; try discriminate.
      destruct Hres as (Hcs & -> & Hlt & ->). apply genr_of_inj in Hcs. subst cs.
      injection Hput as <- <-. rewrite chunks_total_len in Hlt.
      split; [reflexivity|]. split; [|split; [apply chunks_concat|]].
      + unfold get, has, saved. cbn [sizes blobs]. rewrite db_get_put_eq.
        rewrite bool_decide_true by discriminate. cbn [negb]. f_equal.
        unfold _get. cbn [blobs]. apply get_after_write; [exact Hb| |exact Honly].
        unfold len in Hlt. lia.
      + unfold size, saved. cbn [sizes]. rewrite db_get_put_eq. f_equal.
        rewrite chunks_total_len. rewrite from_be_bytes by (unfold len; lia).
        apply Z.mod_small. change (256 ^ Z.of_nat 8) with (2 ^ 64). unfold len in *. lia. }
  split; [exact Hmain|]. split.
  - intros Hlen Hok. destruct (has (SHA256.digest B) s) eqn:Hhas.
    + rewrite put_present by exact Hhas. eauto.
    + destruct Hok as [L|?]; [|discriminate].
      rewrite put_absent by exact Hhas. apply has_false in Hhas.
      rewrite save_below_limit by assumption.
      rewrite save_locked_absent_of; [eauto|exact Hhas| |].
      * unfold len in Hlen. lia.
      * rewrite chunks_total_len. exact Hlen.
  - intros -> r s' Hput. destruct (Hmain r s' Hput) as (-> & Hget & _).
    rewrite chunks_nil in Hget. split; [reflexivity|exact Hget].
Qed.

Lemma X21_round_trip_witness :
  ∃ s', put 0 abc (anit None None) = (Ok (len abc, SHA256.digest abc), s').
Proof.
  apply (X21_round_trip abc 0 (anit None None)).
  - apply wf_anit.
  - split; intros; discriminate.
  - vm_compute. reflexivity.
  - left. reflexivity.
Defined.
